(** * Email attachment processor: a shallow embedding of [src/src/email_processor.py]

    The development follows the Python module function by function:
    the attachment policy ([filter_attachments]), the per-attachment worker
    ([parse_attachment], [upload_to_datastore], [process_single_attachment]),
    the batch run ([fetch_emails], [process_emails], [send_notification]) and
    the retry loop ([run_with_retry], [main]).

    Python values are modelled as follows.
    - [int] is [Z] (unbounded); [str] is [string].  The strings of the model
      are ASCII text: [lower], [title] and [repr] do what Python does on the
      ASCII characters and leave every other character as it is, and a
      statement that depends on the case mapping says that it is about ASCII
      names ([is_ascii]);
    - a dict used as a record is a Rocq record; a key read with
      [d.get(k, default)] is an [option] field, so that the default of each
      read site is visible;
    - collaborators outside the module (IMAP, the storage bucket, SendGrid,
      the clock, the thread scheduler) are the fields of an environment [Env];
      what the program does to them is recorded in the [World];
    - an exception is a value of [Exn], raised and caught in the monad [M].
      The exceptions that can arise are those of the collaborators (the IMAP
      session, the parser, the bucket, SendGrid), the [ValueError] of
      [ThreadPoolExecutor] and the [OverflowError] and [ValueError] of
      [time.sleep] on an argument out of range; logging, the clock and the
      construction of messages do not raise. *)

From Stdlib Require Import ZArith String Ascii List Lia Bool.
From stdpp Require Import gmap strings list.
Import ListNotations.
Local Open Scope string_scope.
Local Open Scope list_scope.
Local Open Scope Z_scope.

(** ** Strings *)

Module PyStr.

(** [c.lower()] on one ASCII character. *)
Definition lower_ascii (c : ascii) : ascii :=
  let n := nat_of_ascii c in
  if ((65 <=? n)%nat && (n <=? 90)%nat)%bool then ascii_of_nat (n + 32) else c.

Definition upper_ascii (c : ascii) : ascii :=
  let n := nat_of_ascii c in
  if ((97 <=? n)%nat && (n <=? 122)%nat)%bool then ascii_of_nat (n - 32) else c.

Definition is_alpha (c : ascii) : bool :=
  let n := nat_of_ascii c in
  (((65 <=? n)%nat && (n <=? 90)%nat) || ((97 <=? n)%nat && (n <=? 122)%nat))%bool.

(** [s.isascii()] *)
Fixpoint is_ascii (s : string) : bool :=
  match s with
  | EmptyString => true
  | String c s' => (nat_of_ascii c <? 128)%nat && is_ascii s'
  end.

(** [s.lower()] *)
Fixpoint lower (s : string) : string :=
  match s with
  | EmptyString => EmptyString
  | String c s' => String (lower_ascii c) (lower s')
  end.

(** [s.title()]: a letter that follows a non-letter is upper-cased, every
    other letter is lower-cased. *)
Fixpoint title_from (prev_cased : bool) (s : string) : string :=
  match s with
  | EmptyString => EmptyString
  | String c s' =>
      String (if prev_cased then lower_ascii c else upper_ascii c)
             (title_from (is_alpha c) s')
  end.

Definition title (s : string) : string := title_from false s.

(** [sep in s] for a one-character [sep]. *)
Fixpoint contains (sep : ascii) (s : string) : bool :=
  match s with
  | EmptyString => false
  | String c s' => if Ascii.eqb c sep then true else contains sep s'
  end.

(** [s.split(sep)] for a one-character [sep]; the result is never empty. *)
Fixpoint split (sep : ascii) (s : string) : list string :=
  match s with
  | EmptyString => [EmptyString]
  | String c s' =>
      if Ascii.eqb c sep then EmptyString :: split sep s'
      else match split sep s' with
           | [] => [String c EmptyString]
           | w :: ws => String c w :: ws
           end
  end.

(** [l[-1]] on a list known to be non-empty. *)
Definition last_item (l : list string) : string := List.last l EmptyString.

(** Truth value of an optional string ([None] and [''] are falsy). *)
Definition truthy (o : option string) : bool :=
  match o with
  | Some (String _ _) => true
  | _ => false
  end.

Definition hex_digit (n : nat) : ascii :=
  if (n <? 10)%nat then ascii_of_nat (48 + n) else ascii_of_nat (87 + n).

(** One character inside [repr(s)], [quote] being the quote in use. *)
Definition repr_char (quote : ascii) (c : ascii) : string :=
  let n := nat_of_ascii c in
  if (Ascii.eqb c quote || (n =? 92)%nat)%bool
  then String (ascii_of_nat 92) (String c EmptyString)
  else if (n =? 9)%nat then String (ascii_of_nat 92) "t"
  else if (n =? 10)%nat then String (ascii_of_nat 92) "n"
  else if (n =? 13)%nat then String (ascii_of_nat 92) "r"
  else if ((n <? 32)%nat || (n =? 127)%nat)%bool
  then String (ascii_of_nat 92)
         (String "x" (String (hex_digit (n / 16))
                        (String (hex_digit (n mod 16)) EmptyString)))
  else String c EmptyString.

Fixpoint repr_body (quote : ascii) (s : string) : string :=
  match s with
  | EmptyString => EmptyString
  | String c s' => String.append (repr_char quote c) (repr_body quote s')
  end.

(** [repr(s)]: in single quotes, or in double quotes when [s] holds a single
    quote and no double quote. *)
Definition repr (s : string) : string :=
  let quote := if (contains "'" s && negb (contains (ascii_of_nat 34) s))%bool
               then ascii_of_nat 34 else "'"%char in
  String quote (String.append (repr_body quote s) (String quote EmptyString)).

(** The blanks [int] skips around a numeral: the space and the characters
    9 to 13. *)
Definition is_space (c : ascii) : bool :=
  let n := nat_of_ascii c in
  (((9 <=? n)%nat && (n <=? 13)%nat) || (n =? 32)%nat)%bool.

Fixpoint lstrip (s : string) : string :=
  match s with
  | EmptyString => EmptyString
  | String c s' => if is_space c then lstrip s' else s
  end.

Fixpoint rstrip (s : string) : string :=
  match s with
  | EmptyString => EmptyString
  | String c s' =>
      match rstrip s' with
      | EmptyString => if is_space c then EmptyString else String c EmptyString
      | r => String c r
      end
  end.

(** [s] without the blanks at its two ends. *)
Definition strip (s : string) : string := rstrip (lstrip s).

End PyStr.

(** ** Data model *)

(** One attachment dict.  [fetch_emails] and the mock generator always set the
    four keys; the optional fields keep the [.get] defaults of the readers
    visible. *)
Record Attachment := {
  filename : option string;
  size : option Z;
  content_type : option string;
  data : string
}.

(** One email dict. *)
Record Email := {
  email_id : string;
  subject : option string;
  sender : string;
  attachments : list Attachment
}.

(** [self.config], the entries the processing code reads. *)
Record Config := {
  attachment_types : list string;
  max_attachment_size_mb : Z;
  processing_batch_size : Z;
  max_workers : Z;
  retry_attempts : Z;
  retry_delay_seconds : Z;
  email_api_key : option string;
  email_address : option string;
  notification_email : option string;
  enable_notifications : bool
}.

#[global] Instance Attachment_eq_dec : EqDecision Attachment.
Proof. solve_decision. Defined.

(** ** filter_attachments *)

(** [attachment.get('filename', '')] *)
Definition filename_or_empty (a : Attachment) : string :=
  default EmptyString (filename a).

(** [attachment.get('size', 0)] *)
Definition size_or_zero (a : Attachment) : Z := default 0 (size a).

(** [filename.split('.')[-1].lower() if '.' in filename else ''] *)
Definition file_extension (a : Attachment) : string :=
  let fn := filename_or_empty a in
  if PyStr.contains "." fn
  then PyStr.lower (PyStr.last_item (PyStr.split "." fn))
  else EmptyString.

(** [self.config['max_attachment_size_mb'] * 1024 * 1024] *)
Definition max_size_bytes (cfg : Config) : Z :=
  max_attachment_size_mb cfg * 1024 * 1024.

(** The [for] loop of [filter_attachments]; [filtered] is the list built so
    far, each [continue] leaves it as it is. *)
Fixpoint filter_loop (cfg : Config) (atts filtered : list Attachment)
  : list Attachment :=
  match atts with
  | [] => filtered
  | a :: rest =>
      if negb (bool_decide (file_extension a ∈ attachment_types cfg))
      then filter_loop cfg rest filtered
      else if size_or_zero a >? max_size_bytes cfg
      then filter_loop cfg rest filtered
      else filter_loop cfg rest (filtered ++ [a])
  end.

Definition filter_attachments (cfg : Config) (atts : list Attachment)
  : list Attachment :=
  filter_loop cfg atts [].

(** The decision taken for one attachment, as a predicate. *)
Definition accepted (cfg : Config) (a : Attachment) : Prop :=
  file_extension a ∈ attachment_types cfg ∧ size_or_zero a <= max_size_bytes cfg.

#[global] Instance accepted_dec cfg a : Decision (accepted cfg a).
Proof. unfold accepted. apply _. Defined.

(** *** The lists as Python objects

    [filter_attachments] receives a reference to a list object and returns a
    reference to the list it built.  The store maps a reference to the
    contents of the list it names. *)

Definition ref := positive.

Definition store_append (out : ref) (a : Attachment)
  (st : gmap ref (list Attachment)) : gmap ref (list Attachment) :=
  <[out := default [] (st !! out) ++ [a]]> st.

(** The loop, reading the elements of the input object and calling
    [filtered.append] on the output object. *)
Fixpoint filter_loop_store (cfg : Config) (atts : list Attachment) (out : ref)
  (st : gmap ref (list Attachment)) : gmap ref (list Attachment) :=
  match atts with
  | [] => st
  | a :: rest =>
      if negb (bool_decide (file_extension a ∈ attachment_types cfg))
      then filter_loop_store cfg rest out st
      else if size_or_zero a >? max_size_bytes cfg
      then filter_loop_store cfg rest out st
      else filter_loop_store cfg rest out (store_append out a st)
  end.

(** [filtered = []] allocates a fresh object; the call returns its reference.
    A dangling input reference is a Python error, here [None]. *)
Definition filter_attachments_store (cfg : Config) (inp : ref)
  (st : gmap ref (list Attachment)) : option (ref * gmap ref (list Attachment)) :=
  match st !! inp with
  | None => None
  | Some atts =>
      let out := fresh (dom st) in
      Some (out, filter_loop_store cfg atts out (<[out := []]> st))
  end.

(** ** Exceptions, results and the world *)

(** A Python exception: its class and [str(e)]. *)
Record Exn := { exn_class : string; exn_msg : string }.

Inductive Result (A : Type) : Type :=
| Ok (a : A)
| Raise (e : Exn).
Arguments Ok {A} a.
Arguments Raise {A} e.

(** The result dict of [process_single_attachment]. *)
Record Outcome := {
  out_filename : string;
  out_email_subject : string;
  out_success : bool;
  out_error : option string;
  out_processing_time : Z
}.

(** The dict built by [parse_attachment]; it has no ['data'] key. *)
Record Parsed := {
  p_filename : option string;
  p_content_type : option string;
  p_size : option Z;
  p_parsed_at : string
}.

(** One object written to the bucket. *)
Record Blob := {
  blob_path : string;
  blob_content_type : option string;
  blob_original_size : option Z;
  blob_parsed_at : string;
  blob_payload : string
}.

(** The message handed to SendGrid: the subject and the values interpolated
    into [html_content]. *)
Record Mail := {
  mail_from : option string;
  mail_to : option string;
  mail_subject : string;
  mail_status : string;
  mail_total_emails : Z;
  mail_emails_with_attachments : Z;
  mail_total : Z;
  mail_processed : Z;
  mail_failed : Z;
  mail_warning : string
}.

(** The five summary lines logged at the end of a run. *)
Record RunSummary := {
  rs_total_emails : Z;
  rs_emails_with_attachments : Z;
  rs_emails_without_attachments : Z;
  rs_total_attachments : Z;
  rs_processed_attachments : Z
}.

(** Log lines that report the outcome of a run, of an attempt or of a
    collaborator call.  The per-email and per-attachment progress lines are
    not kept. *)
Inductive LogLine :=
| StartingJob
| NoEmailsToProcess
| FetchError (e : Exn)
| ProcessingWithWorkers (n : Z) (workers : Z)
| Completed (fn : string) (seconds : Z)
| Failed (fn : string) (err : option string)
| UnexpectedParallelError (e : Exn)
| NoEmailsContainedAttachments
| ErrorInEmailProcessing (e : Exn)
| SendingNotification
| NotificationSent
| NotificationFailed (code : Z)
| NotificationError (e : Exn)
| ProcessingAttempt (attempt total : Z)
| ProcessingCompletedSuccessfully
| AttemptFailed (attempt : Z) (e : Exn)
| RetryingIn (seconds : Z)
| AllRetryAttemptsFailed
| EmailProcessorFailed (e : Exn).

(** What the program has done to its collaborators so far. *)
Record World := {
  clock : Z;                    (* wall clock, in ticks *)
  fetch_calls : nat;            (* calls of [fetch_emails] *)
  pools_spawned : nat;          (* [ThreadPoolExecutor] instances created *)
  bucket : list Blob;           (* objects uploaded, oldest first *)
  outbox : list Mail;           (* calls of [sg.send] *)
  naps : list Z;                (* calls of [time.sleep] *)
  reports : list RunSummary;    (* summaries logged *)
  journal : list LogLine        (* the other log lines *)
}.

(** The collaborators. *)
Record Env := {
  (* the IMAP session of the [n]-th fetch: the messages found, or the
     exception raised somewhere inside the [try] block *)
  imap_session : nat -> Exn + list Email;
  (* [int(os.getenv('PROCESSING_BATCH_SIZE', '10'))], [None] when unset *)
  batch_size_env : option Z;
  (* an exception raised inside [parse_attachment] *)
  parse_fault : Attachment -> option Exn;
  (* an exception raised by the bucket for this path, given what it holds *)
  gcs_fault : string -> list Blob -> option Exn;
  (* ticks taken by the upload call *)
  gcs_latency : string -> Z;
  (* [sg.send]: an exception or the HTTP status code *)
  sendgrid_send : Mail -> Exn + Z;
  (* which of the running tasks finishes next, given their identifiers *)
  scheduler : list nat -> nat;
  (* which of the futures not yet yielded [as_completed] yields next *)
  yield_order : list nat -> nat;
  (* the longest sleep, in seconds, that the clock of the platform can
     represent *)
  sleep_limit : Z;
  (* [strftime('%Y/%m/%d')] and [isoformat()] of the clock *)
  date_path : Z -> string;
  isoformat : Z -> string;
  ticks_per_second : Z
}.

(** ** The monad of the program: state and exceptions *)

Definition M (A : Type) : Type := World -> Result A * World.

Definition ret {A} (a : A) : M A := fun w => (Ok a, w).

Definition bind {A B} (c : M A) (k : A -> M B) : M B :=
  fun w =>
    match c w with
    | (Ok a, w') => k a w'
    | (Raise e, w') => (Raise e, w')
    end.

Definition raise {A} (e : Exn) : M A := fun w => (Raise e, w).

(** [try: c  except Exception as e: h e] *)
Definition try_except {A} (c : M A) (h : Exn -> M A) : M A :=
  fun w =>
    match c w with
    | (Ok a, w') => (Ok a, w')
    | (Raise e, w') => h e w'
    end.

(** Runs [c] and hands its result or its exception over as a value, as a
    future does. *)
Definition attempt {A} (c : M A) : M (Result A) :=
  fun w => let '(r, w') := c w in (Ok r, w').

Notation "x <- c ;; k" := (bind c (fun x => k))
  (at level 62, c at next level, right associativity).
Notation "c ;;; k" := (bind c (fun _ => k))
  (at level 62, right associativity).

(** *** Primitive actions *)

Definition set_clock (t : Z) (w : World) : World :=
  {| clock := t; fetch_calls := fetch_calls w; pools_spawned := pools_spawned w;
     bucket := bucket w; outbox := outbox w; naps := naps w;
     reports := reports w; journal := journal w |}.

Definition count_fetch (w : World) : World :=
  {| clock := clock w; fetch_calls := S (fetch_calls w);
     pools_spawned := pools_spawned w; bucket := bucket w; outbox := outbox w;
     naps := naps w; reports := reports w; journal := journal w |}.

Definition count_pool (w : World) : World :=
  {| clock := clock w; fetch_calls := fetch_calls w;
     pools_spawned := S (pools_spawned w); bucket := bucket w;
     outbox := outbox w; naps := naps w; reports := reports w;
     journal := journal w |}.

Definition put_blob (b : Blob) (w : World) : World :=
  {| clock := clock w; fetch_calls := fetch_calls w;
     pools_spawned := pools_spawned w; bucket := bucket w ++ [b];
     outbox := outbox w; naps := naps w; reports := reports w;
     journal := journal w |}.

Definition post_mail (m : Mail) (w : World) : World :=
  {| clock := clock w; fetch_calls := fetch_calls w;
     pools_spawned := pools_spawned w; bucket := bucket w;
     outbox := outbox w ++ [m]; naps := naps w; reports := reports w;
     journal := journal w |}.

Definition take_nap (d : Z) (w : World) : World :=
  {| clock := clock w; fetch_calls := fetch_calls w;
     pools_spawned := pools_spawned w; bucket := bucket w; outbox := outbox w;
     naps := naps w ++ [d]; reports := reports w; journal := journal w |}.

Definition add_report (s : RunSummary) (w : World) : World :=
  {| clock := clock w; fetch_calls := fetch_calls w;
     pools_spawned := pools_spawned w; bucket := bucket w; outbox := outbox w;
     naps := naps w; reports := reports w ++ [s]; journal := journal w |}.

Definition add_line (l : LogLine) (w : World) : World :=
  {| clock := clock w; fetch_calls := fetch_calls w;
     pools_spawned := pools_spawned w; bucket := bucket w; outbox := outbox w;
     naps := naps w; reports := reports w; journal := journal w ++ [l] |}.

Definition act (f : World -> World) : M unit := fun w => (Ok tt, f w).

(** [self.logger.info/warning/error] *)
Definition logger (l : LogLine) : M unit := act (add_line l).

(** [time.time()] *)
Definition time_time : M Z := fun w => (Ok (clock w), w).

(** [time.sleep(d)] for an [int] [d].  The length is first converted to the
    clock's unit: one that does not fit, in either direction, is an
    [OverflowError].  A negative length is then a [ValueError]. *)
Definition time_sleep (env : Env) (d : Z) : M unit :=
  if (d <? - sleep_limit env) || (sleep_limit env <? d)
  then raise {| exn_class := "OverflowError";
                exn_msg := "timestamp too large to convert to C _PyTime_t" |}
  else if d <? 0
  then raise {| exn_class := "ValueError";
                exn_msg := "sleep length must be non-negative" |}
  else fun w => (Ok tt, set_clock (clock w + d * ticks_per_second env) (take_nap d w)).

(** ** Mock data ([src/src/demo_mock_data.py]) *)

Definition mock_attachment (fn : string) (sz : Z) (ct : string) : Attachment :=
  {| filename := Some fn; size := Some sz; content_type := Some ct;
     data := "base64" |}.

Definition mock_email (id subj from : string) (atts : list Attachment) : Email :=
  {| email_id := id; subject := Some subj; sender := from; attachments := atts |}.

Definition xlsx_type : string :=
  "application/vnd.openxmlformats-officedocument.spreadsheetml.sheet".
Definition docx_type : string :=
  "application/vnd.openxmlformats-officedocument.wordprocessingml.document".

(** [MockDataGenerator.generate_sample_emails()] *)
Definition generate_sample_emails : list Email :=
  [ mock_email "email_001" "Monthly Financial Report - January 2024"
      "finance@company.com"
      [ mock_attachment "monthly_financial_report.pdf" 2048576 "application/pdf";
        mock_attachment "budget_analysis.xlsx" 1024000 xlsx_type ];
    mock_email "email_002" "Invoice #INV-2024-001" "billing@vendor.com"
      [ mock_attachment "invoice_INV-2024-001.pdf" 512000 "application/pdf" ];
    mock_email "email_003" "Contract Documents for Review" "legal@lawfirm.com"
      [ mock_attachment "service_agreement.docx" 1536000 docx_type;
        mock_attachment "terms_and_conditions.txt" 25600 "text/plain" ];
    mock_email "email_004" "Customer Data Export" "data@company.com"
      [ mock_attachment "customer_data_export.csv" 3072000 "text/csv" ];
    mock_email "email_005" "Project Documentation" "project@company.com"
      [ mock_attachment "project_specification.pdf" 4096000 "application/pdf";
        mock_attachment "timeline.xlsx" 512000 xlsx_type;
        mock_attachment "requirements.docx" 768000 docx_type ];
    mock_email "email_006" "System Logs - Error Analysis" "system@company.com"
      [ mock_attachment "error_logs.txt" 102400 "text/plain" ] ].

(** [MockDataGenerator.generate_unsupported_file_type_email()] *)
Definition generate_unsupported_file_type_email : Email :=
  mock_email "email_unsupported" "Unsupported File Types" "test@company.com"
    [ mock_attachment "image.png" 1024000 "image/png";
      mock_attachment "video.mp4" 2048000 "video/mp4" ].

(** The defaults of [load_config] for the processing entries
    ([ATTACHMENT_TYPES], [MAX_ATTACHMENT_SIZE_MB], ...), with a notification
    address and an API key set. *)
Definition default_config : Config :=
  {| attachment_types := ["pdf"; "doc"; "docx"; "txt"; "csv"; "xlsx"];
     max_attachment_size_mb := 25;
     processing_batch_size := 5;
     max_workers := 4;
     retry_attempts := 3;
     retry_delay_seconds := 30;
     email_api_key := Some "SG.key";
     email_address := Some "robot@example.com";
     notification_email := Some "ops@example.com";
     enable_notifications := true |}.

(** ** fetch_emails *)

(** [ids[:n]], taken when [len(ids) > n]; a negative [n] counts from the end. *)
Definition limit_batch {A} (n : Z) (ids : list A) : list A :=
  if Z.of_nat (length ids) >? n
  then (if n <? 0 then take (Z.to_nat (Z.of_nat (length ids) + n)) ids
        else take (Z.to_nat n) ids)
  else ids.

(** [if attachments: emails.append(...)] *)
Definition has_attachments (e : Email) : bool :=
  match attachments e with [] => false | _ :: _ => true end.

(** The list the Gmail branch returns once the session has produced
    [found]: at most the batch size, and only the messages with attachments. *)
Definition gmail_emails (env : Env) (found : list Email) : list Email :=
  List.filter has_attachments (limit_batch (default 10 (batch_size_env env)) found).

Definition fetch_emails (env : Env) (use_mock : bool) : M (list Email) :=
  act count_fetch ;;;
  if use_mock then ret generate_sample_emails
  else
    try_except
      (fun w =>
         match imap_session env (Nat.pred (fetch_calls w)) with
         | inl e => (Raise e, w)
         | inr found => (Ok (gmail_emails env found), w)
         end)
      (fun e => logger (FetchError e) ;;; ret []).

(** ** The worker *)

Definition parse_attachment (env : Env) (a : Attachment) : M Parsed :=
  match parse_fault env a with
  | Some e => raise e
  | None =>
      now <- time_time ;;
      ret {| p_filename := filename a; p_content_type := content_type a;
             p_size := size a; p_parsed_at := isoformat env now |}
  end.

(** The bucket call inside the [try] of [upload_to_datastore]: it takes its
    time and then either stores the object or raises. *)
Definition blob_upload (env : Env) (b : Blob) : M unit :=
  fun w =>
    let w' := set_clock (clock w + gcs_latency env (blob_path b)) w in
    match gcs_fault env (blob_path b) (bucket w) with
    | Some e => (Raise e, w')
    | None => (Ok tt, put_blob b w')
    end.

(** The key [data] is absent from the parsed dict, so the payload is
    [base64.b64decode('')]; [f"{current_date}/{filename}"] prints a missing
    name as [None]. *)
Definition upload_to_datastore (env : Env) (parsed : Parsed) : M bool :=
  try_except
    (now <- time_time ;;
     let path := String.append (date_path env now)
                   (String.append "/" (default "None" (p_filename parsed))) in
     blob_upload env {| blob_path := path;
                        blob_content_type := p_content_type parsed;
                        blob_original_size := p_size parsed;
                        blob_parsed_at := p_parsed_at parsed;
                        blob_payload := EmptyString |} ;;;
     ret true)
    (fun _ => ret false).

Definition with_success (r : Outcome) : Outcome :=
  {| out_filename := out_filename r; out_email_subject := out_email_subject r;
     out_success := true; out_error := out_error r;
     out_processing_time := out_processing_time r |}.

Definition with_error (r : Outcome) (msg : string) : Outcome :=
  {| out_filename := out_filename r; out_email_subject := out_email_subject r;
     out_success := out_success r; out_error := Some msg;
     out_processing_time := out_processing_time r |}.

Definition with_processing_time (r : Outcome) (t : Z) : Outcome :=
  {| out_filename := out_filename r; out_email_subject := out_email_subject r;
     out_success := out_success r; out_error := out_error r;
     out_processing_time := t |}.

Definition process_single_attachment (env : Env) (a : Attachment)
  (email_subject : string) : M Outcome :=
  let result := {| out_filename := default "unknown" (filename a);
                   out_email_subject := email_subject;
                   out_success := false; out_error := None;
                   out_processing_time := 0 |} in
  start_time <- time_time ;;
  result' <- try_except
               (parsed_attachment <- parse_attachment env a ;;
                uploaded <- upload_to_datastore env parsed_attachment ;;
                if uploaded : bool then ret (with_success result)
                else ret (with_error result "Upload failed"))
               (fun e => ret (with_error result (exn_msg e))) ;;
  end_time <- time_time ;;
  ret (with_processing_time result' (end_time - start_time)).

(** ** The batch run *)

(** One entry of [all_attachments]. *)
Record WorkItem := {
  item_attachment : Attachment;
  item_email_subject : string
}.

(** A submitted task: its position in the submission order and its item. *)
Record Future := {
  fut_id : nat;
  fut_item : WorkItem
}.

(** [email.get('subject', 'No Subject')] *)
Definition subject_or_default (e : Email) : string :=
  default "No Subject" (subject e).

(** The loop over the emails: the number of emails with attachments, the
    number of attachments kept by the filter, and the work list. *)
Fixpoint collect_work (cfg : Config) (emails : list Email)
  (emails_with_attachments total_attachments : Z) (all_attachments : list WorkItem)
  : Z * Z * list WorkItem :=
  match emails with
  | [] => (emails_with_attachments, total_attachments, all_attachments)
  | email :: rest =>
      match attachments email with
      | [] => collect_work cfg rest emails_with_attachments total_attachments
                all_attachments
      | _ :: _ =>
          let filtered_attachments := filter_attachments cfg (attachments email) in
          collect_work cfg rest
            (emails_with_attachments + 1)
            (total_attachments + Z.of_nat (length filtered_attachments))
            (all_attachments ++
               map (fun a => {| item_attachment := a;
                                item_email_subject := subject_or_default email |})
                   filtered_attachments)
      end
  end.

(** [executor.submit] for every item, in order. *)
Definition submit_all (items : list WorkItem) : list Future :=
  imap (fun i it => {| fut_id := i; fut_item := it |}) items.

(** The pool at work: the futures in the order in which their tasks finish,
    each with the value or the exception it holds.  Tasks are started in
    submission order, at most [workers] at a time, so the running ones are
    the first [workers] unfinished futures; the scheduler picks the one that
    finishes next.  The effects of a task on the world are taken to happen as
    a whole when it finishes. *)
Fixpoint run_tasks (env : Env) (workers : nat) (fuel : nat)
  (pending : list Future) : M (list (Future * Result Outcome)) :=
  match fuel with
  | O => ret []
  | S fuel' =>
      let running := take workers pending in
      let i := (scheduler env (map fut_id running) mod length running)%nat in
      match running !! i with
      | None => ret []
      | Some fut =>
          r <- attempt (process_single_attachment env
                          (item_attachment (fut_item fut))
                          (item_email_subject (fut_item fut))) ;;
          rest <- run_tasks env workers fuel' (delete i pending) ;;
          ret ((fut, r) :: rest)
      end
  end.

(** The order in which [as_completed] hands the futures over.  It is not the
    order of submission and need not be the order in which the tasks
    finished: the futures that are finished when [as_completed] is called
    come first, in the iteration order of a set, the others as they finish.
    [yield_order] picks the next one among those not yet handed over. *)
Fixpoint yield_all (env : Env) (fuel : nat)
  (finished : list (Future * Result Outcome)) : list (Future * Result Outcome) :=
  match fuel with
  | O => []
  | S fuel' =>
      let i := (yield_order env (map (fun d => fut_id (fst d)) finished)
                mod length finished)%nat in
      match finished !! i with
      | None => []
      | Some d => d :: yield_all env fuel' (delete i finished)
      end
  end.

(** [as_completed(future_to_attachment)], run to its end: every submitted
    future, each with the value or the exception it holds.  The body of the
    loop only counts and logs its result lines, and none of the lines a task
    logs is kept in the journal, so the loop is run after the tasks. *)
Definition as_completed (env : Env) (workers : nat) (fuel : nat)
  (pending : list Future) : M (list (Future * Result Outcome)) :=
  finished <- run_tasks env workers fuel pending ;;
  ret (yield_all env (length finished) finished).

(** The body of [for future in as_completed(...)], folded over the futures
    in the order they are yielded; the result is [processed_attachments]. *)
Fixpoint collect_results (done : list (Future * Result Outcome))
  (processed_attachments : Z) : M Z :=
  match done with
  | [] => ret processed_attachments
  | (_, Ok result) :: rest =>
      if out_success result
      then logger (Completed (out_filename result) (out_processing_time result)) ;;;
           collect_results rest (processed_attachments + 1)
      else logger (Failed (out_filename result) (out_error result)) ;;;
           collect_results rest processed_attachments
  | (_, Raise e) :: rest =>
      logger (UnexpectedParallelError e) ;;;
      collect_results rest processed_attachments
  end.

(** [with ThreadPoolExecutor(max_workers=...) as executor: ...] *)
Definition run_executor (env : Env) (cfg : Config) (all_attachments : list WorkItem)
  : M (list (Future * Result Outcome)) :=
  if max_workers cfg <=? 0
  then raise {| exn_class := "ValueError";
                exn_msg := "max_workers must be greater than 0" |}
  else
    act count_pool ;;;
    as_completed env (Z.to_nat (max_workers cfg)) (length all_attachments)
      (submit_all all_attachments).

Definition dquote : string := String (ascii_of_nat 34) EmptyString.

(** The paragraph added to the report when [warning] holds. *)
Definition warning_paragraph : string :=
  String.concat dquote
    [ "<p style="; "color: red;";
      "><strong>Warning:</strong> No attachments found in any emails.</p>" ].

(** ** send_notification *)

Definition report_mail (cfg : Config)
  (processed total emails_with_attachments total_emails : Z) : Mail :=
  let status := if processed =? total then "success" else "partial" in
  let warning := (total_emails >? 0) && (emails_with_attachments =? 0) in
  {| mail_from := email_address cfg;
     mail_to := notification_email cfg;
     mail_subject := String.append "Email Processor Report - " (PyStr.title status);
     mail_status := status;
     mail_total_emails := total_emails;
     mail_emails_with_attachments := emails_with_attachments;
     mail_total := total;
     mail_processed := processed;
     mail_failed := total - processed;
     mail_warning := if warning then warning_paragraph else EmptyString |}.

(** [response = sg.send(message)] *)
Definition sg_send (env : Env) (m : Mail) : M Z :=
  fun w =>
    match sendgrid_send env m with
    | inl e => (Raise e, post_mail m w)
    | inr code => (Ok code, post_mail m w)
    end.

Definition send_notification (env : Env) (cfg : Config)
  (processed total emails_with_attachments total_emails : Z) : M unit :=
  if negb (PyStr.truthy (notification_email cfg))
     || negb (PyStr.truthy (email_api_key cfg))
  then ret tt
  else
    logger SendingNotification ;;;
    try_except
      (response <- sg_send env
                     (report_mail cfg processed total emails_with_attachments
                        total_emails) ;;
       if response =? 202 then logger NotificationSent
       else logger (NotificationFailed response))
      (fun e => logger (NotificationError e)).

(** ** process_emails *)

(** The block [if all_attachments: ...]; its value is
    [processed_attachments] after it. *)
Definition process_in_parallel (env : Env) (cfg : Config)
  (all_attachments : list WorkItem) : M Z :=
  match all_attachments with
  | [] => ret 0
  | _ :: _ =>
      logger (ProcessingWithWorkers (Z.of_nat (length all_attachments))
                (max_workers cfg)) ;;;
      done <- run_executor env cfg all_attachments ;;
      collect_results done 0
  end.

(** The [try] block after the fetch. *)
Definition process_fetched (env : Env) (cfg : Config) (emails : list Email)
  : M unit :=
  match emails with
  | [] => logger NoEmailsToProcess ;;; ret tt
  | _ :: _ =>
      let total_emails := Z.of_nat (length emails) in
      let '(emails_with_attachments, total_attachments, all_attachments) :=
        collect_work cfg emails 0 0 [] in
      processed_attachments <- process_in_parallel env cfg all_attachments ;;
      act (add_report
             {| rs_total_emails := total_emails;
                rs_emails_with_attachments := emails_with_attachments;
                rs_emails_without_attachments :=
                  total_emails - emails_with_attachments;
                rs_total_attachments := total_attachments;
                rs_processed_attachments := processed_attachments |}) ;;;
      (if (total_emails >? 0) && (emails_with_attachments =? 0)
       then logger NoEmailsContainedAttachments else ret tt) ;;;
      if enable_notifications cfg
      then send_notification env cfg processed_attachments total_attachments
             emails_with_attachments total_emails
      else ret tt
  end.

Definition process_emails (env : Env) (cfg : Config) (test_mode : bool) : M unit :=
  logger StartingJob ;;;
  try_except
    (emails <- fetch_emails env test_mode ;;
     process_fetched env cfg emails)
    (fun e => logger (ErrorInEmailProcessing e) ;;; raise e).

(** ** run_with_retry *)

(** The iterations of [for attempt in range(1, retry_attempts + 1)] that are
    left, [attempt] being the next value of the loop variable.  Leaving the
    loop without [return] or [raise] returns [None]. *)
Fixpoint retry_loop (env : Env) (cfg : Config) (left : nat) (attempt_no : Z)
  : M unit :=
  match left with
  | O => ret tt
  | S left' =>
      logger (ProcessingAttempt attempt_no (retry_attempts cfg)) ;;;
      r <- attempt (process_emails env cfg false) ;;
      match r with
      | Ok _ => logger ProcessingCompletedSuccessfully ;;; ret tt
      | Raise e =>
          logger (AttemptFailed attempt_no e) ;;;
          if attempt_no <? retry_attempts cfg
          then logger (RetryingIn (retry_delay_seconds cfg)) ;;;
               time_sleep env (retry_delay_seconds cfg) ;;;
               retry_loop env cfg left' (attempt_no + 1)
          else logger AllRetryAttemptsFailed ;;; raise e
      end
  end.

Definition run_with_retry (env : Env) (cfg : Config) : M unit :=
  retry_loop env cfg (Z.to_nat (retry_attempts cfg)) 1.

(** ** main *)

(** How [EmailProcessor()] ends: with a processor, with an exception (a
    configuration value that is not an integer, a storage client that cannot
    be created), or with [sys.exit(1)] from [load_config] when a required
    entry is missing. *)
Inductive Startup :=
| Constructed (cfg : Config)
| StartupRaised (e : Exn)
| StartupExit (code : Z).

(** The exit status of the process: [0] when [main] returns. *)
Definition main (env : Env) (startup : Startup) (w : World) : Z * World :=
  match startup with
  | StartupExit code => (code, w)
  | StartupRaised e => (1, add_line (EmailProcessorFailed e) w)
  | Constructed cfg =>
      match run_with_retry env cfg w with
      | (Ok _, w') => (0, w')
      | (Raise e, w') => (1, add_line (EmailProcessorFailed e) w')
      end
  end.

(** ** Start-up: [__init__], [setup_logging], [load_config], [setup_session] *)

(** What the start-up code asks of the interpreter and of the libraries. *)
Record Host := {
  (* [int(s)]; [None] stands for its [ValueError] *)
  py_int : string → option Z;
  (* an exception of [setup_logging]: [getattr(logging, level)] for a name
     that is no level, a log file that cannot be opened *)
  logging_fault : gmap string string → option Exn;
  (* an exception raised while the credentials path is exported and the
     storage client and the bucket object are created, given the credentials
     file, the project and the bucket name *)
  storage_fault : string → option string → option string → option Exn
}.

(** [os.getenv(k, d)]: the default only replaces an unset variable. *)
Definition getenv_or (environ : gmap string string) (k d : string) : string :=
  default d (environ !! k).

(** [int(os.getenv(k, d))] *)
Definition int_setting (host : Host) (environ : gmap string string)
  (k d : string) : Result Z :=
  match py_int host (getenv_or environ k d) with
  | Some n => Ok n
  | None =>
      Raise {| exn_class := "ValueError";
               exn_msg := String.append "invalid literal for int() with base 10: "
                            (PyStr.repr (getenv_or environ k d)) |}
  end.

Definition and_then {A B} (r : Result A) (k : A → Result B) : Result B :=
  match r with
  | Ok a => k a
  | Raise e => Raise e
  end.

(** The dict literal of [load_config], its entries evaluated in order; the
    entries the processing code does not read are left out of [Config]. *)
Definition config_dict (host : Host) (environ : gmap string string)
  : Result Config :=
  and_then (int_setting host environ "IMAP_PORT" "993") (fun _ =>
  and_then (int_setting host environ "MAX_ATTACHMENT_SIZE_MB" "25") (fun size_mb =>
  and_then (int_setting host environ "PROCESSING_BATCH_SIZE" "5") (fun batch =>
  and_then (int_setting host environ "MAX_WORKERS" "4") (fun workers =>
  and_then (int_setting host environ "RETRY_ATTEMPTS" "3") (fun attempts =>
  and_then (int_setting host environ "RETRY_DELAY_SECONDS" "30") (fun delay =>
  Ok {| attachment_types :=
          PyStr.split "," (getenv_or environ "ATTACHMENT_TYPES"
                             "pdf,doc,docx,txt,csv,xlsx");
        max_attachment_size_mb := size_mb;
        processing_batch_size := batch;
        max_workers := workers;
        retry_attempts := attempts;
        retry_delay_seconds := delay;
        email_api_key := environ !! "EMAIL_API_KEY";
        email_address := environ !! "EMAIL_ADDRESS";
        notification_email := environ !! "NOTIFICATION_EMAIL";
        enable_notifications :=
          String.eqb (PyStr.lower (getenv_or environ "ENABLE_NOTIFICATIONS" "true"))
                     "true" |})))))).

(** [if self.config['datastore_type'] == 'GCS': ...]; assigning [None] to an
    entry of [os.environ] is a [TypeError]. *)
Definition init_storage (host : Host) (environ : gmap string string)
  : option Exn :=
  match environ !! "DATASTORE_TYPE" with
  | Some t =>
      if String.eqb t "GCS"
      then match environ !! "DATASTORE_CREDENTIALS_FILE" with
           | None => Some {| exn_class := "TypeError";
                             exn_msg := "str expected, not NoneType" |}
           | Some credentials =>
               storage_fault host credentials
                 (environ !! "DATASTORE_PROJECT_ID")
                 (environ !! "DATASTORE_BUCKET")
           end
      else None
  | None => None
  end.

(** [required_fields], by the variable each entry is read from. *)
Definition required_settings : list string :=
  [ "EMAIL_API_KEY"; "EMAIL_ADDRESS"; "EMAIL_PASSWORD"; "IMAP_SERVER";
    "DATASTORE_BUCKET"; "DATASTORE_PROJECT_ID"; "DATASTORE_CREDENTIALS_FILE" ].

(** [[field for field in required_fields if not self.config[field]]] *)
Definition missing_fields (environ : gmap string string) : list string :=
  List.filter (fun k => negb (PyStr.truthy (environ !! k))) required_settings.

Definition load_config (host : Host) (environ : gmap string string) : Startup :=
  match config_dict host environ with
  | Raise e => StartupRaised e
  | Ok cfg =>
      match init_storage host environ with
      | Some e => StartupRaised e
      | None =>
          match missing_fields environ with
          | [] => Constructed cfg
          | _ :: _ => StartupExit 1
          end
      end
  end.

(** [EmailProcessor()]: [setup_logging], then [load_config]; creating and
    setting up the HTTP session does not raise. *)
Definition EmailProcessor_init (host : Host) (environ : gmap string string)
  : Startup :=
  match logging_fault host environ with
  | Some e => StartupRaised e
  | None => load_config host environ
  end.

(** The process from its environment: [main()] with the constructor it
    calls; [environ] is [os.environ] once [load_dotenv] has run. *)
Definition main_process (env : Env) (host : Host)
  (environ : gmap string string) (w : World) : Z * World :=
  main env (EmailProcessor_init host environ) w.

(** The settings [load_config] converts with [int], each with its default. *)
Definition int_settings : list (string * string) :=
  [ ("IMAP_PORT", "993"); ("MAX_ATTACHMENT_SIZE_MB", "25");
    ("PROCESSING_BATCH_SIZE", "5"); ("MAX_WORKERS", "4");
    ("RETRY_ATTEMPTS", "3"); ("RETRY_DELAY_SECONDS", "30") ].

(** ** Vocabulary of the statements *)

(** The list [fetch_emails] returns at its [n]-th call (counted from 0). *)
Definition fetched (env : Env) (use_mock : bool) (n : nat) : list Email :=
  if use_mock then generate_sample_emails
  else match imap_session env n with
       | inl _ => []
       | inr found => gmail_emails env found
       end.

(** The blob path used for an attachment uploaded when the clock shows [t]. *)
Definition upload_path (env : Env) (a : Attachment) (t : Z) : string :=
  String.append (date_path env t) (String.append "/" (default "None" (filename a))).

(** The number of attachments carried by a batch, before any filtering. *)
Definition attachments_seen (emails : list Email) : Z :=
  Z.of_nat (length (concat (map attachments emails))).

(** The work list of a batch and its two counters. *)
Definition work_list (cfg : Config) (emails : list Email) : list WorkItem :=
  snd (collect_work cfg emails 0 0 []).
Definition emails_with_attachments_of (cfg : Config) (emails : list Email) : Z :=
  fst (fst (collect_work cfg emails 0 0 [])).
Definition total_attachments_of (cfg : Config) (emails : list Email) : Z :=
  snd (fst (collect_work cfg emails 0 0 [])).

(** Notifications are switched on and have an address and an API key. *)
Definition notifications_configured (cfg : Config) : Prop :=
  enable_notifications cfg = true
  ∧ PyStr.truthy (notification_email cfg) = true
  ∧ PyStr.truthy (email_api_key cfg) = true.

(** What the collection loop does with one finished future: the line it logs
    and whether it counts it as processed. *)
Definition result_line (d : Future * Result Outcome) : LogLine :=
  match snd d with
  | Ok result =>
      if out_success result
      then Completed (out_filename result) (out_processing_time result)
      else Failed (out_filename result) (out_error result)
  | Raise e => UnexpectedParallelError e
  end.

Definition counted (d : Future * Result Outcome) : bool :=
  match snd d with
  | Ok result => out_success result
  | Raise _ => false
  end.

Definition add_lines (ls : list LogLine) (w : World) : World :=
  fold_left (fun w l => add_line l w) ls w.

(** The future holds an outcome for the item it was submitted with. *)
Definition holds_outcome (d : Future * Result Outcome) : Prop :=
  ∃ o, snd d = Ok o
       ∧ out_filename o
         = default "unknown" (filename (item_attachment (fut_item (fst d))))
       ∧ out_email_subject o = item_email_subject (fut_item (fst d)).

(** What the future holds is what a call of [process_single_attachment] on
    its own attachment and subject returned or raised. *)
Definition worker_result (env : Env) (d : Future * Result Outcome) : Prop :=
  ∃ w0, fst (process_single_attachment env
               (item_attachment (fut_item (fst d)))
               (item_email_subject (fut_item (fst d))) w0) = snd d.

(** The world after a call of [fetch_emails]. *)
Definition after_fetch (env : Env) (use_mock : bool) (w : World) : World :=
  if use_mock then count_fetch w
  else match imap_session env (fetch_calls w) with
       | inl e => add_line (FetchError e) (count_fetch w)
       | inr _ => count_fetch w
       end.

(** The line logged after [sg.send]. *)
Definition send_line (env : Env) (m : Mail) : LogLine :=
  match sendgrid_send env m with
  | inl e => NotificationError e
  | inr code => if code =? 202 then NotificationSent else NotificationFailed code
  end.

(** The counters of a summary are in order. *)
Definition counters_in_order (seen : Z) (s : RunSummary) : Prop :=
  0 <= rs_processed_attachments s
  ∧ rs_processed_attachments s <= rs_total_attachments s
  ∧ rs_total_attachments s <= seen.

(** The items of a batch that pass the filter, email by email. *)
Definition eligible_items (cfg : Config) (emails : list Email) : list WorkItem :=
  concat (map (fun e =>
                 map (fun a => {| item_attachment := a;
                                  item_email_subject := subject_or_default e |})
                     (filter_attachments cfg (attachments e)))
              emails).

(** The summary logged for a batch of which [processed] attachments went
    through. *)
Definition summary_of (cfg : Config) (emails : list Email) (processed : Z)
  : RunSummary :=
  {| rs_total_emails := Z.of_nat (length emails);
     rs_emails_with_attachments := emails_with_attachments_of cfg emails;
     rs_emails_without_attachments :=
       Z.of_nat (length emails) - emails_with_attachments_of cfg emails;
     rs_total_attachments := total_attachments_of cfg emails;
     rs_processed_attachments := processed |}.

(** The condition under which the run warns that no email had attachments. *)
Definition no_attachments_anywhere (cfg : Config) (emails : list Email) : bool :=
  (Z.of_nat (length emails) >? 0) && (emails_with_attachments_of cfg emails =? 0).

(** The blob the worker writes for attachment [a] when the clock shows [t]:
    the metadata of the attachment and an empty payload. *)
Definition blob_of (env : Env) (a : Attachment) (t : Z) : Blob :=
  {| blob_path := upload_path env a t;
     blob_content_type := content_type a;
     blob_original_size := size a;
     blob_parsed_at := isoformat env t;
     blob_payload := EmptyString |}.

(** Notifications are switched on and have an address and an API key, as a
    boolean. *)
Definition notifications_on (cfg : Config) : bool :=
  enable_notifications cfg && PyStr.truthy (notification_email cfg)
  && PyStr.truthy (email_api_key cfg).

(** The mail a run sends for a batch of which [processed] attachments went
    through. *)
Definition mail_of (cfg : Config) (emails : list Email) (processed : Z) : Mail :=
  report_mail cfg processed (total_attachments_of cfg emails)
    (emails_with_attachments_of cfg emails) (Z.of_nat (length emails)).

(** The exception of an executor created without a worker. *)
Definition no_worker_error : Exn :=
  {| exn_class := "ValueError"; exn_msg := "max_workers must be greater than 0" |}.

(** An action leaves a component of the world as it found it. *)
Definition preserves {A X} (f : World → X) (c : M A) : Prop :=
  ∀ w, f (snd (c w)) = f w.

(** [time.sleep] takes the length [d]: it is not negative and the clock of
    the platform can represent it. *)
Definition sleep_accepts (env : Env) (d : Z) : Prop :=
  0 <= d ∧ d <= sleep_limit env.

(** The run of [process_emails] that makes the [n]-th fetch ends with an
    exception, or ends normally. *)
Definition attempt_faults (env : Env) (cfg : Config) (n : nat) : Prop :=
  ∀ w, fetch_calls w = n →
    ∃ e w', process_emails env cfg false w = (Raise e, w').
Definition attempt_succeeds (env : Env) (cfg : Config) (n : nat) : Prop :=
  ∀ w, fetch_calls w = n →
    ∃ w', process_emails env cfg false w = (Ok tt, w').

(** ** Sample configurations, attachments and worlds *)

(** [ATTACHMENT_TYPES=pdf,] read by [load_config]: [split(',')] leaves an
    empty entry after the trailing comma. *)
Definition trailing_comma_config : Config :=
  {| attachment_types := ["pdf"; EmptyString];
     max_attachment_size_mb := 25;
     processing_batch_size := 5;
     max_workers := 4;
     retry_attempts := 3;
     retry_delay_seconds := 30;
     email_api_key := Some "SG.key";
     email_address := Some "robot@example.com";
     notification_email := Some "ops@example.com";
     enable_notifications := true |}.

Definition readme_attachment : Attachment :=
  mock_attachment "README" 10 "text/plain".

(** A PDF of exactly 25 MiB, and one byte more. *)
Definition ceiling_attachment : Attachment :=
  mock_attachment "scan.PDF" 26214400 "application/pdf".
Definition oversize_attachment : Attachment :=
  mock_attachment "scan.pdf" 26214401 "application/pdf".

Definition sample_store : gmap ref (list Attachment) :=
  {[ 1%positive := [ceiling_attachment; readme_attachment; oversize_attachment;
                    mock_attachment "notes.txt" 12 "text/plain"] ]}.

Definition empty_world : World :=
  {| clock := 0; fetch_calls := 0; pools_spawned := 0; bucket := [];
     outbox := []; naps := []; reports := []; journal := [] |}.

(** Collaborators that work: the given IMAP sessions and bucket faults, no
    parse fault, SendGrid answering 202, the first running task finishing
    first and the futures yielded in that order, and the clock of CPython,
    which counts nanoseconds in 64 bits. *)
Definition make_env (session : nat → Exn + list Email)
  (fault : string → list Blob → option Exn) : Env :=
  {| imap_session := session;
     batch_size_env := None;
     parse_fault := fun _ => None;
     gcs_fault := fault;
     gcs_latency := fun _ => 7;
     sendgrid_send := fun _ => inr 202;
     scheduler := fun _ => 0%nat;
     yield_order := fun _ => 0%nat;
     sleep_limit := 9223372036;
     date_path := fun _ => "2024/01/15";
     isoformat := fun _ => "2024-01-15T10:30:00";
     ticks_per_second := 1000 |}.

(** An inbox without unread mail. *)
Definition quiet_env : Env := make_env (fun _ => inr []) (fun _ _ => None).

Definition imap_down : Exn :=
  {| exn_class := "ConnectionRefusedError"; exn_msg := "Connection refused" |}.

(** A mail server that cannot be reached. *)
Definition unreachable_mail_env : Env :=
  make_env (fun _ => inl imap_down) (fun _ _ => None).

Definition bucket_down : Exn :=
  {| exn_class := "Forbidden"; exn_msg := "403 access denied" |}.

(** A bucket that rejects every upload. *)
Definition closed_bucket_env : Env :=
  make_env (fun _ => inr []) (fun _ _ => Some bucket_down).

Definition invoice_attachment : Attachment :=
  mock_attachment "invoice_INV-2024-001.pdf" 512000 "application/pdf".

Definition invoice_email : Email :=
  mock_email "email_002" "Invoice #INV-2024-001" "billing@vendor.com"
    [invoice_attachment].

Definition invoice_item : WorkItem :=
  {| item_attachment := invoice_attachment;
     item_email_subject := "Invoice #INV-2024-001" |}.

(** An inbox that holds the invoice at the first [n] fetches and nothing
    afterwards, and one that always holds it. *)
Definition invoice_until (n : nat) : Env :=
  make_env (fun i => if (i <? n)%nat then inr [invoice_email] else inr [])
           (fun _ _ => None).
Definition invoice_always : Env :=
  make_env (fun _ => inr [invoice_email]) (fun _ _ => None).

(** [MAX_WORKERS=0] with [attempts] attempts. *)
Definition no_worker_config (attempts : Z) : Config :=
  {| attachment_types := ["pdf"; "doc"; "docx"; "txt"; "csv"; "xlsx"];
     max_attachment_size_mb := 25;
     processing_batch_size := 5;
     max_workers := 0;
     retry_attempts := attempts;
     retry_delay_seconds := 30;
     email_api_key := Some "SG.key";
     email_address := Some "robot@example.com";
     notification_email := Some "ops@example.com";
     enable_notifications := true |}.

(** [RETRY_DELAY_SECONDS=-1] with two attempts and no worker. *)
Definition negative_delay_config : Config :=
  {| attachment_types := ["pdf"; "doc"; "docx"; "txt"; "csv"; "xlsx"];
     max_attachment_size_mb := 25;
     processing_batch_size := 5;
     max_workers := 0;
     retry_attempts := 2;
     retry_delay_seconds := -1;
     email_api_key := Some "SG.key";
     email_address := Some "robot@example.com";
     notification_email := Some "ops@example.com";
     enable_notifications := true |}.

Definition sleep_error : Exn :=
  {| exn_class := "ValueError"; exn_msg := "sleep length must be non-negative" |}.

(** [RETRY_DELAY_SECONDS=10000000000000000000] with three attempts and no
    worker, and [RETRY_DELAY_SECONDS=-5] likewise. *)
Definition overlong_delay_config : Config :=
  {| attachment_types := ["pdf"; "doc"; "docx"; "txt"; "csv"; "xlsx"];
     max_attachment_size_mb := 25;
     processing_batch_size := 5;
     max_workers := 0;
     retry_attempts := 3;
     retry_delay_seconds := 10000000000000000000;
     email_api_key := Some "SG.key";
     email_address := Some "robot@example.com";
     notification_email := Some "ops@example.com";
     enable_notifications := true |}.

Definition backward_delay_config : Config :=
  {| attachment_types := ["pdf"; "doc"; "docx"; "txt"; "csv"; "xlsx"];
     max_attachment_size_mb := 25;
     processing_batch_size := 5;
     max_workers := 0;
     retry_attempts := 3;
     retry_delay_seconds := -5;
     email_api_key := Some "SG.key";
     email_address := Some "robot@example.com";
     notification_email := Some "ops@example.com";
     enable_notifications := true |}.

Definition sleep_overflow : Exn :=
  {| exn_class := "OverflowError";
     exn_msg := "timestamp too large to convert to C _PyTime_t" |}.

(** [int] on ASCII text, for the sample host: blanks around the numeral, an
    optional sign, then decimal digits, where single underscores may stand
    between two digits; the interpreter's limit on the number of digits is
    left out.  [after_digit] says that the character before is a digit. *)
Fixpoint digits_value (s : string) (acc : Z) (after_digit : bool) : option Z :=
  match s with
  | EmptyString => if after_digit then Some acc else None
  | String c s' =>
      let n := nat_of_ascii c in
      if ((48 <=? n)%nat && (n <=? 57)%nat)%bool
      then digits_value s' (10 * acc + Z.of_nat (n - 48)) true
      else if ((n =? 95)%nat && after_digit)%bool
      then digits_value s' acc false
      else None
  end.

Definition decimal_int (s : string) : option Z :=
  match PyStr.strip s with
  | String "-" s' => option_map Z.opp (digits_value s' 0 false)
  | String "+" s' => digits_value s' 0 false
  | s' => digits_value s' 0 false
  end.

(** A host on which logging and the storage client can be set up. *)
Definition plain_host : Host :=
  {| py_int := decimal_int;
     logging_fault := fun _ => None;
     storage_fault := fun _ _ _ => None |}.

(** The seven required settings and nothing else. *)
Definition required_environ : gmap string string :=
  list_to_map
    [ ("EMAIL_API_KEY", "SG.key"); ("EMAIL_ADDRESS", "robot@example.com");
      ("EMAIL_PASSWORD", "app-password"); ("IMAP_SERVER", "imap.gmail.com");
      ("DATASTORE_BUCKET", "attachments");
      ("DATASTORE_PROJECT_ID", "project-1");
      ("DATASTORE_CREDENTIALS_FILE", "/etc/gcs.json") ].

(** An attachment dict without the keys [filename] and [size]. *)
Definition bare_attachment : Attachment :=
  {| filename := None; size := None; content_type := Some "text/plain";
     data := "aGVsbG8=" |}.

(** [ATTACHMENT_TYPES=PDF,.doc]: an entry in capitals and one with its dot. *)
Definition shouting_config : Config :=
  {| attachment_types := ["PDF"; ".doc"];
     max_attachment_size_mb := 25;
     processing_batch_size := 5;
     max_workers := 4;
     retry_attempts := 3;
     retry_delay_seconds := 30;
     email_api_key := Some "SG.key";
     email_address := Some "robot@example.com";
     notification_email := Some "ops@example.com";
     enable_notifications := true |}.

(** An email without attachments, as the mock generator could produce. *)
Definition plain_email : Email :=
  mock_email "email_100" "Lunch?" "friend@example.com" [].

(** An inbox of twelve messages, every third one without attachments. *)
Definition busy_inbox : list Email :=
  [ invoice_email; invoice_email; plain_email; invoice_email; invoice_email;
    plain_email; invoice_email; invoice_email; plain_email; invoice_email;
    invoice_email; plain_email ].

Definition busy_env : Env := make_env (fun _ => inr busy_inbox) (fun _ _ => None).

(** The required settings and a notification address. *)
Definition full_environ : gmap string string :=
  <["NOTIFICATION_EMAIL" := "ops@example.com"]> required_environ.

(** The same without [IMAP_SERVER], with [ATTACHMENT_TYPES=pdf,] and with
    [ATTACHMENT_TYPES=pdf, Doc,]. *)
Definition no_imap_environ : gmap string string :=
  delete "IMAP_SERVER" full_environ.
Definition trailing_comma_environ : gmap string string :=
  <["ATTACHMENT_TYPES" := "pdf,"]> full_environ.
Definition spaced_types_environ : gmap string string :=
  <["ATTACHMENT_TYPES" := "pdf, Doc,"]> full_environ.

Definition spaced_types_config : Config :=
  {| attachment_types := ["pdf"; " Doc"; EmptyString];
     max_attachment_size_mb := 25;
     processing_batch_size := 5;
     max_workers := 4;
     retry_attempts := 3;
     retry_delay_seconds := 30;
     email_api_key := Some "SG.key";
     email_address := Some "robot@example.com";
     notification_email := Some "ops@example.com";
     enable_notifications := true |}.

(** [MAX_WORKERS=four] *)
Definition spelled_workers_environ : gmap string string :=
  <["MAX_WORKERS" := "four"]> full_environ.

(** * Properties *)

(** ** Strings *)

Lemma split_nonempty sep s : PyStr.split sep s ≠ [].
Proof.
  destruct s as [|c s]; simpl; [discriminate|].
  destruct (Ascii.eqb c sep); [discriminate|].
  destruct (PyStr.split sep s); discriminate.
Qed.

(** A string without the separator is its own single field. *)
Lemma split_no_sep sep s :
  PyStr.contains sep s = false → PyStr.split sep s = [s].
Proof.
  induction s as [|c s IH]; simpl; [reflexivity|].
  destruct (Ascii.eqb c sep); [discriminate|].
  intros H. rewrite (IH H). reflexivity.
Qed.

Lemma contains_app_sep sep pre suf :
  PyStr.contains sep (String.append pre (String sep suf)) = true.
Proof.
  induction pre as [|c pre IH]; simpl.
  - rewrite Ascii.eqb_refl. reflexivity.
  - destruct (Ascii.eqb c sep); [reflexivity|exact IH].
Qed.

(** A split with a single field saw no separator. *)
Lemma split_single sep s x :
  PyStr.split sep s = [x] → PyStr.contains sep s = false.
Proof.
  revert x. induction s as [|c s IH]; intros x Hx; simpl in *; [reflexivity|].
  destruct (Ascii.eqb c sep).
  - pose proof (split_nonempty sep s). destruct (PyStr.split sep s); congruence.
  - pose proof (split_nonempty sep s) as Hne.
    destruct (PyStr.split sep s) as [|u us] eqn:Hsp; [congruence|].
    destruct us; [|discriminate]. eapply IH; reflexivity.
Qed.

(** Before a separator that comes later, one more character does not change
    the last field. *)
Lemma last_split_cons sep c s :
  PyStr.contains sep s = true →
  PyStr.last_item (PyStr.split sep (String c s))
  = PyStr.last_item (PyStr.split sep s).
Proof.
  intros Hc. unfold PyStr.last_item. simpl.
  pose proof (split_nonempty sep s) as Hne.
  destruct (PyStr.split sep s) as [|w ws] eqn:Hsp; [congruence|].
  destruct (Ascii.eqb c sep); [reflexivity|].
  destruct ws as [|y ys]; [|reflexivity].
  apply split_single in Hsp. congruence.
Qed.

(** The last field of [pre + sep + suf] is the last field of [suf]. *)
Lemma last_split_app sep pre suf :
  PyStr.last_item (PyStr.split sep (String.append pre (String sep suf)))
  = PyStr.last_item (PyStr.split sep suf).
Proof.
  induction pre as [|c pre IH].
  - unfold PyStr.last_item. simpl. rewrite Ascii.eqb_refl.
    pose proof (split_nonempty sep suf) as Hne.
    destruct (PyStr.split sep suf); [congruence|reflexivity].
  - change (String.append (String c pre) (String sep suf))
      with (String c (String.append pre (String sep suf))).
    rewrite last_split_cons by apply contains_app_sep. exact IH.
Qed.

(** The extension computed by the filter is the lower-cased text after the
    last dot of the name. *)
Lemma file_extension_last_dot a pre suf :
  filename a = Some (String.append pre (String "." suf)) →
  PyStr.contains "." suf = false →
  file_extension a = PyStr.lower suf.
Proof.
  intros Hfn Hsuf. unfold file_extension, filename_or_empty.
  rewrite Hfn. simpl default.
  rewrite contains_app_sep, last_split_app, (split_no_sep _ _ Hsuf).
  reflexivity.
Qed.

Lemma file_extension_no_dot a :
  PyStr.contains "." (filename_or_empty a) = false →
  file_extension a = EmptyString.
Proof. intros H. unfold file_extension. rewrite H. reflexivity. Qed.

(** ** filter_attachments *)

Lemma filter_loop_spec cfg atts filtered :
  filter_loop cfg atts filtered = filtered ++ filter (accepted cfg) atts.
Proof.
  revert filtered. induction atts as [|a rest IH]; intros filtered; simpl.
  - rewrite app_nil_r. reflexivity.
  - destruct (bool_decide (file_extension a ∈ attachment_types cfg)) eqn:Hext;
      simpl.
    + apply bool_decide_eq_true in Hext.
      destruct (size_or_zero a >? max_size_bytes cfg) eqn:Hsz.
      * rewrite filter_cons_False; [apply IH|].
        intros [_ Hle]. apply Z.gtb_lt in Hsz. lia.
      * rewrite filter_cons_True.
        -- rewrite IH, <- app_assoc. reflexivity.
        -- split; [exact Hext|]. rewrite Z.gtb_ltb in Hsz.
           apply Z.ltb_ge in Hsz. exact Hsz.
    + apply bool_decide_eq_false in Hext.
      rewrite filter_cons_False; [apply IH|]. intros [Hin _]. contradiction.
Qed.

Lemma filter_attachments_filter cfg atts :
  filter_attachments cfg atts = filter (accepted cfg) atts.
Proof. unfold filter_attachments. rewrite filter_loop_spec. reflexivity. Qed.

Lemma filter_attachments_length cfg atts :
  (length (filter_attachments cfg atts) <= length atts)%nat.
Proof. rewrite filter_attachments_filter. apply length_filter. Qed.

(** The loop on the store appends to the output object what the loop on
    values appends, and writes nowhere else. *)
Lemma filter_loop_store_spec cfg atts out st ys :
  st !! out = Some ys →
  filter_loop_store cfg atts out st = <[out := filter_loop cfg atts ys]> st.
Proof.
  revert st ys. induction atts as [|a rest IH]; intros st ys Hout; simpl.
  - rewrite insert_id; [reflexivity|exact Hout].
  - destruct (negb (bool_decide (file_extension a ∈ attachment_types cfg)));
      [apply IH; exact Hout|].
    destruct (size_or_zero a >? max_size_bytes cfg); [apply IH; exact Hout|].
    unfold store_append. rewrite Hout. simpl default.
    rewrite (IH _ (ys ++ [a])) by apply lookup_insert_eq.
    rewrite insert_insert_eq. reflexivity.
Qed.

(** C2 (amended): [filter_attachments] keeps an attachment exactly when its
    extension -- the lower-cased text after the last dot of the file name, the
    empty string when the name has no dot -- is in the configured list of
    types and its size is at most [max_attachment_size_mb * 1024 * 1024].  A
    name without a dot is rejected whenever the empty string is not among the
    configured types, and a size equal to the ceiling is accepted. *)
Theorem filter_attachments_policy (cfg : Config) (a : Attachment)
  (atts : list Attachment) :
  (a ∈ filter_attachments cfg atts ↔
     a ∈ atts ∧ file_extension a ∈ attachment_types cfg
     ∧ size_or_zero a <= max_attachment_size_mb cfg * 1024 * 1024)
  ∧ (∀ pre suf, filename a = Some (String.append pre (String "." suf)) →
       PyStr.contains "." suf = false → file_extension a = PyStr.lower suf)
  ∧ (PyStr.contains "." (filename_or_empty a) = false →
       EmptyString ∉ attachment_types cfg → a ∉ filter_attachments cfg atts)
  ∧ (a ∈ atts → file_extension a ∈ attachment_types cfg →
       size_or_zero a = max_attachment_size_mb cfg * 1024 * 1024 →
       a ∈ filter_attachments cfg atts).
Proof.
  assert (Hiff : a ∈ filter_attachments cfg atts ↔
            a ∈ atts ∧ file_extension a ∈ attachment_types cfg
            ∧ size_or_zero a <= max_attachment_size_mb cfg * 1024 * 1024).
  { rewrite filter_attachments_filter, list_elem_of_filter.
    unfold accepted, max_size_bytes. tauto. }
  split; [exact Hiff|]. split; [|split].
  - intros pre suf. apply file_extension_last_dot.
  - intros Hdot Hempty Hin. apply Hiff in Hin as (_ & Hext & _).
    rewrite (file_extension_no_dot a Hdot) in Hext. contradiction.
  - intros Hin Hext Hsz. apply Hiff. repeat split; [exact Hin|exact Hext|lia].
Qed.

Lemma filter_attachments_policy_witness :
  (ceiling_attachment ∈
     filter_attachments default_config [readme_attachment; ceiling_attachment])
  ∧ (readme_attachment ∉
     filter_attachments default_config [readme_attachment; ceiling_attachment])
  ∧ file_extension ceiling_attachment = "pdf".
Proof.
  pose proof (filter_attachments_policy default_config ceiling_attachment
                [readme_attachment; ceiling_attachment]) as (_ & Hext & _ & Hceil).
  pose proof (filter_attachments_policy default_config readme_attachment
                [readme_attachment; ceiling_attachment]) as (_ & _ & Hdot & _).
  split; [|split].
  - apply Hceil; [| |reflexivity]; apply list_elem_of_In; vm_compute; tauto.
  - apply Hdot; [reflexivity|].
    intros Hin. apply list_elem_of_In in Hin. simpl in Hin.
    intuition discriminate.
  - apply (Hext "scan" "PDF"); reflexivity.
Defined.

(** C2, as stated, fails: with an empty entry among the configured types, an
    attachment whose name has no dot is kept. *)
Lemma filter_attachments_keeps_no_dot :
  PyStr.contains "." (filename_or_empty readme_attachment) = false
  ∧ filter_attachments trailing_comma_config [readme_attachment]
    = [readme_attachment].
Proof. split; vm_compute; reflexivity. Qed.

(** C10: the list returned by [filter_attachments] is a subsequence of the
    list it was given -- the kept attachments, unchanged and in their order --
    and it is a new list object: the input object, like every other object of
    the store, holds afterwards what it held before. *)
Theorem filter_attachments_subsequence (cfg : Config) (inp : ref)
  (st : gmap ref (list Attachment)) (atts : list Attachment) :
  st !! inp = Some atts →
  sublist (filter_attachments cfg atts) atts
  ∧ (∀ a, a ∈ filter_attachments cfg atts → a ∈ atts)
  ∧ (∃ out st',
      filter_attachments_store cfg inp st = Some (out, st')
      ∧ out ≠ inp
      ∧ st' !! inp = Some atts
      ∧ st' !! out = Some (filter_attachments cfg atts)
      ∧ (∀ r, r ≠ out → st' !! r = st !! r)).
Proof.
  intros Hinp. split; [|split].
  - rewrite filter_attachments_filter. apply sublist_filter.
  - intros a. rewrite filter_attachments_filter, list_elem_of_filter. tauto.
  - unfold filter_attachments_store. rewrite Hinp.
    set (out := fresh (dom st)).
    assert (Hfresh : st !! out = None).
    { apply not_elem_of_dom. apply is_fresh. }
    assert (Hne : out ≠ inp) by congruence.
    exists out, (<[out := filter_attachments cfg atts]> st).
    split.
    { rewrite (filter_loop_store_spec cfg atts out _ []) by apply lookup_insert_eq.
      rewrite insert_insert_eq. reflexivity. }
    split; [exact Hne|]. split; [|split].
    + rewrite lookup_insert_ne by exact Hne. exact Hinp.
    + apply lookup_insert_eq.
    + intros r Hr. apply lookup_insert_ne. congruence.
Qed.

Lemma filter_attachments_subsequence_witness :
  sublist (filter_attachments default_config
             [ceiling_attachment; readme_attachment; oversize_attachment;
              mock_attachment "notes.txt" 12 "text/plain"])
          [ceiling_attachment; readme_attachment; oversize_attachment;
           mock_attachment "notes.txt" 12 "text/plain"]
  ∧ (∃ out st',
      filter_attachments_store default_config 1%positive sample_store
      = Some (out, st')
      ∧ st' !! 1%positive = sample_store !! 1%positive).
Proof.
  destruct (filter_attachments_subsequence default_config 1%positive sample_store
              [ceiling_attachment; readme_attachment; oversize_attachment;
               mock_attachment "notes.txt" 12 "text/plain"])
    as (Hsub & _ & out & st' & Hrun & _ & Hsame & _).
  - reflexivity.
  - split; [exact Hsub|]. exists out, st'. split; [exact Hrun|].
    exact Hsame.
Defined.

(** ** Frame rules

    Which components of the world an action can change is read off its
    primitives. *)

Section FrameRules.
Context {X : Type} (f : World → X).

Lemma preserves_ret {A} (a : A) : preserves f (ret a).
Proof. intros w. reflexivity. Qed.

Lemma preserves_raise {A} (e : Exn) : preserves f (@raise A e).
Proof. intros w. reflexivity. Qed.

Lemma preserves_time_time : preserves f time_time.
Proof. intros w. reflexivity. Qed.

Lemma preserves_act (g : World → World) :
  (∀ w, f (g w) = f w) → preserves f (act g).
Proof. intros Hg w. apply Hg. Qed.

Lemma preserves_bind {A B} (c : M A) (k : A → M B) :
  preserves f c → (∀ a, preserves f (k a)) → preserves f (bind c k).
Proof.
  intros Hc Hk w. unfold bind. specialize (Hc w).
  destruct (c w) as [[a|e] w']; simpl in *.
  - rewrite Hk. exact Hc.
  - exact Hc.
Qed.

Lemma preserves_try_except {A} (c : M A) (h : Exn → M A) :
  preserves f c → (∀ e, preserves f (h e)) → preserves f (try_except c h).
Proof.
  intros Hc Hh w. unfold try_except. specialize (Hc w).
  destruct (c w) as [[a|e] w']; simpl in *.
  - exact Hc.
  - rewrite Hh. exact Hc.
Qed.

Lemma preserves_attempt {A} (c : M A) :
  preserves f c → preserves f (attempt c).
Proof.
  intros Hc w. unfold attempt. specialize (Hc w).
  destruct (c w) as [r w']. exact Hc.
Qed.

Lemma preserves_if {A} (b : bool) (c1 c2 : M A) :
  preserves f c1 → preserves f c2 → preserves f (if b then c1 else c2).
Proof. destruct b; auto. Qed.
End FrameRules.

Ltac frame_step :=
  first [ simple apply preserves_ret | simple apply preserves_raise
        | simple apply preserves_time_time
        | simple apply preserves_bind | simple apply preserves_try_except
        | simple apply preserves_attempt | simple apply preserves_if
        | simple apply preserves_act; solve [auto] ].
Ltac frame := repeat (intros; frame_step); intros.

Section Untouched.
Context {X : Type} (f : World → X).
Hypothesis f_line : ∀ l w, f (add_line l w) = f w.
Hypothesis f_clock : ∀ t w, f (set_clock t w) = f w.
Hypothesis f_blob : ∀ b w, f (put_blob b w) = f w.

Lemma preserves_logger l : preserves f (logger l).
Proof. unfold logger. frame. Qed.

Lemma preserves_parse_attachment env a : preserves f (parse_attachment env a).
Proof. unfold parse_attachment. destruct (parse_fault env a); frame. Qed.

Lemma preserves_blob_upload env b : preserves f (blob_upload env b).
Proof.
  intros w. unfold blob_upload.
  destruct (gcs_fault env (blob_path b) (bucket w)); simpl;
    rewrite ?f_blob, f_clock; reflexivity.
Qed.

Lemma preserves_upload_to_datastore env parsed :
  preserves f (upload_to_datastore env parsed).
Proof. unfold upload_to_datastore. frame. apply preserves_blob_upload. Qed.

Lemma preserves_process_single_attachment env a subj :
  preserves f (process_single_attachment env a subj).
Proof.
  unfold process_single_attachment. frame.
  - apply preserves_parse_attachment.
  - apply preserves_upload_to_datastore.
Qed.

Lemma preserves_run_tasks env workers fuel pending :
  preserves f (run_tasks env workers fuel pending).
Proof.
  revert pending. induction fuel as [|fuel IH]; intros pending; simpl.
  - frame.
  - destruct (take workers pending !! _); frame.
    + apply preserves_process_single_attachment.
    + apply IH.
Qed.

Lemma preserves_as_completed env workers fuel pending :
  preserves f (as_completed env workers fuel pending).
Proof. unfold as_completed. frame. apply preserves_run_tasks. Qed.

Lemma preserves_collect_results done processed :
  preserves f (collect_results done processed).
Proof.
  revert processed. induction done as [|[fut [o|e]] rest IH]; intros processed;
    simpl; frame; try apply preserves_logger; apply IH.
Qed.

Hypothesis f_pool : ∀ w, f (count_pool w) = f w.

Lemma preserves_run_executor env cfg all :
  preserves f (run_executor env cfg all).
Proof. unfold run_executor. frame. apply preserves_as_completed. Qed.

Lemma preserves_process_in_parallel env cfg all :
  preserves f (process_in_parallel env cfg all).
Proof.
  unfold process_in_parallel. destruct all; frame.
  - apply preserves_logger.
  - apply preserves_run_executor.
  - apply preserves_collect_results.
Qed.
End Untouched.

(** ** The worker *)

Lemma upload_to_datastore_run env parsed w :
  upload_to_datastore env parsed w =
    let path := String.append (date_path env (clock w))
                  (String.append "/" (default "None" (p_filename parsed))) in
    let w1 := set_clock (clock w + gcs_latency env path) w in
    match gcs_fault env path (bucket w) with
    | Some _ => (Ok false, w1)
    | None =>
        (Ok true,
         put_blob {| blob_path := path;
                     blob_content_type := p_content_type parsed;
                     blob_original_size := p_size parsed;
                     blob_parsed_at := p_parsed_at parsed;
                     blob_payload := EmptyString |} w1)
    end.
Proof.
  unfold upload_to_datastore, try_except, bind, time_time, blob_upload, ret.
  simpl. destruct (gcs_fault env _ (bucket w)); reflexivity.
Qed.

(** The three ways a call of the worker can go. *)
Lemma process_single_attachment_cases env a subj w :
  ∃ o w',
    process_single_attachment env a subj w = (Ok o, w')
    ∧ out_filename o = default "unknown" (filename a)
    ∧ out_email_subject o = subj
    ∧ out_processing_time o = clock w' - clock w
    ∧ match parse_fault env a with
      | Some e =>
          out_success o = false ∧ out_error o = Some (exn_msg e)
          ∧ bucket w' = bucket w
      | None =>
          match gcs_fault env (upload_path env a (clock w)) (bucket w) with
          | Some _ =>
              out_success o = false ∧ out_error o = Some "Upload failed"
              ∧ bucket w' = bucket w
          | None =>
              out_success o = true ∧ out_error o = None
              ∧ ∃ b, bucket w' = bucket w ++ [b]
                     ∧ blob_path b = upload_path env a (clock w)
          end
      end.
Proof.
  unfold process_single_attachment, bind, try_except, time_time, parse_attachment.
  destruct (parse_fault env a) as [e|] eqn:Hparse.
  - simpl. eexists _, _. split; [reflexivity|]. simpl.
    repeat split; lia.
  - unfold bind, time_time, ret. rewrite upload_to_datastore_run. simpl.
    fold (upload_path env a (clock w)).
    destruct (gcs_fault env (upload_path env a (clock w)) (bucket w)); simpl.
    + eexists _, _. split; [reflexivity|]. simpl. repeat split; lia.
    + eexists _, _. split; [reflexivity|]. simpl. repeat split; try lia.
      eexists. split; reflexivity.
Qed.

(** C5: [process_single_attachment] always returns an outcome and never
    raises.  An exception inside the parse step, or an upload that fails
    (whether the bucket raises or not, [upload_to_datastore] then returns
    [False] instead of raising), gives an outcome with [success = False] and
    an error text; and whichever way the call goes, [processing_time] is the
    clock at the end of the parse-and-upload sequence minus the clock at its
    start. *)
Theorem process_single_attachment_never_raises (env : Env) (a : Attachment)
  (email_subject : string) (w : World) :
  ∃ o w',
    process_single_attachment env a email_subject w = (Ok o, w')
    ∧ out_processing_time o = clock w' - clock w
    ∧ (∀ e, parse_fault env a = Some e →
         out_success o = false ∧ out_error o = Some (exn_msg e))
    ∧ (∀ parsed w1,
         fst (upload_to_datastore env parsed w1) = Ok true
         ∨ fst (upload_to_datastore env parsed w1) = Ok false)
    ∧ (parse_fault env a = None →
       ∀ e, gcs_fault env (upload_path env a (clock w)) (bucket w) = Some e →
         out_success o = false ∧ out_error o = Some "Upload failed")
    ∧ (out_success o = false → is_Some (out_error o))
    ∧ (out_success o = true →
         parse_fault env a = None
         ∧ gcs_fault env (upload_path env a (clock w)) (bucket w) = None).
Proof.
  destruct (process_single_attachment_cases env a email_subject w)
    as (o & w' & Hrun & _ & _ & Htime & Hcases).
  exists o, w'. split; [exact Hrun|]. split; [exact Htime|].
  split; [|split; [|split; [|split]]].
  - intros e He. rewrite He in Hcases. tauto.
  - intros parsed w1. rewrite upload_to_datastore_run. simpl.
    destruct (gcs_fault env _ (bucket w1)); simpl; auto.
  - intros Hp e He. rewrite Hp, He in Hcases. tauto.
  - intros Hfail. destruct (parse_fault env a).
    + destruct Hcases as (_ & -> & _). eauto.
    + destruct (gcs_fault env _ (bucket w)).
      * destruct Hcases as (_ & -> & _). eauto.
      * destruct Hcases as (Hs & _). congruence.
  - intros Hok. destruct (parse_fault env a).
    + destruct Hcases as (Hs & _). congruence.
    + destruct (gcs_fault env _ (bucket w)).
      * destruct Hcases as (Hs & _). congruence.
      * tauto.
Qed.

Lemma process_single_attachment_never_raises_witness :
  ∃ o w',
    process_single_attachment closed_bucket_env invoice_attachment
      "Invoice #INV-2024-001" empty_world = (Ok o, w')
    ∧ out_success o = false
    ∧ out_error o = Some "Upload failed"
    ∧ out_processing_time o = clock w' - clock empty_world.
Proof.
  destruct (process_single_attachment_never_raises closed_bucket_env
              invoice_attachment "Invoice #INV-2024-001" empty_world)
    as (o & w' & Hrun & Htime & _ & _ & Hupload & _).
  destruct (Hupload eq_refl bucket_down eq_refl) as (Hs & He).
  exists o, w'. split; [exact Hrun|]. split; [exact Hs|].
  split; [exact He|exact Htime].
Defined.

(** ** The pool *)

Lemma submit_all_ids items : map fut_id (submit_all items) = seq 0 (length items).
Proof.
  unfold submit_all. change (map fut_id) with (fmap (M:=list) fut_id).
  rewrite fmap_imap.
  rewrite (imap_ext _ (λ j _, id j) items) by reflexivity.
  rewrite imap_seq_0. apply list_fmap_id.
Qed.

Lemma submit_all_items items fut :
  fut ∈ submit_all items → items !! fut_id fut = Some (fut_item fut).
Proof.
  unfold submit_all. intros Hin.
  apply list_elem_of_lookup in Hin as [i Hi].
  rewrite list_lookup_imap in Hi.
  destruct (items !! i) as [it|] eqn:Hit; simpl in Hi; [|discriminate].
  injection Hi as <-. simpl. exact Hit.
Qed.

(** With at least one worker, the pool finishes every pending future once,
    and each holds the outcome of a call of the worker on its own item. *)
Lemma run_tasks_spec env workers :
  (0 < workers)%nat →
  ∀ fuel pending w, fuel = length pending →
    ∃ done w',
      run_tasks env workers fuel pending w = (Ok done, w')
      ∧ map fst done ≡ₚ pending
      ∧ Forall holds_outcome done
      ∧ Forall (worker_result env) done.
Proof.
  intros Hworkers. induction fuel as [|fuel IH]; intros pending w Hfuel.
  - destruct pending; [|discriminate]. exists [], w. simpl.
    split; [reflexivity|]. split; [reflexivity|]. split; constructor.
  - simpl.
    set (running := take workers pending).
    assert (Hlen : (0 < length running)%nat).
    { unfold running. rewrite length_take. lia. }
    set (i := (scheduler env (map fut_id running) mod length running)%nat).
    assert (Hi : (i < length running)%nat).
    { unfold i. apply Nat.mod_upper_bound. lia. }
    destruct (lookup_lt_is_Some_2 running i Hi) as [fut Hfut].
    rewrite Hfut.
    assert (Hpend : pending !! i = Some fut).
    { unfold running in Hfut. apply lookup_take_Some in Hfut. tauto. }
    destruct (process_single_attachment_cases env
                (item_attachment (fut_item fut))
                (item_email_subject (fut_item fut)) w)
      as (o & w1 & Hrun & Hname & Hsubj & _).
    destruct (IH (delete i pending) w1)
      as (rest & w2 & Hrest & Hperm & Hall & Hres).
    { rewrite length_delete by eauto. lia. }
    exists ((fut, Ok o) :: rest), w2.
    split.
    { unfold bind, attempt. rewrite Hrun, Hrest. reflexivity. }
    split.
    { simpl. rewrite Hperm. symmetry. apply delete_Permutation. exact Hpend. }
    split.
    { constructor; [|exact Hall]. exists o. simpl. auto. }
    constructor; [|exact Hres].
    exists w. simpl. rewrite Hrun. reflexivity.
Qed.

(** [as_completed] hands over every finished future, each once. *)
Lemma yield_all_Permutation env :
  ∀ fuel finished, fuel = length finished →
    yield_all env fuel finished ≡ₚ finished.
Proof.
  induction fuel as [|fuel IH]; intros finished Hfuel.
  - destruct finished; [reflexivity|discriminate].
  - simpl.
    set (i := (yield_order env (map (λ d, fut_id (fst d)) finished)
               mod length finished)%nat).
    assert (Hi : (i < length finished)%nat).
    { unfold i. apply Nat.mod_upper_bound. lia. }
    destruct (lookup_lt_is_Some_2 finished i Hi) as [d Hd].
    rewrite Hd. rewrite IH.
    + symmetry. apply delete_Permutation. exact Hd.
    + rewrite length_delete by eauto. lia.
Qed.

(** With at least one worker, [as_completed] yields every pending future
    once, each holding the outcome of a call of the worker on its own item. *)
Lemma as_completed_spec env workers :
  (0 < workers)%nat →
  ∀ fuel pending w, fuel = length pending →
    ∃ done w',
      as_completed env workers fuel pending w = (Ok done, w')
      ∧ map fst done ≡ₚ pending
      ∧ Forall holds_outcome done
      ∧ Forall (worker_result env) done.
Proof.
  intros Hworkers fuel pending w Hfuel.
  destruct (run_tasks_spec env workers Hworkers fuel pending w Hfuel)
    as (finished & w' & Hrun & Hperm & Hall & Hres).
  pose proof (yield_all_Permutation env (length finished) finished eq_refl)
    as Hyield.
  exists (yield_all env (length finished) finished), w'.
  split; [unfold as_completed, bind; rewrite Hrun; reflexivity|].
  split; [rewrite Hyield; exact Hperm|].
  split; rewrite Hyield; assumption.
Qed.

Lemma journal_add_lines ls w : journal (add_lines ls w) = journal w ++ ls.
Proof.
  revert w. induction ls as [|l ls IH]; intros w; simpl.
  - rewrite app_nil_r. reflexivity.
  - rewrite IH. simpl. rewrite <- app_assoc. reflexivity.
Qed.

(** The loop logs one line for each future and counts the successes. *)
Lemma collect_results_spec done processed w :
  collect_results done processed w
  = (Ok (processed + Z.of_nat (length (List.filter counted done))),
     add_lines (map result_line done) w).
Proof.
  revert processed w. induction done as [|[fut [o|e]] rest IH];
    intros processed w.
  - simpl. rewrite Z.add_0_r. reflexivity.
  - replace (List.filter counted ((fut, Ok o) :: rest))
      with (if out_success o then (fut, Ok o) :: List.filter counted rest
            else List.filter counted rest) by reflexivity.
    replace (map result_line ((fut, Ok o) :: rest))
      with ((if out_success o
             then Completed (out_filename o) (out_processing_time o)
             else Failed (out_filename o) (out_error o))
            :: map result_line rest) by reflexivity.
    cbn [collect_results].
    destruct (out_success o); unfold bind, logger, act; rewrite IH;
      cbn [add_lines fold_left length]; do 2 f_equal; lia.
  - cbn [collect_results]. unfold bind, logger, act. rewrite IH. reflexivity.
Qed.

Lemma run_executor_spec env cfg items w :
  1 <= max_workers cfg →
  ∃ done w',
    run_executor env cfg items w = (Ok done, w')
    ∧ map fst done ≡ₚ submit_all items
    ∧ Forall holds_outcome done
    ∧ pools_spawned w' = S (pools_spawned w)
    ∧ Forall (worker_result env) done.
Proof.
  intros Hworkers. unfold run_executor.
  destruct (max_workers cfg <=? 0) eqn:Hle; [apply Z.leb_le in Hle; lia|].
  destruct (as_completed_spec env (Z.to_nat (max_workers cfg)) ltac:(lia)
              (length items) (submit_all items) (count_pool w))
    as (done & w' & Hrun & Hperm & Hall & Hres).
  { unfold submit_all. rewrite length_imap. reflexivity. }
  exists done, w'. unfold bind, act. rewrite Hrun.
  split; [reflexivity|]. split; [exact Hperm|]. split; [exact Hall|].
  split; [|exact Hres].
  assert (Hframe : preserves pools_spawned
                     (as_completed env (Z.to_nat (max_workers cfg))
                        (length items) (submit_all items)))
    by (apply preserves_as_completed; reflexivity).
  specialize (Hframe (count_pool w)). rewrite Hrun in Hframe. exact Hframe.
Qed.

(** C1: for a non-empty work list and any number of workers from 1 on,
    whatever the order in which the tasks finish and whatever the order in
    which [as_completed] yields them, the executor hands back one finished
    future per submitted item -- their identifiers are those of the
    submissions, each once, in some order -- and every future holds an
    outcome, never an exception: the one a call of
    [process_single_attachment] on its own item returned.  The collection
    loop logs one [Completed] or [Failed] line for each of them and counts
    the successful ones. *)
Theorem one_outcome_per_submitted_item (env : Env) (cfg : Config)
  (W : list WorkItem) (w : World) :
  W ≠ [] → 1 <= max_workers cfg →
  ∃ done w' processed w'',
    run_executor env cfg W w = (Ok done, w')
    ∧ collect_results done 0 w' = (Ok processed, w'')
    ∧ length done = length W
    ∧ map (λ d, fut_id (fst d)) done ≡ₚ seq 0 (length W)
    ∧ Forall (λ d, W !! fut_id (fst d) = Some (fut_item (fst d))
                   ∧ holds_outcome d ∧ worker_result env d) done
    ∧ journal w'' = journal w' ++ map result_line done
    ∧ processed = Z.of_nat (length (List.filter counted done)).
Proof.
  intros _ Hworkers.
  destruct (run_executor_spec env cfg W w Hworkers)
    as (done & w' & Hrun & Hperm & Hall & _ & Hres).
  exists done, w'. rewrite collect_results_spec.
  eexists _, _. split; [exact Hrun|]. split; [reflexivity|].
  assert (Hlen : length done = length W).
  { rewrite <- (length_map fst done), Hperm. unfold submit_all.
    apply length_imap. }
  split; [exact Hlen|]. split; [|split; [|split]].
  - rewrite <- submit_all_ids, <- Hperm.
    change (map fut_id) with (fmap (M:=list) fut_id).
    change (map fst done) with (fst <$> done).
    rewrite <- list_fmap_compose. reflexivity.
  - apply Forall_forall. intros d Hd. split; [|split].
    + apply submit_all_items. rewrite <- Hperm.
      apply list_elem_of_In, in_map, list_elem_of_In, Hd.
    + revert d Hd. apply Forall_forall. exact Hall.
    + revert d Hd. apply Forall_forall. exact Hres.
  - apply journal_add_lines.
  - lia.
Qed.

Lemma one_outcome_per_submitted_item_witness :
  ∃ done w',
    run_executor quiet_env default_config [invoice_item; invoice_item]
      empty_world = (Ok done, w')
    ∧ length done = 2%nat
    ∧ map (λ d, fut_id (fst d)) done ≡ₚ [0%nat; 1%nat].
Proof.
  destruct (one_outcome_per_submitted_item quiet_env default_config
              [invoice_item; invoice_item] empty_world)
    as (done & w' & _ & _ & Hrun & _ & Hlen & Hids & _).
  - discriminate.
  - simpl. lia.
  - exists done, w'. split; [exact Hrun|]. split; [exact Hlen|exact Hids].
Defined.

(** ** One run *)

Lemma fetch_emails_run env use_mock w :
  fetch_emails env use_mock w
  = (Ok (fetched env use_mock (fetch_calls w)), after_fetch env use_mock w).
Proof.
  unfold fetch_emails, fetched, after_fetch, bind, act, try_except.
  destruct use_mock; [reflexivity|].
  change (Nat.pred (fetch_calls (count_fetch w))) with (fetch_calls w).
  destruct (imap_session env (fetch_calls w)); reflexivity.
Qed.

Lemma process_emails_unfold env cfg test_mode w :
  process_emails env cfg test_mode w
  = match process_fetched env cfg (fetched env test_mode (fetch_calls w))
            (after_fetch env test_mode (add_line StartingJob w)) with
    | (Ok u, w') => (Ok u, w')
    | (Raise e, w') => (Raise e, add_line (ErrorInEmailProcessing e) w')
    end.
Proof.
  unfold process_emails, bind, try_except, logger, act.
  rewrite fetch_emails_run. simpl fetch_calls.
  destruct (process_fetched _ _ _ _) as [[u|e] w']; reflexivity.
Qed.

Lemma send_notification_run env cfg processed total with_att total_emails w :
  PyStr.truthy (notification_email cfg) = true →
  PyStr.truthy (email_api_key cfg) = true →
  send_notification env cfg processed total with_att total_emails w
  = (Ok tt,
     let m := report_mail cfg processed total with_att total_emails in
     add_line (send_line env m) (post_mail m (add_line SendingNotification w))).
Proof.
  intros Hto Hkey. unfold send_notification, send_line.
  rewrite Hto, Hkey. simpl.
  unfold bind, try_except, logger, act, sg_send.
  destruct (sendgrid_send env _) as [e|code]; [reflexivity|].
  destruct (code =? 202); reflexivity.
Qed.

Lemma send_notification_unconfigured env cfg processed total with_att total_emails w :
  PyStr.truthy (notification_email cfg) = false
  ∨ PyStr.truthy (email_api_key cfg) = false →
  send_notification env cfg processed total with_att total_emails w = (Ok tt, w).
Proof.
  intros [H|H]; unfold send_notification; rewrite H; simpl;
    rewrite ?orb_true_r; reflexivity.
Qed.

Section UntouchedByRun.
Context {X : Type} (f : World → X).
Hypothesis f_line : ∀ l w, f (add_line l w) = f w.
Hypothesis f_clock : ∀ t w, f (set_clock t w) = f w.
Hypothesis f_blob : ∀ b w, f (put_blob b w) = f w.
Hypothesis f_pool : ∀ w, f (count_pool w) = f w.
Hypothesis f_mail : ∀ m w, f (post_mail m w) = f w.
Hypothesis f_report : ∀ s w, f (add_report s w) = f w.
Hypothesis f_fetch : ∀ w, f (count_fetch w) = f w.

Lemma preserves_send_notification env cfg p t a n :
  preserves f (send_notification env cfg p t a n).
Proof.
  unfold send_notification.
  repeat first [ simple apply preserves_logger; solve [auto] | frame_step | intros ].
  intros w. unfold sg_send. destruct (sendgrid_send env _); simpl; auto.
Qed.

Lemma preserves_process_fetched env cfg emails :
  preserves f (process_fetched env cfg emails).
Proof.
  unfold process_fetched. destruct emails as [|e rest].
  - frame. apply preserves_logger; auto.
  - destruct (collect_work cfg (e :: rest) 0 0 []) as [[a b] c].
    repeat first [ simple apply preserves_logger; solve [auto]
                 | simple apply preserves_process_in_parallel; solve [auto]
                 | simple apply preserves_send_notification
                 | frame_step | intros ].
Qed.

Lemma preserves_fetch_emails env use_mock :
  preserves f (fetch_emails env use_mock).
Proof.
  intros w. rewrite fetch_emails_run. unfold after_fetch. simpl.
  destruct use_mock; [auto|].
  destruct (imap_session env (fetch_calls w)); rewrite ?f_line; auto.
Qed.

Lemma preserves_process_emails env cfg test_mode :
  preserves f (process_emails env cfg test_mode).
Proof.
  unfold process_emails.
  repeat first [ simple apply preserves_logger; solve [auto]
               | simple apply preserves_fetch_emails
               | simple apply preserves_process_fetched
               | frame_step | intros ].
Qed.
End UntouchedByRun.

(** The loop over the emails adds up what each email contributes. *)
Lemma collect_work_spec cfg emails with_att total acc :
  collect_work cfg emails with_att total acc
  = (with_att + Z.of_nat (length (List.filter has_attachments emails)),
     total + Z.of_nat (length (eligible_items cfg emails)),
     acc ++ eligible_items cfg emails).
Proof.
  revert with_att total acc.
  induction emails as [|e rest IH]; intros with_att total acc.
  - simpl. rewrite !Z.add_0_r, app_nil_r. reflexivity.
  - unfold eligible_items. cbn [collect_work map concat List.filter].
    fold (eligible_items cfg rest). unfold has_attachments at 1.
    destruct (attachments e) as [|a atts] eqn:Hatts.
    + rewrite IH. reflexivity.
    + rewrite IH. cbn [length]. rewrite length_app, length_map, <- app_assoc.
      do 2 f_equal; lia.
Qed.

Lemma work_list_eligible cfg emails :
  work_list cfg emails = eligible_items cfg emails.
Proof. unfold work_list. rewrite collect_work_spec. reflexivity. Qed.

Lemma total_attachments_work_list cfg emails :
  total_attachments_of cfg emails = Z.of_nat (length (work_list cfg emails)).
Proof.
  unfold total_attachments_of, work_list. rewrite collect_work_spec. reflexivity.
Qed.

Lemma emails_with_attachments_count cfg emails :
  emails_with_attachments_of cfg emails
  = Z.of_nat (length (List.filter has_attachments emails)).
Proof.
  unfold emails_with_attachments_of. rewrite collect_work_spec. reflexivity.
Qed.

Lemma eligible_items_seen cfg emails :
  Z.of_nat (length (eligible_items cfg emails)) <= attachments_seen emails.
Proof.
  unfold attachments_seen, eligible_items.
  induction emails as [|e rest IH]; simpl; [lia|].
  rewrite !length_app, length_map.
  pose proof (filter_attachments_length cfg (attachments e)). lia.
Qed.

Lemma process_in_parallel_nil env cfg w :
  process_in_parallel env cfg [] w = (Ok 0, w).
Proof. reflexivity. Qed.

(** Without a worker the executor cannot be created. *)
Lemma process_in_parallel_raises env cfg all w :
  all ≠ [] → max_workers cfg <= 0 →
  process_in_parallel env cfg all w
  = (Raise {| exn_class := "ValueError";
              exn_msg := "max_workers must be greater than 0" |},
     add_line (ProcessingWithWorkers (Z.of_nat (length all)) (max_workers cfg)) w).
Proof.
  intros Hne Hle. destruct all as [|it rest]; [congruence|].
  unfold process_in_parallel, run_executor, bind, logger, act.
  apply Z.leb_le in Hle. rewrite Hle. reflexivity.
Qed.

(** With a worker it returns the number of successful outcomes. *)
Lemma process_in_parallel_ok env cfg all w :
  1 <= max_workers cfg →
  ∃ p w', process_in_parallel env cfg all w = (Ok p, w')
          ∧ 0 <= p <= Z.of_nat (length all).
Proof.
  intros Hworkers. destruct all as [|it rest].
  - exists 0, w. simpl. split; [reflexivity|lia].
  - set (all := it :: rest).
    destruct (run_executor_spec env cfg all
                (add_line (ProcessingWithWorkers (Z.of_nat (length all))
                             (max_workers cfg)) w) Hworkers)
      as (done & w' & Hrun & Hperm & _).
    assert (Hlen : length done = length all).
    { rewrite <- (length_map fst done), Hperm. apply length_imap. }
    eexists _, _. split.
    + unfold process_in_parallel, all, bind, logger, act. fold all.
      rewrite Hrun, collect_results_spec. reflexivity.
    + pose proof (filter_length_le counted done) as Hle.
      rewrite <- Hlen. lia.
Qed.

Lemma process_in_parallel_bound env cfg all w p w' :
  process_in_parallel env cfg all w = (Ok p, w') →
  0 <= p <= Z.of_nat (length all).
Proof.
  intros Hrun. destruct (Z.le_gt_cases 1 (max_workers cfg)) as [Hw|Hw].
  - destruct (process_in_parallel_ok env cfg all w Hw) as (p' & w1 & Hrun' & Hb).
    congruence.
  - destruct all as [|it rest].
    + simpl in Hrun. injection Hrun as <- _. simpl. lia.
    + rewrite process_in_parallel_raises in Hrun by (congruence || lia).
      discriminate.
Qed.

(** The run after a non-empty fetch: the pool, then the summary, the
    warning and the notification. *)
Lemma process_fetched_cons env cfg emails w :
  emails ≠ [] →
  process_fetched env cfg emails w
  = match process_in_parallel env cfg (work_list cfg emails) w with
    | (Raise e, w1) => (Raise e, w1)
    | (Ok p, w1) =>
        let w2 := add_report (summary_of cfg emails p) w1 in
        let w3 := if no_attachments_anywhere cfg emails
                  then add_line NoEmailsContainedAttachments w2 else w2 in
        if enable_notifications cfg
        then send_notification env cfg p (total_attachments_of cfg emails)
               (emails_with_attachments_of cfg emails)
               (Z.of_nat (length emails)) w3
        else (Ok tt, w3)
    end.
Proof.
  intros Hne. destruct emails as [|e rest]; [congruence|].
  unfold process_fetched, summary_of, no_attachments_anywhere, work_list,
    total_attachments_of, emails_with_attachments_of.
  destruct (collect_work cfg (e :: rest) 0 0 []) as [[a b] c]. simpl fst; simpl snd.
  unfold bind at 1.
  destruct (process_in_parallel env cfg c w) as [[p|ex] w1]; [|reflexivity].
  unfold bind, act, logger.
  destruct ((Z.of_nat (length (e :: rest)) >? 0) && (a =? 0));
    destruct (enable_notifications cfg); reflexivity.
Qed.

Lemma fetch_calls_after_fetch env use_mock w :
  fetch_calls (after_fetch env use_mock w) = S (fetch_calls w).
Proof.
  unfold after_fetch. destruct use_mock; [reflexivity|].
  destruct (imap_session env (fetch_calls w)); reflexivity.
Qed.

(** Every run makes one fetch. *)
Lemma process_emails_fetch_calls env cfg test_mode w :
  fetch_calls (snd (process_emails env cfg test_mode w)) = S (fetch_calls w).
Proof.
  rewrite process_emails_unfold.
  pose proof (preserves_process_fetched fetch_calls
                ltac:(reflexivity) ltac:(reflexivity) ltac:(reflexivity)
                ltac:(reflexivity) ltac:(reflexivity) ltac:(reflexivity)
                env cfg (fetched env test_mode (fetch_calls w))
                (after_fetch env test_mode (add_line StartingJob w))) as Hframe.
  rewrite fetch_calls_after_fetch in Hframe.
  destruct (process_fetched _ _ _ _) as [[u|e] w']; exact Hframe.
Qed.

(** No run sleeps. *)
Lemma process_emails_naps env cfg test_mode w :
  naps (snd (process_emails env cfg test_mode w)) = naps w.
Proof. apply preserves_process_emails; reflexivity. Qed.

(** The run on an empty fetch. *)
Lemma process_emails_empty env cfg test_mode w :
  fetched env test_mode (fetch_calls w) = [] →
  process_emails env cfg test_mode w
  = (Ok tt, add_line NoEmailsToProcess
              (after_fetch env test_mode (add_line StartingJob w))).
Proof. intros He. rewrite process_emails_unfold, He. reflexivity. Qed.

Lemma after_fetch_frame env use_mock w :
  pools_spawned (after_fetch env use_mock w) = pools_spawned w
  ∧ bucket (after_fetch env use_mock w) = bucket w
  ∧ reports (after_fetch env use_mock w) = reports w
  ∧ outbox (after_fetch env use_mock w) = outbox w
  ∧ naps (after_fetch env use_mock w) = naps w.
Proof.
  unfold after_fetch. destruct use_mock; [tauto|].
  destruct (imap_session env (fetch_calls w)); simpl; tauto.
Qed.

(** C8, as stated, fails: on an empty fetch there is no summary with
    counters at zero, for the run returns before the counters are created and
    logs no summary at all, only that there is nothing to process.  A batch
    of one email without attachments, by contrast, does get a summary, with
    zero attachments. *)
Lemma empty_fetch_logs_no_summary :
  fetched quiet_env false 0 = []
  ∧ fst (process_emails quiet_env default_config false empty_world) = Ok tt
  ∧ reports (snd (process_emails quiet_env default_config false empty_world))
    = []
  ∧ journal (snd (process_emails quiet_env default_config false empty_world))
    = [StartingJob; NoEmailsToProcess]
  ∧ reports (snd (process_fetched quiet_env default_config [plain_email]
                    empty_world))
    = [ {| rs_total_emails := 1; rs_emails_with_attachments := 0;
           rs_emails_without_attachments := 1; rs_total_attachments := 0;
           rs_processed_attachments := 0 |} ].
Proof. repeat split; vm_compute; reflexivity. Qed.

(** C8 (amended): every run of [process_emails] calls [fetch_emails] once.
    When the fetch returns an empty list the run returns at once and without
    raising: it logs that there are no emails to process and nothing after
    it, no executor is created, nothing is uploaded, no notification is sent
    and no summary is logged -- the counters of the summary do not exist on
    this path. *)
Theorem process_emails_fetches_once (env : Env) (cfg : Config)
  (test_mode : bool) (w : World) :
  let emails := fetched env test_mode (fetch_calls w) in
  let run := process_emails env cfg test_mode w in
  fetch_calls (snd run) = S (fetch_calls w)
  ∧ (emails = [] →
       fst run = Ok tt
       ∧ pools_spawned (snd run) = pools_spawned w
       ∧ bucket (snd run) = bucket w
       ∧ reports (snd run) = reports w
       ∧ outbox (snd run) = outbox w
       ∧ journal (snd run)
         = journal (after_fetch env test_mode (add_line StartingJob w))
           ++ [NoEmailsToProcess]).
Proof.
  intros emails run. split; [apply process_emails_fetch_calls|].
  intros Hempty. subst run. unfold emails in Hempty.
  rewrite (process_emails_empty env cfg test_mode w Hempty).
  destruct (after_fetch_frame env test_mode (add_line StartingJob w))
    as (Hp & Hb & Hr & Ho & _).
  simpl. rewrite Hp, Hb, Hr, Ho. simpl. repeat split; reflexivity.
Qed.

Lemma process_emails_fetches_once_witness :
  fetch_calls (snd (process_emails quiet_env default_config false empty_world))
  = 1%nat
  ∧ fst (process_emails quiet_env default_config false empty_world) = Ok tt
  ∧ pools_spawned (snd (process_emails quiet_env default_config false empty_world))
    = 0%nat.
Proof.
  destruct (process_emails_fetches_once quiet_env default_config false empty_world)
    as (Hfetch & Hempty).
  destruct (Hempty eq_refl) as (Hok & Hpool & _).
  split; [exact Hfetch|]. split; [exact Hok|exact Hpool].
Defined.

Lemma send_notification_ok env cfg p t a n w :
  fst (send_notification env cfg p t a n w) = Ok tt.
Proof.
  destruct (PyStr.truthy (notification_email cfg)) eqn:Hto.
  - destruct (PyStr.truthy (email_api_key cfg)) eqn:Hkey.
    + rewrite send_notification_run by assumption. reflexivity.
    + rewrite send_notification_unconfigured by auto. reflexivity.
  - rewrite send_notification_unconfigured by auto. reflexivity.
Qed.

(** The run after a non-empty fetch, by the result of the pool. *)
Lemma process_emails_nonempty env cfg test_mode w :
  fetched env test_mode (fetch_calls w) ≠ [] →
  process_emails env cfg test_mode w
  = let emails := fetched env test_mode (fetch_calls w) in
    match process_in_parallel env cfg (work_list cfg emails)
            (after_fetch env test_mode (add_line StartingJob w)) with
    | (Raise e, w1) => (Raise e, add_line (ErrorInEmailProcessing e) w1)
    | (Ok p, w1) =>
        let w2 := add_report (summary_of cfg emails p) w1 in
        let w3 := if no_attachments_anywhere cfg emails
                  then add_line NoEmailsContainedAttachments w2 else w2 in
        if enable_notifications cfg
        then (Ok tt,
              snd (send_notification env cfg p (total_attachments_of cfg emails)
                     (emails_with_attachments_of cfg emails)
                     (Z.of_nat (length emails)) w3))
        else (Ok tt, w3)
    end.
Proof.
  intros Hne. rewrite process_emails_unfold, process_fetched_cons by exact Hne.
  cbv zeta.
  destruct (process_in_parallel _ _ _ _) as [[p|e] w1]; [|reflexivity].
  destruct (enable_notifications cfg); [|reflexivity].
  match goal with
  | |- context [send_notification ?e ?c ?p ?t ?a ?n ?w] =>
      pose proof (send_notification_ok e c p t a n w) as Hok;
      destruct (send_notification e c p t a n w) as [r w4]
  end.
  simpl in Hok. subst r. reflexivity.
Qed.

(** With a worker, the run after a non-empty fetch completes. *)
Lemma process_emails_completes env cfg test_mode w :
  fetched env test_mode (fetch_calls w) ≠ [] →
  1 <= max_workers cfg →
  fst (process_emails env cfg test_mode w) = Ok tt.
Proof.
  intros Hne Hworkers. rewrite process_emails_nonempty by exact Hne. cbv zeta.
  destruct (process_in_parallel_ok env cfg
              (work_list cfg (fetched env test_mode (fetch_calls w)))
              (after_fetch env test_mode (add_line StartingJob w)) Hworkers)
    as (p & w1 & Hrun & _).
  rewrite Hrun. destruct (enable_notifications cfg); reflexivity.
Qed.

(** C9: the counters a run reports are in order: the processed count is
    between zero and the count of eligible attachments (those that passed the
    filter, over all emails of the batch), which is at most the number of
    attachments the batch carried before filtering.  A run that completes on
    a non-empty batch reports exactly one summary, and does complete when
    there is a worker. *)
Theorem run_counters_in_order (env : Env) (cfg : Config) (test_mode : bool)
  (w : World) :
  let emails := fetched env test_mode (fetch_calls w) in
  let run := process_emails env cfg test_mode w in
  total_attachments_of cfg emails = Z.of_nat (length (eligible_items cfg emails))
  ∧ total_attachments_of cfg emails <= attachments_seen emails
  ∧ (∃ new, reports (snd run) = reports w ++ new
            ∧ Forall (counters_in_order (attachments_seen emails)) new
            ∧ (emails ≠ [] → fst run = Ok tt →
                 ∃ p, new = [summary_of cfg emails p]))
  ∧ (emails ≠ [] → 1 <= max_workers cfg → fst run = Ok tt).
Proof.
  intros emails run.
  assert (Htotal : total_attachments_of cfg emails
                   = Z.of_nat (length (eligible_items cfg emails))).
  { rewrite total_attachments_work_list, work_list_eligible. reflexivity. }
  assert (Hseen : total_attachments_of cfg emails <= attachments_seen emails).
  { rewrite Htotal. apply eligible_items_seen. }
  split; [exact Htotal|]. split; [exact Hseen|].
  destruct (after_fetch_frame env test_mode (add_line StartingJob w))
    as (_ & _ & Hr1 & _ & _).
  simpl in Hr1.
  destruct (decide (emails = [])) as [Hempty|Hne].
  - split; [|congruence]. exists []. subst run.
    rewrite (process_emails_empty env cfg test_mode w Hempty). simpl.
    rewrite Hr1, app_nil_r. split; [reflexivity|]. split; [constructor|congruence].
  - subst run. rewrite (process_emails_nonempty env cfg test_mode w Hne).
    fold emails. cbv zeta.
    pose proof (preserves_process_in_parallel reports
                  ltac:(reflexivity) ltac:(reflexivity) ltac:(reflexivity)
                  ltac:(reflexivity) env cfg (work_list cfg emails)
                  (after_fetch env test_mode (add_line StartingJob w))) as Hr2.
    rewrite Hr1 in Hr2.
    destruct (process_in_parallel env cfg (work_list cfg emails)
                (after_fetch env test_mode (add_line StartingJob w)))
      as [[p|e] w1] eqn:Hpool; simpl in Hr2.
    + assert (Hnew : ∀ w3, reports w3 = reports w ++ [summary_of cfg emails p] →
                reports (snd (if enable_notifications cfg
                   then (Ok tt,
                         snd (send_notification env cfg p
                                (total_attachments_of cfg emails)
                                (emails_with_attachments_of cfg emails)
                                (Z.of_nat (length emails)) w3))
                   else (@Ok unit tt, w3)))
                = reports w ++ [summary_of cfg emails p]
                ∧ fst (if enable_notifications cfg
                   then (Ok tt,
                         snd (send_notification env cfg p
                                (total_attachments_of cfg emails)
                                (emails_with_attachments_of cfg emails)
                                (Z.of_nat (length emails)) w3))
                   else (@Ok unit tt, w3)) = Ok tt).
      { intros w3 Hw3. destruct (enable_notifications cfg); simpl; [|auto].
        split; [|reflexivity].
        rewrite (preserves_send_notification reports
                   ltac:(reflexivity) ltac:(reflexivity)). exact Hw3. }
      match goal with
      | |- context [if enable_notifications cfg then (_, snd (send_notification _ _ _ _ _ _ ?w3)) else _] =>
          destruct (Hnew w3) as (Hrep & Hok)
      end.
      { destruct (no_attachments_anywhere cfg emails); simpl; rewrite Hr2;
          reflexivity. }
      split; [|intros _ _; exact Hok].
      exists [summary_of cfg emails p]. split; [exact Hrep|]. split; [|eauto].
      constructor; [|constructor].
      pose proof (process_in_parallel_bound _ _ _ _ _ _ Hpool) as Hb.
      unfold counters_in_order. simpl.
      rewrite total_attachments_work_list in *. lia.
    + split.
      * exists []. simpl. rewrite Hr2, app_nil_r.
        split; [reflexivity|]. split; [constructor|discriminate].
      * intros _ Hworkers.
        destruct (process_in_parallel_ok env cfg (work_list cfg emails)
                    (after_fetch env test_mode (add_line StartingJob w)) Hworkers)
          as (p' & w' & Hrun' & _).
        congruence.
Qed.

Lemma run_counters_in_order_witness :
  ∃ s, reports (snd (process_emails quiet_env default_config true empty_world))
       = [s]
       ∧ counters_in_order 10 s.
Proof.
  destruct (run_counters_in_order quiet_env default_config true empty_world)
    as (_ & _ & (new & Hrep & Hall & Hone) & Hok).
  assert (Hne : fetched quiet_env true (fetch_calls empty_world) ≠ [])
    by discriminate.
  destruct (Hone Hne (Hok Hne ltac:(simpl; lia))) as [p Hp].
  exists (summary_of default_config generate_sample_emails p).
  split.
  - rewrite Hrep, Hp. reflexivity.
  - rewrite Hp in Hall. apply Forall_inv in Hall. exact Hall.
Defined.

(** C3 (amended): when notifications are switched on and configured, a run of
    [process_emails] that fetched at least one email and completes -- as it
    does whenever there is a worker -- sends exactly one notification, whether
    or not every attachment succeeded.  Its status is [success] exactly when
    the processed count equals the count of eligible attachments and
    [partial] otherwise, and it carries the warning paragraph exactly when
    there were emails and none had attachments.  A run whose fetch returns no
    email returns before the summary and sends no notification. *)
Theorem one_notification_per_completed_run (env : Env) (cfg : Config)
  (test_mode : bool) (w : World) :
  notifications_configured cfg →
  let emails := fetched env test_mode (fetch_calls w) in
  let run := process_emails env cfg test_mode w in
  (emails = [] → fst run = Ok tt ∧ outbox (snd run) = outbox w)
  ∧ (emails ≠ [] → 1 <= max_workers cfg → fst run = Ok tt)
  ∧ (emails ≠ [] → fst run = Ok tt →
       ∃ m, outbox (snd run) = outbox w ++ [m]
            ∧ (mail_status m = "success" ↔ mail_processed m = mail_total m)
            ∧ (mail_status m = "partial" ↔ mail_processed m ≠ mail_total m)
            ∧ (mail_warning m = warning_paragraph ↔
                 mail_total_emails m > 0 ∧ mail_emails_with_attachments m = 0)
            ∧ (mail_warning m = EmptyString ↔
                 ¬ (mail_total_emails m > 0 ∧ mail_emails_with_attachments m = 0))
            ∧ mail_total_emails m = Z.of_nat (length emails)
            ∧ mail_emails_with_attachments m
              = Z.of_nat (length (List.filter has_attachments emails))
            ∧ mail_total m = Z.of_nat (length (eligible_items cfg emails))
            ∧ reports (snd run)
              = reports w ++ [summary_of cfg emails (mail_processed m)]).
Proof.
  intros (Hon & Hto & Hkey) emails run.
  destruct (after_fetch_frame env test_mode (add_line StartingJob w))
    as (_ & _ & Hr1 & Ho1 & _).
  simpl in Hr1, Ho1.
  split; [|split].
  - intros Hempty. subst run.
    rewrite (process_emails_empty env cfg test_mode w Hempty). simpl.
    split; [reflexivity|exact Ho1].
  - intros Hne Hworkers. apply process_emails_completes; assumption.
  - intros Hne. subst run.
    rewrite (process_emails_nonempty env cfg test_mode w Hne).
    fold emails. cbv zeta.
    assert (Hframe : ∀ {X} (f : World → X),
              (∀ l w0, f (add_line l w0) = f w0) →
              (∀ t w0, f (set_clock t w0) = f w0) →
              (∀ b w0, f (put_blob b w0) = f w0) →
              (∀ w0, f (count_pool w0) = f w0) →
              f (snd (process_in_parallel env cfg (work_list cfg emails)
                        (after_fetch env test_mode (add_line StartingJob w))))
              = f (after_fetch env test_mode (add_line StartingJob w))).
    { intros X f H1 H2 H3 H4. apply preserves_process_in_parallel; assumption. }
    pose proof (Hframe _ reports ltac:(reflexivity) ltac:(reflexivity)
                  ltac:(reflexivity) ltac:(reflexivity)) as Hr2.
    pose proof (Hframe _ outbox ltac:(reflexivity) ltac:(reflexivity)
                  ltac:(reflexivity) ltac:(reflexivity)) as Ho2.
    rewrite Hr1 in Hr2. rewrite Ho1 in Ho2. clear Hframe.
    destruct (process_in_parallel env cfg (work_list cfg emails)
                (after_fetch env test_mode (add_line StartingJob w)))
      as [[p|e] w1]; simpl in Hr2, Ho2; [|discriminate].
    rewrite Hon. intros _.
    rewrite send_notification_run by assumption. cbv zeta.
    exists (report_mail cfg p (total_attachments_of cfg emails)
              (emails_with_attachments_of cfg emails) (Z.of_nat (length emails))).
    assert (Hsame : ∀ {X} (f : World → X),
              (∀ l w0, f (add_line l w0) = f w0) →
              f (if no_attachments_anywhere cfg emails
                 then add_line NoEmailsContainedAttachments
                        (add_report (summary_of cfg emails p) w1)
                 else add_report (summary_of cfg emails p) w1)
              = f (add_report (summary_of cfg emails p) w1)).
    { intros X f Hf. destruct (no_attachments_anywhere cfg emails); auto. }
    split.
    { simpl. rewrite (Hsame _ outbox ltac:(reflexivity)). simpl.
      rewrite Ho2. reflexivity. }
    unfold report_mail. simpl.
    repeat split.
    + destruct (p =? total_attachments_of cfg emails) eqn:Heq;
        [apply Z.eqb_eq in Heq; auto | discriminate].
    + intros Heq. apply Z.eqb_eq in Heq. rewrite Heq. reflexivity.
    + destruct (p =? total_attachments_of cfg emails) eqn:Heq;
        [discriminate | apply Z.eqb_neq in Heq; auto].
    + intros Hneq. apply Z.eqb_neq in Hneq. rewrite Hneq. reflexivity.
    + destruct (Z.of_nat (length emails) >? 0) eqn:Hgt; simpl;
        [apply Z.gtb_lt in Hgt; lia | discriminate].
    + destruct (Z.of_nat (length emails) >? 0) eqn:Hgt; simpl; [|discriminate].
      destruct (emails_with_attachments_of cfg emails =? 0) eqn:Hz;
        [apply Z.eqb_eq in Hz; auto | discriminate].
    + intros [Hgt Hz]. rewrite Hz.
      assert (Hb : (Z.of_nat (length emails) >? 0) = true)
        by (apply Z.gtb_lt; lia).
      rewrite Hb. reflexivity.
    + intros Hw [Hgt Hz]. rewrite Hz in Hw.
      assert (Hb : (Z.of_nat (length emails) >? 0) = true)
        by (apply Z.gtb_lt; lia).
      rewrite Hb in Hw. discriminate.
    + intros Hn.
      destruct (Z.of_nat (length emails) >? 0) eqn:Hgt; simpl; [|reflexivity].
      destruct (emails_with_attachments_of cfg emails =? 0) eqn:Hz;
        [|reflexivity].
      exfalso. apply Hn. apply Z.gtb_lt in Hgt. apply Z.eqb_eq in Hz. lia.
    + apply emails_with_attachments_count.
    + rewrite total_attachments_work_list, work_list_eligible. reflexivity.
    + rewrite (Hsame _ reports ltac:(reflexivity)). simpl. rewrite Hr2.
      reflexivity.
Qed.

Lemma one_notification_per_completed_run_witness :
  ∃ m, outbox (snd (process_emails quiet_env default_config true empty_world))
       = [m]
       ∧ mail_total m = 10.
Proof.
  destruct (one_notification_per_completed_run quiet_env default_config true
              empty_world) as (_ & Hok & Hsend).
  { repeat split; reflexivity. }
  assert (Hne : fetched quiet_env true (fetch_calls empty_world) ≠ [])
    by discriminate.
  destruct (Hsend Hne (Hok Hne ltac:(simpl; lia)))
    as (m & Hout & _ & _ & _ & _ & _ & _ & Htotal & _).
  exists m. split; [exact Hout|]. rewrite Htotal. reflexivity.
Defined.

(** C3, as stated, fails: with notifications configured, the run whose fetch
    returns an empty list completes and sends nothing. *)
Lemma empty_fetch_sends_no_notification :
  notifications_configured default_config
  ∧ fetched quiet_env false (fetch_calls empty_world) = []
  ∧ fst (process_emails quiet_env default_config false empty_world) = Ok tt
  ∧ outbox (snd (process_emails quiet_env default_config false empty_world)) = [].
Proof. repeat split; vm_compute; reflexivity. Qed.

(** ** The retry loop *)

(** One iteration of the loop. *)
Lemma retry_loop_S env cfg left attempt_no w :
  retry_loop env cfg (S left) attempt_no w
  = match process_emails env cfg false
            (add_line (ProcessingAttempt attempt_no (retry_attempts cfg)) w) with
    | (Ok _, w1) => (Ok tt, add_line ProcessingCompletedSuccessfully w1)
    | (Raise e, w1) =>
        let w2 := add_line (AttemptFailed attempt_no e) w1 in
        if attempt_no <? retry_attempts cfg
        then match time_sleep env (retry_delay_seconds cfg)
                     (add_line (RetryingIn (retry_delay_seconds cfg)) w2) with
             | (Ok _, w3) => retry_loop env cfg left (attempt_no + 1) w3
             | (Raise e', w3) => (Raise e', w3)
             end
        else (Raise e, add_line AllRetryAttemptsFailed w2)
    end.
Proof.
  cbn [retry_loop]. unfold bind at 1, logger at 1, act at 1.
  unfold bind at 1, attempt.
  destruct (process_emails env cfg false _) as [[u|e] w1].
  - reflexivity.
  - unfold bind at 1, logger at 1, act at 1.
    destruct (attempt_no <? retry_attempts cfg); reflexivity.
Qed.

(** C4, as stated, fails: the mail server cannot be reached, yet the run
    completes, and the retry loop stops after this one attempt without a
    delay. *)
Lemma fetch_fault_run_completes :
  imap_session unreachable_mail_env 0 = inl imap_down
  ∧ fst (process_emails unreachable_mail_env default_config false empty_world)
    = Ok tt
  ∧ fst (run_with_retry unreachable_mail_env default_config empty_world) = Ok tt
  ∧ fetch_calls (snd (run_with_retry unreachable_mail_env default_config
                        empty_world)) = 1%nat
  ∧ naps (snd (run_with_retry unreachable_mail_env default_config empty_world))
    = [].
Proof. repeat split; vm_compute; reflexivity. Qed.

(** C4 (amended): an exception raised while [fetch_emails] talks to the mail
    server is caught inside [fetch_emails], logged, and replaced by an empty
    list.  The run then takes the no-emails return: it completes without
    raising, uploads nothing, logs no summary and sends no notification; and
    [run_with_retry], given at least one attempt, reports success after this
    single attempt, without sleeping and without a retry. *)
Theorem fetch_fault_is_swallowed (env : Env) (cfg : Config) (w : World)
  (e : Exn) :
  imap_session env (fetch_calls w) = inl e →
  fetch_emails env false w = (Ok [], add_line (FetchError e) (count_fetch w))
  ∧ (∃ w', process_emails env cfg false w = (Ok tt, w')
           ∧ journal w' = journal w ++ [StartingJob; FetchError e; NoEmailsToProcess]
           ∧ bucket w' = bucket w ∧ reports w' = reports w
           ∧ outbox w' = outbox w)
  ∧ (1 <= retry_attempts cfg →
     ∃ w', run_with_retry env cfg w = (Ok tt, w')
           ∧ fetch_calls w' = S (fetch_calls w)
           ∧ naps w' = naps w
           ∧ journal w' = journal w ++
               [ProcessingAttempt 1 (retry_attempts cfg); StartingJob;
                FetchError e; NoEmailsToProcess; ProcessingCompletedSuccessfully]).
Proof.
  intros Hfault.
  assert (Hrun : ∀ w0, fetch_calls w0 = fetch_calls w →
            process_emails env cfg false w0
            = (Ok tt, add_line NoEmailsToProcess
                        (add_line (FetchError e)
                           (count_fetch (add_line StartingJob w0))))).
  { intros w0 Hw0. rewrite process_emails_empty.
    - unfold after_fetch. simpl. rewrite Hw0, Hfault. reflexivity.
    - unfold fetched. rewrite Hw0, Hfault. reflexivity. }
  split; [|split].
  - rewrite fetch_emails_run. unfold fetched, after_fetch.
    rewrite Hfault. reflexivity.
  - eexists. split; [apply Hrun; reflexivity|]. simpl.
    rewrite <- !app_assoc. repeat split; reflexivity.
  - intros Hattempts. unfold run_with_retry.
    destruct (Z.to_nat (retry_attempts cfg)) as [|left] eqn:Hleft; [lia|].
    rewrite retry_loop_S, Hrun by reflexivity.
    eexists. split; [reflexivity|]. simpl.
    rewrite <- !app_assoc. repeat split; reflexivity.
Qed.

Lemma fetch_fault_is_swallowed_witness :
  ∃ w', run_with_retry unreachable_mail_env default_config empty_world
        = (Ok tt, w')
        ∧ fetch_calls w' = 1%nat ∧ naps w' = [].
Proof.
  destruct (fetch_fault_is_swallowed unreachable_mail_env default_config
              empty_world imap_down eq_refl) as (_ & _ & Hretry).
  destruct (Hretry ltac:(simpl; lia)) as (w' & Hrun & Hfetch & Hnaps & _).
  exists w'. split; [exact Hrun|]. split; [exact Hfetch|exact Hnaps].
Defined.

Lemma time_sleep_ok env d w :
  sleep_accepts env d →
  time_sleep env d w
  = (Ok tt, set_clock (clock w + d * ticks_per_second env) (take_nap d w)).
Proof.
  intros [Hd Hlimit]. unfold time_sleep.
  destruct (d <? - sleep_limit env) eqn:Hlow; [apply Z.ltb_lt in Hlow; lia|].
  destruct (sleep_limit env <? d) eqn:Hhigh; [apply Z.ltb_lt in Hhigh; lia|].
  destruct (d <? 0) eqn:Hneg; [apply Z.ltb_lt in Hneg; lia|reflexivity].
Qed.

(** A sleep either returns, having been recorded, or raises and leaves the
    world as it is. *)
Lemma time_sleep_cases env d w :
  time_sleep env d w
  = (Ok tt, set_clock (clock w + d * ticks_per_second env) (take_nap d w))
  ∨ ∃ e, time_sleep env d w = (Raise e, w).
Proof.
  unfold time_sleep.
  destruct ((d <? - sleep_limit env) || (sleep_limit env <? d));
    [right; eexists; reflexivity|].
  destruct (d <? 0); [right; eexists; reflexivity|left; reflexivity].
Qed.

(** [k] faulting attempts followed by a successful one, with iterations to
    spare: the loop returns, having slept [k] times. *)
Lemma retry_loop_succeeds env cfg :
  ∀ k left attempt_no w,
    ((1 <= k)%nat → sleep_accepts env (retry_delay_seconds cfg)) →
    (k < left)%nat →
    attempt_no + Z.of_nat left = retry_attempts cfg + 1 →
    (∀ i, (i < k)%nat → attempt_faults env cfg (fetch_calls w + i)) →
    attempt_succeeds env cfg (fetch_calls w + k) →
    ∃ w', retry_loop env cfg left attempt_no w = (Ok tt, w')
          ∧ naps w' = naps w ++ replicate k (retry_delay_seconds cfg)
          ∧ fetch_calls w' = S (fetch_calls w + k).
Proof.
  induction k as [|k IH];
    intros left attempt_no w Hdelay Hleft Hinv Hfaults Hsucc;
    (destruct left as [|left]; [lia|]); rewrite retry_loop_S.
  - set (w0 := add_line (ProcessingAttempt attempt_no (retry_attempts cfg)) w).
    destruct (Hsucc w0) as (w1 & Hrun); [simpl; lia|].
    pose proof (process_emails_naps env cfg false w0) as Hn.
    pose proof (process_emails_fetch_calls env cfg false w0) as Hf.
    rewrite Hrun in *. simpl in Hn, Hf.
    eexists. split; [reflexivity|]. simpl.
    rewrite Hn, Hf, app_nil_r. split; [reflexivity|]. f_equal. lia.
  - set (w0 := add_line (ProcessingAttempt attempt_no (retry_attempts cfg)) w).
    destruct (Hfaults 0%nat ltac:(lia) w0) as (e & w1 & Hrun); [simpl; lia|].
    pose proof (process_emails_naps env cfg false w0) as Hn.
    pose proof (process_emails_fetch_calls env cfg false w0) as Hf.
    rewrite Hrun in *. simpl in Hn, Hf. cbv zeta.
    assert (Hlt : (attempt_no <? retry_attempts cfg) = true)
      by (apply Z.ltb_lt; lia).
    rewrite Hlt, time_sleep_ok by (apply Hdelay; lia).
    match goal with |- context [retry_loop env cfg left _ ?w3] => set (w3' := w3) end.
    destruct (IH left (attempt_no + 1) w3') as (w' & Hloop & Hnaps & Hfetch).
    + intros _. apply Hdelay. lia.
    + lia.
    + lia.
    + intros i Hi. replace (fetch_calls w3' + i)%nat
        with (fetch_calls w + S i)%nat by (unfold w3'; simpl; lia).
      apply Hfaults. lia.
    + replace (fetch_calls w3' + k)%nat
        with (fetch_calls w + S k)%nat by (unfold w3'; simpl; lia).
      exact Hsucc.
    + exists w'. split; [exact Hloop|]. rewrite Hnaps, Hfetch.
      unfold w3'. simpl. rewrite Hn, Hf, <- app_assoc.
      split; [reflexivity|]. f_equal. lia.
Qed.

(** A loop that raises has used up its iterations: every one of them ran
    [process_emails] and saw it raise, the exception that leaves the loop is
    the one of the last iteration, and the loop slept between the
    iterations. *)
Lemma retry_loop_raise_inv env cfg :
  (2 <= retry_attempts cfg → sleep_accepts env (retry_delay_seconds cfg)) →
  ∀ left attempt_no w e w',
    1 <= attempt_no →
    attempt_no + Z.of_nat left = retry_attempts cfg + 1 →
    retry_loop env cfg left attempt_no w = (Raise e, w') →
    (1 <= left)%nat
    ∧ fetch_calls w' = (fetch_calls w + left)%nat
    ∧ naps w' = naps w ++ replicate (left - 1) (retry_delay_seconds cfg)
    ∧ (∀ i, (i < left)%nat →
         ∃ ei wi wi', fetch_calls wi = (fetch_calls w + i)%nat
                      ∧ process_emails env cfg false wi = (Raise ei, wi')
                      ∧ (i = (left - 1)%nat → ei = e)).
Proof.
  intros Hdelay. induction left as [|left IH];
    intros attempt_no w e w' Hfirst Hinv Hloop; [discriminate|].
  rewrite retry_loop_S in Hloop.
  set (w0 := add_line (ProcessingAttempt attempt_no (retry_attempts cfg)) w) in *.
  pose proof (process_emails_naps env cfg false w0) as Hn.
  pose proof (process_emails_fetch_calls env cfg false w0) as Hf.
  destruct (process_emails env cfg false w0) as [[u|e1] w1] eqn:Hrun;
    [discriminate|].
  simpl in Hn, Hf. cbv zeta in Hloop.
  destruct (attempt_no <? retry_attempts cfg) eqn:Hlt.
  - apply Z.ltb_lt in Hlt.
    rewrite time_sleep_ok in Hloop by (apply Hdelay; lia).
    match type of Hloop with
    | retry_loop env cfg left _ ?w3 = _ => set (w3' := w3) in *
    end.
    destruct (IH (attempt_no + 1) w3' e w' ltac:(lia) ltac:(lia) Hloop)
      as (Hleft & Hfetch & Hnaps & Hall).
    assert (Hf3 : fetch_calls w3' = S (fetch_calls w))
      by (unfold w3'; simpl; exact Hf).
    assert (Hn3 : naps w3' = naps w ++ [retry_delay_seconds cfg])
      by (unfold w3'; simpl; rewrite Hn; reflexivity).
    split; [lia|]. split; [lia|]. split.
    + rewrite Hnaps, Hn3, <- app_assoc.
      replace (S left - 1)%nat with (S (left - 1)) by lia. reflexivity.
    + intros [|i] Hi.
      * exists e1, w0, w1. split; [simpl; lia|]. split; [exact Hrun|]. lia.
      * destruct (Hall i ltac:(lia)) as (ei & wi & wi' & Hwi & Hri & Hlast).
        exists ei, wi, wi'. split; [lia|]. split; [exact Hri|].
        intros Heq. apply Hlast. lia.
  - apply Z.ltb_ge in Hlt. injection Hloop as <- <-.
    assert (left = 0)%nat by lia. subst left. simpl.
    split; [lia|]. split; [lia|]. split; [rewrite Hn, app_nil_r; reflexivity|].
    intros i Hi. assert (i = 0)%nat by lia. subst i.
    exists e1, w0, w1. split; [simpl; lia|]. split; [exact Hrun|reflexivity].
Qed.

(** When every attempt faults the loop raises. *)
Lemma retry_loop_exhausts env cfg :
  (2 <= retry_attempts cfg → sleep_accepts env (retry_delay_seconds cfg)) →
  ∀ left attempt_no w,
    1 <= attempt_no →
    (1 <= left)%nat →
    attempt_no + Z.of_nat left = retry_attempts cfg + 1 →
    (∀ i, (i < left)%nat → attempt_faults env cfg (fetch_calls w + i)) →
    ∃ e w', retry_loop env cfg left attempt_no w = (Raise e, w').
Proof.
  intros Hdelay. induction left as [|left IH];
    intros attempt_no w Hfirst Hleft Hinv Hfaults; [lia|].
  rewrite retry_loop_S.
  set (w0 := add_line (ProcessingAttempt attempt_no (retry_attempts cfg)) w).
  destruct (Hfaults 0%nat ltac:(lia) w0) as (e & w1 & Hrun); [simpl; lia|].
  pose proof (process_emails_fetch_calls env cfg false w0) as Hf.
  rewrite Hrun in *. simpl in Hf. cbv zeta.
  destruct (attempt_no <? retry_attempts cfg) eqn:Hlt.
  - apply Z.ltb_lt in Hlt. rewrite time_sleep_ok by (apply Hdelay; lia).
    apply IH; [lia|lia|lia|].
    intros i Hi. simpl fetch_calls. rewrite Hf.
    replace (S (fetch_calls w) + i)%nat with (fetch_calls w + S i)%nat by lia.
    apply Hfaults. lia.
  - eauto.
Qed.

(** Without a worker, a run with something to process raises. *)
Lemma process_emails_without_worker env cfg w :
  work_list cfg (fetched env false (fetch_calls w)) ≠ [] →
  max_workers cfg <= 0 →
  ∃ e w', process_emails env cfg false w = (Raise e, w').
Proof.
  intros Hwork Hworkers.
  assert (Hne : fetched env false (fetch_calls w) ≠ []).
  { intros Hempty. rewrite Hempty in Hwork. apply Hwork. reflexivity. }
  rewrite process_emails_nonempty by exact Hne. cbv zeta.
  rewrite process_in_parallel_raises by assumption. eauto.
Qed.

(** C6, as stated, fails when [time.sleep] does not take the delay.  With
    three attempts, a collaborator that makes [process_emails] fault on
    attempts 1 and 2 and succeed on attempt 3, and a delay the clock cannot
    represent, the first fault is followed by the [OverflowError] of
    [time.sleep], which leaves [run_with_retry]: one attempt, no completed
    sleep, no success.  With a negative delay it is the [ValueError] of
    [time.sleep]. *)
Lemma sleep_fault_ends_retry :
  (∀ i, (i < 2)%nat → attempt_faults (invoice_until 2) overlong_delay_config i)
  ∧ attempt_succeeds (invoice_until 2) overlong_delay_config 2
  ∧ fst (run_with_retry (invoice_until 2) overlong_delay_config empty_world)
    = Raise sleep_overflow
  ∧ fetch_calls (snd (run_with_retry (invoice_until 2) overlong_delay_config
                        empty_world)) = 1%nat
  ∧ naps (snd (run_with_retry (invoice_until 2) overlong_delay_config
                 empty_world)) = []
  ∧ fst (main (invoice_until 2) (Constructed overlong_delay_config) empty_world)
    = 1
  ∧ (∀ i, (i < 2)%nat → attempt_faults (invoice_until 2) backward_delay_config i)
  ∧ attempt_succeeds (invoice_until 2) backward_delay_config 2
  ∧ fst (run_with_retry (invoice_until 2) backward_delay_config empty_world)
    = Raise sleep_error
  ∧ fetch_calls (snd (run_with_retry (invoice_until 2) backward_delay_config
                        empty_world)) = 1%nat.
Proof.
  assert (Hsucc : ∀ cfg, attempt_succeeds (invoice_until 2) cfg 2).
  { intros cfg w Hw. eexists. apply process_emails_empty.
    rewrite Hw. reflexivity. }
  split.
  { intros i Hi w Hw. apply process_emails_without_worker; [|simpl; lia].
    rewrite Hw. simpl in *.
    destruct i as [|[|i]]; [discriminate|discriminate|lia]. }
  split; [apply Hsucc|].
  split; [vm_compute; reflexivity|]. split; [vm_compute; reflexivity|].
  split; [vm_compute; reflexivity|]. split; [vm_compute; reflexivity|].
  split.
  { intros i Hi w Hw. apply process_emails_without_worker; [|simpl; lia].
    rewrite Hw. simpl in *.
    destruct i as [|[|i]]; [discriminate|discriminate|lia]. }
  split; [apply Hsucc|].
  split; vm_compute; reflexivity.
Qed.

(** C6 (amended): if the first [k] attempts of [process_emails] fault and
    attempt [k + 1] succeeds, [k + 1] being within [retry_attempts], and if
    -- when there is a fault at all -- [retry_delay_seconds] is a length
    [time.sleep] takes (not negative and within what the clock can
    represent), then [run_with_retry] returns normally after [k + 1] attempts
    and has called [time.sleep(retry_delay_seconds)] exactly [k] times; with
    [retry_attempts = 3] and faults on attempts 1 and 2 this is two sleeps. *)
Theorem retry_succeeds_after_faults (env : Env) (cfg : Config) (k : nat)
  (w : World) :
  ((1 <= k)%nat → sleep_accepts env (retry_delay_seconds cfg)) →
  Z.of_nat k < retry_attempts cfg →
  (∀ i, (i < k)%nat → attempt_faults env cfg (fetch_calls w + i)) →
  attempt_succeeds env cfg (fetch_calls w + k) →
  ∃ w', run_with_retry env cfg w = (Ok tt, w')
        ∧ naps w' = naps w ++ replicate k (retry_delay_seconds cfg)
        ∧ length (naps w') = (length (naps w) + k)%nat
        ∧ fetch_calls w' = S (fetch_calls w + k)
        ∧ fst (main env (Constructed cfg) w) = 0.
Proof.
  intros Hdelay Hk Hfaults Hsucc.
  destruct (retry_loop_succeeds env cfg k
              (Z.to_nat (retry_attempts cfg)) 1 w Hdelay
              ltac:(lia) ltac:(lia) Hfaults Hsucc)
    as (w' & Hloop & Hnaps & Hfetch).
  exists w'. unfold main, run_with_retry. rewrite Hloop.
  split; [reflexivity|]. split; [exact Hnaps|].
  split; [rewrite Hnaps, length_app, length_replicate; reflexivity|].
  split; [exact Hfetch|reflexivity].
Qed.

Lemma retry_succeeds_after_faults_witness :
  ∃ w', run_with_retry (invoice_until 2) (no_worker_config 3) empty_world
        = (Ok tt, w')
        ∧ naps w' = [30; 30]
        ∧ fetch_calls w' = 3%nat.
Proof.
  destruct (retry_succeeds_after_faults (invoice_until 2) (no_worker_config 3)
              2 empty_world) as (w' & Hrun & Hnaps & _ & Hfetch & _).
  - intros _. unfold sleep_accepts. simpl. lia.
  - simpl. lia.
  - intros i Hi w Hw. apply process_emails_without_worker; [|simpl; lia].
    rewrite Hw. simpl in *.
    destruct i as [|[|i]]; [discriminate|discriminate|lia].
  - intros w Hw. eexists. apply process_emails_empty.
    rewrite Hw. reflexivity.
  - exists w'. split; [exact Hrun|]. split; [exact Hnaps|exact Hfetch].
Defined.

(** C7 (amended): for a constructed processor whose configuration has at
    least one attempt and, when it has more than one, a delay that
    [time.sleep] takes (not negative and within what the clock can
    represent): if [process_emails] faults on every attempt then
    [run_with_retry] makes exactly [retry_attempts] attempts, sleeping between
    them, and raises the fault of the last one; [main] then ends the process
    with status 1.  Conversely, whenever [run_with_retry] raises, all
    [retry_attempts] attempts were made, each of them faulted, and the
    exception is that of the last attempt; [main] exits with status 1 in that
    case and returns normally in every other. *)
Theorem retry_exhaustion (env : Env) (cfg : Config) (w : World) :
  1 <= retry_attempts cfg →
  (2 <= retry_attempts cfg → sleep_accepts env (retry_delay_seconds cfg)) →
  let n := Z.to_nat (retry_attempts cfg) in
  ((∀ i, (i < n)%nat → attempt_faults env cfg (fetch_calls w + i)) →
     ∃ e w', run_with_retry env cfg w = (Raise e, w')
             ∧ fetch_calls w' = (fetch_calls w + n)%nat
             ∧ naps w' = naps w ++ replicate (n - 1) (retry_delay_seconds cfg)
             ∧ (∃ wl wl', fetch_calls wl = (fetch_calls w + (n - 1))%nat
                          ∧ process_emails env cfg false wl = (Raise e, wl'))
             ∧ fst (main env (Constructed cfg) w) = 1)
  ∧ (∀ e w', run_with_retry env cfg w = (Raise e, w') →
       fetch_calls w' = (fetch_calls w + n)%nat
       ∧ (∀ i, (i < n)%nat →
            ∃ ei wi wi', fetch_calls wi = (fetch_calls w + i)%nat
                         ∧ process_emails env cfg false wi = (Raise ei, wi')
                         ∧ (i = (n - 1)%nat → ei = e)))
  ∧ (fst (main env (Constructed cfg) w) = 1
     ∨ fst (main env (Constructed cfg) w) = 0)
  ∧ (fst (main env (Constructed cfg) w) = 1 ↔
       ∃ e, fst (run_with_retry env cfg w) = Raise e).
Proof.
  intros Hattempts Hdelay n. split; [|split; [|split]].
  - intros Hfaults.
    destruct (retry_loop_exhausts env cfg Hdelay n 1 w)
      as (e & w' & Hloop); [lia|lia|lia|exact Hfaults|].
    destruct (retry_loop_raise_inv env cfg Hdelay n 1 w e w' ltac:(lia)
                ltac:(lia) Hloop)
      as (_ & Hfetch & Hnaps & Hall).
    destruct (Hall (n - 1)%nat ltac:(lia)) as (el & wl & wl' & Hwl & Hrl & Hlast).
    rewrite (Hlast eq_refl) in Hrl.
    exists e, w'. unfold main, run_with_retry. fold n. rewrite Hloop.
    split; [reflexivity|]. split; [exact Hfetch|]. split; [exact Hnaps|].
    split; [eauto|reflexivity].
  - intros e w' Hloop.
    destruct (retry_loop_raise_inv env cfg Hdelay n 1 w e w' ltac:(lia)
                ltac:(lia) Hloop)
      as (_ & Hfetch & _ & Hall).
    split; [exact Hfetch|exact Hall].
  - unfold main. destruct (run_with_retry env cfg w) as [[u|e] w']; auto.
  - unfold main. destruct (run_with_retry env cfg w) as [[u|e] w']; simpl.
    + split; [discriminate|]. intros [e He]. discriminate.
    + split; [eauto|reflexivity].
Qed.

Lemma retry_exhaustion_witness :
  ∃ e w', run_with_retry invoice_always (no_worker_config 2) empty_world
          = (Raise e, w')
          ∧ fetch_calls w' = 2%nat
          ∧ naps w' = [30]
          ∧ fst (main invoice_always (Constructed (no_worker_config 2))
                   empty_world) = 1.
Proof.
  destruct (retry_exhaustion invoice_always (no_worker_config 2) empty_world)
    as (Hraise & _); [simpl; lia|intros _; unfold sleep_accepts; simpl; lia|].
  destruct Hraise as (e & w' & Hrun & Hfetch & Hnaps & _ & Hmain).
  - intros i Hi w Hw. apply process_emails_without_worker; [|simpl; lia].
    discriminate.
  - exists e, w'. split; [exact Hrun|]. split; [exact Hfetch|].
    split; [exact Hnaps|exact Hmain].
Defined.


(** C7, as stated, fails in three ways.  A processor that cannot be
    constructed ends the process with status 1 before any attempt
    ([load_config] calls [sys.exit(1)] when a required setting is missing).
    With [retry_attempts = 0] no attempt is made and the process ends
    normally, although every attempt would fault.  With a delay that
    [time.sleep] does not take the first fault is followed by the exception
    of [time.sleep] -- its [ValueError] for a negative delay, its
    [OverflowError] for one the clock cannot represent: one attempt instead
    of two or three, and the exception raised is not the fault of an
    attempt. *)
Lemma abnormal_exit_without_exhaustion :
  main invoice_always (StartupExit 1) empty_world = (1, empty_world)
  ∧ (∀ n, attempt_faults invoice_always (no_worker_config 0) n)
  ∧ run_with_retry invoice_always (no_worker_config 0) empty_world
    = (Ok tt, empty_world)
  ∧ fst (main invoice_always (Constructed (no_worker_config 0)) empty_world) = 0
  ∧ (∀ n, attempt_faults invoice_always negative_delay_config n)
  ∧ fst (run_with_retry invoice_always negative_delay_config empty_world)
    = Raise sleep_error
  ∧ fetch_calls (snd (run_with_retry invoice_always negative_delay_config
                        empty_world)) = 1%nat
  ∧ fst (main invoice_always (Constructed negative_delay_config) empty_world) = 1
  ∧ (∀ n, attempt_faults invoice_always overlong_delay_config n)
  ∧ fst (run_with_retry invoice_always overlong_delay_config empty_world)
    = Raise sleep_overflow
  ∧ fetch_calls (snd (run_with_retry invoice_always overlong_delay_config
                        empty_world)) = 1%nat
  ∧ fst (main invoice_always (Constructed overlong_delay_config) empty_world) = 1.
Proof.
  split; [reflexivity|]. split.
  { intros n w Hw. apply process_emails_without_worker; [discriminate|simpl; lia]. }
  split; [reflexivity|]. split; [reflexivity|]. split.
  { intros n w Hw. apply process_emails_without_worker; [discriminate|simpl; lia]. }
  split; [vm_compute; reflexivity|]. split; [vm_compute; reflexivity|].
  split; [vm_compute; reflexivity|]. split.
  { intros n w Hw. apply process_emails_without_worker; [discriminate|simpl; lia]. }
  repeat split; vm_compute; reflexivity.
Qed.

(** * Further properties *)

(** ** Splitting and joining *)

(** [sep.join(s.split(sep)) == s] *)
Lemma concat_split sep s :
  String.concat (String sep EmptyString) (PyStr.split sep s) = s.
Proof.
  induction s as [|c s IH]; [reflexivity|]. cbn [PyStr.split].
  pose proof (split_nonempty sep s) as Hne.
  destruct (Ascii.eqb c sep) eqn:Hc.
  - apply Ascii.eqb_eq in Hc. subst c.
    destruct (PyStr.split sep s) as [|w ws]; [congruence|].
    transitivity (String sep (String.concat (String sep EmptyString) (w :: ws)));
      [reflexivity|f_equal; exact IH].
  - destruct (PyStr.split sep s) as [|w ws]; [congruence|].
    transitivity (String c (String.concat (String sep EmptyString) (w :: ws)));
      [destruct ws; reflexivity|f_equal; exact IH].
Qed.

(** No field of a split holds the separator. *)
Lemma split_fields_no_sep sep s :
  Forall (fun f => PyStr.contains sep f = false) (PyStr.split sep s).
Proof.
  induction s as [|c s IH]; cbn [PyStr.split].
  - constructor; [reflexivity|constructor].
  - pose proof (split_nonempty sep s) as Hne.
    destruct (Ascii.eqb c sep) eqn:Hc.
    + constructor; [reflexivity|exact IH].
    + destruct (PyStr.split sep s) as [|w ws]; [congruence|].
      inversion IH as [|? ? Hw Hws]; subst.
      constructor; [|exact Hws]. simpl. rewrite Hc. exact Hw.
Qed.

Lemma last_item_in sep s :
  PyStr.last_item (PyStr.split sep s) ∈ PyStr.split sep s.
Proof.
  unfold PyStr.last_item. pose proof (split_nonempty sep s) as Hne.
  destruct (PyStr.split sep s) as [|w ws]; [congruence|].
  apply list_elem_of_In.
  destruct (exists_last (l := w :: ws) ltac:(discriminate)) as (l' & x & ->).
  rewrite last_last. apply in_or_app. right. left. reflexivity.
Qed.

(** ** Letter case *)

Lemma lower_ascii_idem c : PyStr.lower_ascii (PyStr.lower_ascii c) = PyStr.lower_ascii c.
Proof. destruct c as [[] [] [] [] [] [] [] []]; reflexivity. Qed.

Lemma lower_ascii_dot c :
  Ascii.eqb (PyStr.lower_ascii c) "." = Ascii.eqb c ".".
Proof. destruct c as [[] [] [] [] [] [] [] []]; reflexivity. Qed.

Lemma lower_idem s : PyStr.lower (PyStr.lower s) = PyStr.lower s.
Proof.
  induction s as [|c s IH]; simpl; [reflexivity|].
  rewrite lower_ascii_idem, IH. reflexivity.
Qed.

Lemma contains_dot_lower s :
  PyStr.contains "." (PyStr.lower s) = PyStr.contains "." s.
Proof.
  induction s as [|c s IH]; simpl; [reflexivity|].
  rewrite lower_ascii_dot, IH. reflexivity.
Qed.

Lemma split_dot_lower s :
  PyStr.split "." (PyStr.lower s) = map PyStr.lower (PyStr.split "." s).
Proof.
  induction s as [|c s IH]; [reflexivity|]. cbn [PyStr.lower PyStr.split].
  rewrite lower_ascii_dot, IH.
  destruct (Ascii.eqb c "."); [reflexivity|].
  destruct (PyStr.split "." s); reflexivity.
Qed.

Lemma last_item_lower l :
  PyStr.last_item (map PyStr.lower l) = PyStr.lower (PyStr.last_item l).
Proof.
  unfold PyStr.last_item. induction l as [|x [|y l] IH]; try reflexivity.
  exact IH.
Qed.

(** The extension is read off the lower-cased file name. *)
Lemma file_extension_lower_name a :
  file_extension a
  = let fn := PyStr.lower (filename_or_empty a) in
    if PyStr.contains "." fn then PyStr.last_item (PyStr.split "." fn)
    else EmptyString.
Proof.
  unfold file_extension. cbv zeta.
  rewrite contains_dot_lower, split_dot_lower, last_item_lower. reflexivity.
Qed.

Lemma file_extension_lowercase a :
  PyStr.lower (file_extension a) = file_extension a.
Proof.
  unfold file_extension. destruct (PyStr.contains "." (filename_or_empty a));
    [apply lower_idem|reflexivity].
Qed.

Lemma file_extension_no_dot_inside a :
  PyStr.contains "." (file_extension a) = false.
Proof.
  unfold file_extension. destruct (PyStr.contains "." (filename_or_empty a));
    [|reflexivity].
  rewrite contains_dot_lower.
  pose proof (split_fields_no_sep "." (filename_or_empty a)) as Hall.
  rewrite Forall_forall in Hall. apply Hall. apply last_item_in.
Qed.

(** ** More on filter_attachments *)

Lemma filter_all_accepted cfg atts :
  Forall (accepted cfg) atts → filter (accepted cfg) atts = atts.
Proof.
  induction 1 as [|a atts Ha _ IH]; [reflexivity|].
  rewrite filter_cons_True by exact Ha. rewrite IH. reflexivity.
Qed.

Lemma filter_accepted_all cfg atts :
  Forall (accepted cfg) (filter (accepted cfg) atts).
Proof.
  apply Forall_forall. intros a Ha. apply list_elem_of_filter in Ha. tauto.
Qed.

(** X1: filtering is idempotent, it distributes over the concatenation of two
    attachment lists, and it returns unchanged a list whose attachments are
    all acceptable. *)
Theorem filter_attachments_composes (cfg : Config) (l1 l2 : list Attachment) :
  filter_attachments cfg (filter_attachments cfg l1) = filter_attachments cfg l1
  ∧ filter_attachments cfg (l1 ++ l2)
    = filter_attachments cfg l1 ++ filter_attachments cfg l2
  ∧ (Forall (accepted cfg) l1 → filter_attachments cfg l1 = l1)
  ∧ Forall (accepted cfg) (filter_attachments cfg l1).
Proof.
  rewrite !filter_attachments_filter. split; [|split; [|split]].
  - apply filter_all_accepted, filter_accepted_all.
  - apply filter_app.
  - apply filter_all_accepted.
  - apply filter_accepted_all.
Qed.

Lemma filter_attachments_composes_witness :
  filter_attachments default_config [ceiling_attachment; invoice_attachment]
  = [ceiling_attachment; invoice_attachment].
Proof.
  destruct (filter_attachments_composes default_config
              [ceiling_attachment; invoice_attachment] []) as (_ & _ & Hall & _).
  apply Hall. repeat constructor; try (apply list_elem_of_In; vm_compute; tauto);
    vm_compute; discriminate.
Defined.

(** X2: the extension the filter computes is always in lower case and never
    holds a dot.  A configured type written with a capital letter or with a
    dot therefore matches no attachment, and a list made only of such
    entries rejects everything. *)
Theorem extension_is_lowercase_without_dot (cfg : Config) (a : Attachment)
  (atts : list Attachment) :
  PyStr.lower (file_extension a) = file_extension a
  ∧ PyStr.contains "." (file_extension a) = false
  ∧ (∀ t, PyStr.lower t ≠ t ∨ PyStr.contains "." t = true → file_extension a ≠ t)
  ∧ (Forall (λ t, PyStr.lower t ≠ t ∨ PyStr.contains "." t = true)
       (attachment_types cfg) →
     filter_attachments cfg atts = []).
Proof.
  assert (Hdead : ∀ b t, PyStr.lower t ≠ t ∨ PyStr.contains "." t = true →
            file_extension b ≠ t).
  { intros b t [Hcase|Hdot] <-.
    - apply Hcase, file_extension_lowercase.
    - rewrite file_extension_no_dot_inside in Hdot. discriminate. }
  split; [apply file_extension_lowercase|].
  split; [apply file_extension_no_dot_inside|]. split; [apply Hdead|].
  intros Hall. rewrite filter_attachments_filter.
  induction atts as [|b atts IH]; [reflexivity|].
  rewrite filter_cons_False; [exact IH|].
  intros [Hin _]. rewrite Forall_forall in Hall.
  exact (Hdead b _ (Hall _ Hin) eq_refl).
Qed.

Lemma extension_is_lowercase_without_dot_witness :
  filter_attachments shouting_config
    [ceiling_attachment; invoice_attachment; readme_attachment] = [].
Proof.
  destruct (extension_is_lowercase_without_dot shouting_config readme_attachment
              [ceiling_attachment; invoice_attachment; readme_attachment])
    as (_ & _ & _ & Hnone).
  apply Hnone.
  constructor; [left; vm_compute; discriminate|].
  constructor; [right; reflexivity|]. constructor.
Defined.

(** X3: the filter does not look at the letter case of an ASCII file name:
    two attachments whose names are ASCII and differ only in case, and whose
    sizes agree, get the same extension and the same decision.  (The code
    lower-cases the extension after the split; beyond ASCII, [str.lower]
    looks at the neighbours of a letter, and the two orders differ.) *)
Theorem filter_ignores_letter_case (cfg : Config) (a b : Attachment) :
  PyStr.is_ascii (filename_or_empty a) = true →
  PyStr.is_ascii (filename_or_empty b) = true →
  PyStr.lower (filename_or_empty a) = PyStr.lower (filename_or_empty b) →
  size_or_zero a = size_or_zero b →
  file_extension a = file_extension b
  ∧ (filter_attachments cfg [a] = [a] ↔ filter_attachments cfg [b] = [b])
  ∧ (filter_attachments cfg [a] = [] ↔ filter_attachments cfg [b] = []).
Proof.
  intros _ _ Hname Hsize.
  assert (Hext : file_extension a = file_extension b).
  { rewrite (file_extension_lower_name a), (file_extension_lower_name b).
    cbv zeta. rewrite Hname. reflexivity. }
  assert (Hacc : accepted cfg a ↔ accepted cfg b).
  { unfold accepted. rewrite Hext, Hsize. reflexivity. }
  assert (Hone : ∀ x, (filter_attachments cfg [x] = [x] ↔ accepted cfg x)
                      ∧ (filter_attachments cfg [x] = [] ↔ ¬ accepted cfg x)).
  { intros x. rewrite filter_attachments_filter.
    destruct (decide (accepted cfg x)) as [Hx|Hx].
    - rewrite filter_cons_True by exact Hx. simpl.
      split; split; try tauto; try discriminate; auto.
    - rewrite filter_cons_False by exact Hx. simpl.
      split; split; try tauto; try discriminate; auto. }
  split; [exact Hext|].
  destruct (Hone a) as [Ha1 Ha2]. destruct (Hone b) as [Hb1 Hb2]. tauto.
Qed.

Lemma filter_ignores_letter_case_witness :
  file_extension ceiling_attachment = file_extension oversize_attachment.
Proof.
  destruct (filter_ignores_letter_case default_config ceiling_attachment
              (mock_attachment "SCAN.pdf" 26214400 "application/pdf"))
    as (Hext & _); [reflexivity|reflexivity|reflexivity|reflexivity|].
  rewrite Hext. reflexivity.
Defined.

(** X4: an attachment dict without a [filename] key is filtered as if its
    extension were the empty string, and one without a [size] key as if its
    size were zero: the first is kept only when the empty string is a
    configured type, the second passes the size check whenever the ceiling is
    not negative. *)
Theorem filter_attachments_missing_keys (cfg : Config) (a : Attachment)
  (atts : list Attachment) :
  (filename a = None →
     (a ∈ filter_attachments cfg atts ↔
        a ∈ atts ∧ EmptyString ∈ attachment_types cfg
        ∧ size_or_zero a <= max_size_bytes cfg))
  ∧ (size a = None →
     (a ∈ filter_attachments cfg atts ↔
        a ∈ atts ∧ file_extension a ∈ attachment_types cfg
        ∧ 0 <= max_attachment_size_mb cfg)).
Proof.
  rewrite filter_attachments_filter, list_elem_of_filter. unfold accepted.
  split.
  - intros Hfn. unfold file_extension, filename_or_empty. rewrite Hfn. simpl.
    tauto.
  - intros Hsz. unfold size_or_zero, max_size_bytes. rewrite Hsz. simpl.
    split; intros (H1 & H2); repeat split; try tauto; lia.
Qed.

Lemma filter_attachments_missing_keys_witness :
  bare_attachment ∈ filter_attachments trailing_comma_config [bare_attachment]
  ∧ bare_attachment ∉ filter_attachments default_config [bare_attachment].
Proof.
  destruct (filter_attachments_missing_keys trailing_comma_config bare_attachment
              [bare_attachment]) as (Hkeep & _).
  destruct (filter_attachments_missing_keys default_config bare_attachment
              [bare_attachment]) as (Hdrop & _).
  split.
  - apply (Hkeep eq_refl). split; [|split].
    + apply list_elem_of_In. simpl. tauto.
    + apply list_elem_of_In. simpl. tauto.
    + vm_compute. discriminate.
  - intros Hin. apply (Hdrop eq_refl) in Hin as (_ & Hempty & _).
    apply list_elem_of_In in Hempty. simpl in Hempty. intuition discriminate.
Defined.

(** ** fetch_emails, the Gmail branch *)

(** The batch limit always keeps a prefix: the first [n] messages, or all but
    the last [-n] when [n] is negative. *)
Lemma limit_batch_take {A} (n : Z) (l : list A) :
  limit_batch n l
  = take (Z.to_nat (if n <? 0 then Z.of_nat (length l) + n else n)) l.
Proof.
  unfold limit_batch.
  destruct (Z.of_nat (length l) >? n) eqn:Hgt;
    [destruct (n <? 0); reflexivity|].
  rewrite Z.gtb_ltb in Hgt. apply Z.ltb_ge in Hgt.
  destruct (n <? 0) eqn:Hneg; [apply Z.ltb_lt in Hneg; lia|].
  rewrite take_ge by lia. reflexivity.
Qed.

Lemma sublist_bool_filter {A} (f : A → bool) (l : list A) :
  sublist (List.filter f l) l.
Proof.
  induction l as [|x l IH]; simpl; [constructor|].
  destruct (f x); [apply sublist_skip|apply sublist_cons]; exact IH.
Qed.

Lemma gmail_emails_have_attachments env found :
  Forall (λ e, attachments e ≠ []) (gmail_emails env found).
Proof.
  unfold gmail_emails. apply Forall_forall. intros e He.
  apply list_elem_of_In, filter_In in He as [_ He].
  unfold has_attachments in He. destruct (attachments e); [discriminate|].
  discriminate.
Qed.

(** X5: in the Gmail branch [fetch_emails] never raises.  What it returns is
    a subsequence of the messages the session found, every one of them with
    at least one attachment, taken from the first [PROCESSING_BATCH_SIZE]
    messages found (10 when the variable is unset; a negative value drops
    that many from the end instead); when the session raises, the result is
    the empty list and the error is logged. *)
Theorem fetch_emails_gmail_batch (env : Env) (w : World) :
  let batch := default 10 (batch_size_env env) in
  ∃ emails w',
    fetch_emails env false w = (Ok emails, w')
    ∧ fetch_calls w' = S (fetch_calls w)
    ∧ Forall (λ e, attachments e ≠ []) emails
    ∧ (∀ found, imap_session env (fetch_calls w) = inr found →
         sublist emails found
         ∧ emails = List.filter has_attachments
                      (take (Z.to_nat (if batch <? 0
                                       then Z.of_nat (length found) + batch
                                       else batch)) found)
         ∧ (0 <= batch → Z.of_nat (length emails) <= batch)
         ∧ journal w' = journal w)
    ∧ (∀ e, imap_session env (fetch_calls w) = inl e →
         emails = [] ∧ journal w' = journal w ++ [FetchError e]).
Proof.
  intros batch. rewrite fetch_emails_run. eexists _, _. split; [reflexivity|].
  split; [apply fetch_calls_after_fetch|].
  unfold fetched, after_fetch.
  destruct (imap_session env (fetch_calls w)) as [e|found]; split.
  - constructor.
  - split; [discriminate|]. intros e' [= <-]. split; reflexivity.
  - apply gmail_emails_have_attachments.
  - split; [|discriminate]. intros found' [= <-].
    unfold gmail_emails. fold batch. rewrite limit_batch_take.
    split; [|split; [reflexivity|split; [|reflexivity]]].
    + etransitivity; [apply sublist_bool_filter|apply sublist_take].
    + intros Hbatch.
      destruct (batch <? 0) eqn:Hneg; [apply Z.ltb_lt in Hneg; lia|].
      pose proof (filter_length_le has_attachments
                    (take (Z.to_nat batch) found)) as Hle.
      rewrite length_take in Hle. lia.
Qed.

Lemma fetch_emails_gmail_batch_witness :
  ∃ emails w',
    fetch_emails busy_env false empty_world = (Ok emails, w')
    ∧ sublist emails busy_inbox
    ∧ length emails = 7%nat.
Proof.
  destruct (fetch_emails_gmail_batch busy_env empty_world)
    as (emails & w' & Hrun & _ & _ & Hfound & _).
  destruct (Hfound busy_inbox eq_refl) as (Hsub & Heq & _).
  exists emails, w'. split; [exact Hrun|]. split; [exact Hsub|].
  rewrite Heq. reflexivity.
Defined.

(** ** What a run uploads, reports and sends *)

(** One call of the worker uploads one blob when it succeeds and none
    otherwise; the blob carries the metadata of the attachment and an empty
    payload. *)
Lemma process_single_attachment_upload env a subj w :
  ∃ o w',
    process_single_attachment env a subj w = (Ok o, w')
    ∧ bucket w' = bucket w ++ (if out_success o then [blob_of env a (clock w)]
                               else []).
Proof.
  unfold process_single_attachment, bind, try_except, time_time, parse_attachment.
  destruct (parse_fault env a) as [e|] eqn:Hparse.
  - simpl. eexists _, _. split; [reflexivity|]. simpl. rewrite app_nil_r.
    reflexivity.
  - unfold bind, time_time, ret. rewrite upload_to_datastore_run. simpl.
    destruct (gcs_fault env _ (bucket w)); simpl.
    + eexists _, _. split; [reflexivity|]. simpl. rewrite app_nil_r. reflexivity.
    + eexists _, _. split; [reflexivity|]. reflexivity.
Qed.

Lemma run_tasks_uploads env workers fuel pending w :
  ∃ done w' bs,
    run_tasks env workers fuel pending w = (Ok done, w')
    ∧ bucket w' = bucket w ++ bs
    ∧ length bs = length (List.filter counted done)
    ∧ Forall (λ b, blob_payload b = EmptyString) bs.
Proof.
  revert pending w. induction fuel as [|fuel IH]; intros pending w.
  - exists [], w, []. simpl. rewrite app_nil_r. repeat split. constructor.
  - cbn [run_tasks].
    destruct (take workers pending !! _) as [fut|].
    + destruct (process_single_attachment_upload env
                  (item_attachment (fut_item fut))
                  (item_email_subject (fut_item fut)) w)
        as (o & w1 & Hrun & Hb1).
      match goal with
      | |- context [run_tasks env workers fuel ?pend] =>
          destruct (IH pend w1) as (rest & w2 & bs & Hrest & Hb2 & Hlen & Hall)
      end.
      eexists ((fut, Ok o) :: rest), w2, _.
      split; [unfold bind, attempt; rewrite Hrun, Hrest; reflexivity|].
      split; [rewrite Hb2, Hb1, <- app_assoc; reflexivity|].
      replace (List.filter counted ((fut, Ok o) :: rest))
        with (if out_success o then (fut, Ok o) :: List.filter counted rest
              else List.filter counted rest) by reflexivity.
      destruct (out_success o); simpl; split; try lia; try exact Hall.
      constructor; [reflexivity|exact Hall].
    + exists [], w, []. simpl. rewrite app_nil_r. repeat split. constructor.
Qed.

(** Counting does not depend on the order. *)
Lemma filter_length_Permutation {A} (f : A → bool) (l l' : list A) :
  l ≡ₚ l' → length (List.filter f l) = length (List.filter f l').
Proof.
  induction 1 as [|x l l' _ IH|x y l|l l' l'' _ IH1 _ IH2]; simpl.
  - reflexivity.
  - destruct (f x); simpl; rewrite IH; reflexivity.
  - destruct (f x), (f y); reflexivity.
  - rewrite IH1. exact IH2.
Qed.

Lemma as_completed_uploads env workers fuel pending w :
  ∃ done w' bs,
    as_completed env workers fuel pending w = (Ok done, w')
    ∧ bucket w' = bucket w ++ bs
    ∧ length bs = length (List.filter counted done)
    ∧ Forall (λ b, blob_payload b = EmptyString) bs.
Proof.
  destruct (run_tasks_uploads env workers fuel pending w)
    as (finished & w' & bs & Hrun & Hb & Hlen & Hall).
  exists (yield_all env (length finished) finished), w', bs.
  split; [unfold as_completed, bind; rewrite Hrun; reflexivity|].
  split; [exact Hb|]. split; [|exact Hall].
  rewrite Hlen. symmetry. apply filter_length_Permutation.
  apply yield_all_Permutation. reflexivity.
Qed.

Lemma add_lines_frame ls w :
  bucket (add_lines ls w) = bucket w
  ∧ outbox (add_lines ls w) = outbox w
  ∧ reports (add_lines ls w) = reports w.
Proof.
  revert w. induction ls as [|l ls IH]; intros w; [repeat split|].
  simpl. destruct (IH (add_line l w)) as (Hb & Ho & Hr).
  rewrite Hb, Ho, Hr. repeat split.
Qed.

(** The pool counts as processed exactly what it uploads. *)
Lemma process_in_parallel_uploads env cfg all w p w' :
  process_in_parallel env cfg all w = (Ok p, w') →
  ∃ bs, bucket w' = bucket w ++ bs
        ∧ Z.of_nat (length bs) = p
        ∧ Forall (λ b, blob_payload b = EmptyString) bs.
Proof.
  intros Hrun. destruct all as [|it rest].
  - simpl in Hrun. injection Hrun as <- <-. exists []. rewrite app_nil_r.
    repeat split. constructor.
  - unfold process_in_parallel, run_executor, bind, logger, act in Hrun.
    destruct (max_workers cfg <=? 0); [discriminate|].
    match type of Hrun with
    | context [as_completed env ?n ?f ?pend ?w0] =>
        destruct (as_completed_uploads env n f pend w0)
          as (done & w1 & bs & Hdone & Hb & Hlen & Hall)
    end.
    rewrite Hdone, collect_results_spec in Hrun. injection Hrun as <- <-.
    destruct (add_lines_frame (map result_line done) w1) as (Hb' & _).
    exists bs. rewrite Hb', Hb. simpl. repeat split; [lia|exact Hall].
Qed.

(** The three ways a run can go, with what each leaves in the bucket, in the
    reports and in the outbox. *)
Lemma process_emails_effects env cfg test_mode w :
  let emails := fetched env test_mode (fetch_calls w) in
  let run := process_emails env cfg test_mode w in
  (emails = [] ∧ fst run = Ok tt
   ∧ bucket (snd run) = bucket w ∧ reports (snd run) = reports w
   ∧ outbox (snd run) = outbox w)
  ∨ (work_list cfg emails ≠ [] ∧ max_workers cfg <= 0
     ∧ fst run = Raise no_worker_error
     ∧ bucket (snd run) = bucket w ∧ reports (snd run) = reports w
     ∧ outbox (snd run) = outbox w)
  ∨ (emails ≠ [] ∧ (work_list cfg emails = [] ∨ 1 <= max_workers cfg)
     ∧ fst run = Ok tt
     ∧ ∃ p bs,
         0 <= p <= Z.of_nat (length (work_list cfg emails))
         ∧ bucket (snd run) = bucket w ++ bs
         ∧ Z.of_nat (length bs) = p
         ∧ Forall (λ b, blob_payload b = EmptyString) bs
         ∧ reports (snd run) = reports w ++ [summary_of cfg emails p]
         ∧ outbox (snd run)
           = outbox w ++ (if notifications_on cfg then [mail_of cfg emails p]
                          else [])).
Proof.
  intros emails run.
  destruct (after_fetch_frame env test_mode (add_line StartingJob w))
    as (_ & Hb1 & Hr1 & Ho1 & _).
  simpl in Hb1, Hr1, Ho1.
  destruct (decide (emails = [])) as [Hempty|Hne].
  { left. subst run. rewrite (process_emails_empty env cfg test_mode w Hempty).
    simpl. rewrite Hb1, Hr1, Ho1. repeat split; assumption. }
  right. subst run. rewrite (process_emails_nonempty env cfg test_mode w Hne).
  fold emails. cbv zeta.
  set (w1 := after_fetch env test_mode (add_line StartingJob w)) in *.
  destruct (decide (work_list cfg emails ≠ [] ∧ max_workers cfg <= 0))
    as [[Hwork Hworkers]|Hrunable].
  { left. rewrite process_in_parallel_raises by assumption. simpl.
    rewrite Hb1, Hr1, Ho1. repeat split; assumption. }
  right.
  assert (Hcan : work_list cfg emails = [] ∨ 1 <= max_workers cfg).
  { destruct (work_list cfg emails); [left; reflexivity|].
    right. destruct (Z.le_gt_cases 1 (max_workers cfg)); [assumption|].
    exfalso. apply Hrunable. split; [discriminate|lia]. }
  assert (Hok : ∃ p w2, process_in_parallel env cfg (work_list cfg emails) w1
                        = (Ok p, w2)).
  { destruct Hcan as [Hnil|Hworkers].
    - rewrite Hnil. eexists _, _. reflexivity.
    - destruct (process_in_parallel_ok env cfg (work_list cfg emails) w1 Hworkers)
        as (p & w2 & Hrun & _). eauto. }
  destruct Hok as (p & w2 & Hpool).
  pose proof (process_in_parallel_bound _ _ _ _ _ _ Hpool) as Hbound.
  destruct (process_in_parallel_uploads _ _ _ _ _ _ Hpool)
    as (bs & Hb2 & Hlen & Hall).
  assert (Hr2 : reports w2 = reports w).
  { pose proof (preserves_process_in_parallel reports
                  ltac:(reflexivity) ltac:(reflexivity) ltac:(reflexivity)
                  ltac:(reflexivity) env cfg (work_list cfg emails) w1) as H.
    rewrite Hpool in H. simpl in H. congruence. }
  assert (Ho2 : outbox w2 = outbox w).
  { pose proof (preserves_process_in_parallel outbox
                  ltac:(reflexivity) ltac:(reflexivity) ltac:(reflexivity)
                  ltac:(reflexivity) env cfg (work_list cfg emails) w1) as H.
    rewrite Hpool in H. simpl in H. congruence. }
  rewrite Hpool.
  split; [exact Hne|]. split; [exact Hcan|].
  split; [destruct (enable_notifications cfg); reflexivity|].
  exists p, bs. split; [exact Hbound|].
  set (w3 := if no_attachments_anywhere cfg emails
             then add_line NoEmailsContainedAttachments
                    (add_report (summary_of cfg emails p) w2)
             else add_report (summary_of cfg emails p) w2).
  assert (Hw3 : bucket w3 = bucket w ++ bs
                ∧ reports w3 = reports w ++ [summary_of cfg emails p]
                ∧ outbox w3 = outbox w).
  { unfold w3. destruct (no_attachments_anywhere cfg emails); simpl;
      rewrite Hb2, Hb1, Hr2, Ho2; repeat split. }
  destruct Hw3 as (Hb3 & Hr3 & Ho3).
  unfold notifications_on.
  destruct (enable_notifications cfg); simpl.
  - destruct (PyStr.truthy (notification_email cfg)) eqn:Hto;
      [destruct (PyStr.truthy (email_api_key cfg)) eqn:Hkey|].
    + rewrite send_notification_run by assumption. simpl.
      rewrite Hb3, Hr3, Ho3. repeat split; assumption.
    + rewrite send_notification_unconfigured by auto. simpl.
      rewrite Hb3, Hr3, Ho3, app_nil_r. repeat split; assumption.
    + rewrite send_notification_unconfigured by auto. simpl.
      rewrite Hb3, Hr3, Ho3, app_nil_r. repeat split; assumption.
  - rewrite Hb3, Hr3, Ho3, app_nil_r. repeat split; assumption.
Qed.

Lemma fetched_gmail_have_attachments env n :
  Forall (λ e, has_attachments e = true) (fetched env false n).
Proof.
  unfold fetched. destruct (imap_session env n) as [e|found]; [constructor|].
  unfold gmail_emails. apply Forall_forall. intros e He.
  apply list_elem_of_In, filter_In in He as [_ He]. exact He.
Qed.

Lemma bool_filter_all {A} (f : A → bool) (l : list A) :
  Forall (λ x, f x = true) l → List.filter f l = l.
Proof.
  induction 1 as [|x l Hx _ IH]; [reflexivity|].
  simpl. rewrite Hx, IH. reflexivity.
Qed.

(** X6: a run on the Gmail branch never reports the case "there were emails
    but none had attachments": the emails it works on all have attachments,
    so every summary it logs counts zero emails without attachments and every
    notification it sends comes without the warning paragraph. *)
Theorem gmail_run_never_warns (env : Env) (cfg : Config) (w : World) :
  let emails := fetched env false (fetch_calls w) in
  let run := process_emails env cfg false w in
  emails_with_attachments_of cfg emails = Z.of_nat (length emails)
  ∧ no_attachments_anywhere cfg emails = false
  ∧ (∃ new_reports new_mails,
       reports (snd run) = reports w ++ new_reports
       ∧ outbox (snd run) = outbox w ++ new_mails
       ∧ Forall (λ s, rs_emails_without_attachments s = 0) new_reports
       ∧ Forall (λ m, mail_warning m = EmptyString
                      ∧ mail_emails_with_attachments m = mail_total_emails m)
           new_mails).
Proof.
  intros emails run.
  assert (Hall : emails_with_attachments_of cfg emails = Z.of_nat (length emails)).
  { rewrite emails_with_attachments_count.
    rewrite bool_filter_all by apply fetched_gmail_have_attachments.
    reflexivity. }
  assert (Hquiet : no_attachments_anywhere cfg emails = false).
  { unfold no_attachments_anywhere. rewrite Hall.
    destruct (Z.of_nat (length emails) >? 0) eqn:Hgt; [|reflexivity].
    apply Z.gtb_lt in Hgt. simpl. apply Z.eqb_neq. lia. }
  split; [exact Hall|]. split; [exact Hquiet|].
  destruct (process_emails_effects env cfg false w)
    as [(_ & _ & _ & Hr & Ho)|[(_ & _ & _ & _ & Hr & Ho)
       |(_ & _ & _ & p & bs & _ & _ & _ & _ & Hr & Ho)]];
    fold emails run in Hr, Ho.
  - exists [], []. rewrite !app_nil_r. repeat split; auto.
  - exists [], []. rewrite !app_nil_r. repeat split; auto.
  - eexists _, _. split; [exact Hr|]. split; [exact Ho|]. split.
    + constructor; [|constructor]. simpl. lia.
    + destruct (notifications_on cfg); constructor; [|constructor].
      unfold mail_of, report_mail. simpl.
      fold (no_attachments_anywhere cfg emails). rewrite Hquiet.
      split; [reflexivity|exact Hall].
Qed.

(** X7: every blob the worker writes carries the metadata of its attachment
    and an empty payload, whatever the [data] of the attachment: the parsed
    dict has no [data] key.  A call uploads one blob when it succeeds and none
    when it fails, and a whole run only appends such blobs to the bucket. *)
Theorem uploads_carry_no_payload (env : Env) (cfg : Config) (test_mode : bool)
  (a : Attachment) (email_subject : string) (w : World) :
  (∃ o w',
     process_single_attachment env a email_subject w = (Ok o, w')
     ∧ bucket w' = bucket w ++ (if out_success o then [blob_of env a (clock w)]
                                else []))
  ∧ blob_payload (blob_of env a (clock w)) = EmptyString
  ∧ (∃ bs, bucket (snd (process_emails env cfg test_mode w)) = bucket w ++ bs
           ∧ Forall (λ b, blob_payload b = EmptyString) bs).
Proof.
  split; [apply process_single_attachment_upload|]. split; [reflexivity|].
  destruct (process_emails_effects env cfg test_mode w)
    as [(_ & _ & Hb & _)|[(_ & _ & _ & Hb & _)
       |(_ & _ & _ & p & bs & _ & Hb & _ & Hall & _)]].
  - exists []. rewrite app_nil_r. split; [exact Hb|constructor].
  - exists []. rewrite app_nil_r. split; [exact Hb|constructor].
  - exists bs. split; [exact Hb|exact Hall].
Qed.

(** X8: the number of processed attachments a run reports is the number of
    blobs it uploaded, and it never uploads more blobs than there are
    eligible attachments; a run that raises has uploaded nothing. *)
Theorem processed_count_is_upload_count (env : Env) (cfg : Config)
  (test_mode : bool) (w : World) :
  let emails := fetched env test_mode (fetch_calls w) in
  let run := process_emails env cfg test_mode w in
  ∃ bs, bucket (snd run) = bucket w ++ bs
        ∧ (length bs <= length (eligible_items cfg emails))%nat
        ∧ (emails ≠ [] → fst run = Ok tt →
             reports (snd run)
             = reports w ++ [summary_of cfg emails (Z.of_nat (length bs))])
        ∧ (fst run ≠ Ok tt → bs = []).
Proof.
  intros emails run.
  pose proof (process_emails_effects env cfg test_mode w) as Heff.
  cbv zeta in Heff. fold emails in Heff. fold run in Heff.
  destruct Heff
    as [(Hempty & Hok & Hb & _)|[(_ & _ & Hraise & Hb & _)
       |(_ & _ & Hok & p & bs & Hp & Hb & Hlen & _ & Hr & _)]].
  - exists []. rewrite app_nil_r. split; [exact Hb|]. split; [simpl; lia|].
    split; [congruence|reflexivity].
  - exists []. rewrite app_nil_r. split; [exact Hb|]. split; [simpl; lia|].
    split; [congruence|reflexivity].
  - exists bs. split; [exact Hb|]. rewrite work_list_eligible in Hp.
    split; [lia|]. split; [intros _ _; rewrite Hlen; exact Hr|congruence].
Qed.

(** X9: a run of [process_emails] raises in one case only: there are eligible
    attachments and [max_workers] is not positive, the exception being the
    [ValueError] of the executor.  Failures of the mail server, of an upload
    or of SendGrid never make it raise.  A run that raises has uploaded
    nothing, logged no summary and sent no notification. *)
Theorem process_emails_raises_only_without_worker (env : Env) (cfg : Config)
  (test_mode : bool) (w : World) :
  let emails := fetched env test_mode (fetch_calls w) in
  let run := process_emails env cfg test_mode w in
  (fst run = Ok tt ∨ fst run = Raise no_worker_error)
  ∧ (fst run = Raise no_worker_error ↔
       eligible_items cfg emails ≠ [] ∧ max_workers cfg <= 0)
  ∧ (fst run ≠ Ok tt →
       bucket (snd run) = bucket w ∧ reports (snd run) = reports w
       ∧ outbox (snd run) = outbox w).
Proof.
  intros emails run. rewrite <- work_list_eligible.
  pose proof (process_emails_effects env cfg test_mode w) as Heff.
  cbv zeta in Heff. fold emails in Heff. fold run in Heff.
  destruct Heff
    as [(Hempty & Hok & Hb & Hr & Ho)|[(Hwork & Hworkers & Hraise & Hb & Hr & Ho)
       |(_ & Hcan & Hok & _)]].
  - split; [left; exact Hok|]. split; [|tauto].
    rewrite Hok. split; [discriminate|]. intros [Hwork _].
    exfalso. apply Hwork. rewrite Hempty. reflexivity.
  - split; [right; exact Hraise|]. split; [|tauto]. tauto.
  - split; [left; exact Hok|]. split; [|congruence].
    rewrite Hok. split; [discriminate|]. intros [Hwork Hworkers].
    destruct Hcan; [contradiction|lia].
Qed.

(** X10: a run sends at most one notification, and none unless notifications
    are enabled and both the notification address and the API key are set.
    In a notification the processed and the failed counts are not negative
    and add up to the total; the subject ends in [Success] when nothing
    failed and in [Partial] otherwise; it goes from the configured sender to
    the configured address. *)
Theorem notification_figures_add_up (env : Env) (cfg : Config)
  (test_mode : bool) (w : World) :
  let run := process_emails env cfg test_mode w in
  ∃ new,
    outbox (snd run) = outbox w ++ new
    ∧ (length new <= 1)%nat
    ∧ (notifications_on cfg = false → new = [])
    ∧ Forall (λ m,
        0 <= mail_processed m ∧ 0 <= mail_failed m
        ∧ mail_processed m + mail_failed m = mail_total m
        ∧ (mail_failed m = 0 ∧ mail_status m = "success"
           ∧ mail_subject m = "Email Processor Report - Success"
           ∨ 0 < mail_failed m ∧ mail_status m = "partial"
             ∧ mail_subject m = "Email Processor Report - Partial")
        ∧ mail_from m = email_address cfg
        ∧ mail_to m = notification_email cfg) new.
Proof.
  intros run.
  destruct (process_emails_effects env cfg test_mode w)
    as [(_ & _ & _ & _ & Ho)|[(_ & _ & _ & _ & _ & Ho)
       |(_ & _ & _ & p & bs & Hp & _ & _ & _ & _ & Ho)]];
    fold run in Ho.
  - exists []. rewrite app_nil_r. split; [exact Ho|]. split; [simpl; lia|].
    split; [reflexivity|constructor].
  - exists []. rewrite app_nil_r. split; [exact Ho|]. split; [simpl; lia|].
    split; [reflexivity|constructor].
  - eexists. split; [exact Ho|].
    destruct (notifications_on cfg).
    2: { split; [simpl; lia|]. split; [reflexivity|constructor]. }
    split; [simpl; lia|]. split; [discriminate|].
    constructor; [|constructor].
    unfold mail_of, report_mail. simpl.
    rewrite total_attachments_work_list.
    set (total := Z.of_nat (length (work_list cfg
                    (fetched env test_mode (fetch_calls w))))) in *.
    split; [lia|]. split; [lia|]. split; [lia|]. split; [|split; reflexivity].
    destruct (p =? total) eqn:Heq.
    + apply Z.eqb_eq in Heq. left. split; [lia|]. split; reflexivity.
    + apply Z.eqb_neq in Heq. right. split; [lia|]. split; reflexivity.
Qed.

(** ** The loop over the emails *)

Lemma bool_filter_partition {A} (f : A → bool) (l : list A) :
  (length (List.filter f l) + length (List.filter (λ x, negb (f x)) l))%nat
  = length l.
Proof.
  induction l as [|x l IH]; [reflexivity|]. simpl.
  destruct (f x); simpl; lia.
Qed.

(** X11: the summary of a run splits the emails of the batch into those with
    and those without attachments -- the two counts are the numbers of such
    emails and add up to the total -- its attachment total is the number of
    eligible attachments, and it counts no more processed than eligible
    ones.  A run logs at most one summary, and none on an empty batch. *)
Theorem summary_counts_partition (env : Env) (cfg : Config) (test_mode : bool)
  (w : World) :
  let emails := fetched env test_mode (fetch_calls w) in
  let run := process_emails env cfg test_mode w in
  ∃ new,
    reports (snd run) = reports w ++ new
    ∧ (length new <= 1)%nat
    ∧ (emails = [] → new = [])
    ∧ Forall (λ s,
        rs_total_emails s = Z.of_nat (length emails)
        ∧ rs_emails_with_attachments s
          = Z.of_nat (length (List.filter has_attachments emails))
        ∧ rs_emails_without_attachments s
          = Z.of_nat (length (List.filter (λ e, negb (has_attachments e)) emails))
        ∧ rs_emails_with_attachments s + rs_emails_without_attachments s
          = rs_total_emails s
        ∧ rs_total_attachments s = Z.of_nat (length (eligible_items cfg emails))
        ∧ 0 <= rs_processed_attachments s <= rs_total_attachments s) new.
Proof.
  intros emails run.
  pose proof (process_emails_effects env cfg test_mode w) as Heff.
  cbv zeta in Heff. fold emails in Heff. fold run in Heff.
  destruct Heff
    as [(_ & _ & _ & Hr & _)|[(_ & _ & _ & _ & Hr & _)
       |(Hne & _ & _ & p & bs & Hp & _ & _ & _ & Hr & _)]].
  - exists []. rewrite app_nil_r. split; [exact Hr|]. split; [simpl; lia|].
    split; [reflexivity|constructor].
  - exists []. rewrite app_nil_r. split; [exact Hr|]. split; [simpl; lia|].
    split; [reflexivity|constructor].
  - eexists. split; [exact Hr|]. split; [simpl; lia|].
    split; [contradiction|]. constructor; [|constructor].
    unfold summary_of. simpl.
    rewrite emails_with_attachments_count, total_attachments_work_list.
    pose proof (bool_filter_partition has_attachments emails) as Hpart.
    rewrite work_list_eligible in *.
    repeat split; lia.
Qed.

Lemma eligible_items_cons cfg e rest :
  eligible_items cfg (e :: rest)
  = map (fun a => {| item_attachment := a;
                     item_email_subject := subject_or_default e |})
        (filter_attachments cfg (attachments e))
    ++ eligible_items cfg rest.
Proof. reflexivity. Qed.

(** X12: the work list of a batch holds exactly the attachments the filter
    accepts, each paired with the subject of its email ([No Subject] when the
    email has none); it is built email by email, in the order of the batch,
    the attachments of one email in their order. *)
Theorem work_list_is_the_accepted_attachments (cfg : Config)
  (emails more : list Email) (e : Email) (it : WorkItem) :
  (it ∈ work_list cfg emails ↔
     ∃ e', e' ∈ emails
           ∧ item_attachment it ∈ attachments e'
           ∧ accepted cfg (item_attachment it)
           ∧ item_email_subject it = subject_or_default e')
  ∧ work_list cfg (emails ++ more) = work_list cfg emails ++ work_list cfg more
  ∧ work_list cfg [e]
    = map (fun a => {| item_attachment := a;
                       item_email_subject := subject_or_default e |})
          (filter (accepted cfg) (attachments e))
  ∧ (subject e = None →
       Forall (λ i, item_email_subject i = "No Subject") (work_list cfg [e])).
Proof.
  rewrite !work_list_eligible. split; [|split; [|split]].
  - induction emails as [|e0 rest IH].
    + split; [intros H; inversion H|].
      intros (e' & He' & _). inversion He'.
    + rewrite eligible_items_cons, elem_of_app, IH. split.
      * intros [Hin|(e' & He' & Hrest)].
        -- apply list_elem_of_In, in_map_iff in Hin as (a & <- & Ha).
           apply list_elem_of_In in Ha.
           rewrite filter_attachments_filter in Ha.
           apply list_elem_of_filter in Ha as [Hacc Ha].
           exists e0. simpl. split; [left|]. auto.
        -- exists e'. split; [right; exact He'|exact Hrest].
      * intros (e' & He' & Hatt & Hacc & Hsubj).
        apply elem_of_cons in He' as [->|He'].
        -- left. apply list_elem_of_In, in_map_iff.
           exists (item_attachment it). split.
           ++ destruct it as [a subj]. simpl in *. rewrite Hsubj. reflexivity.
           ++ apply list_elem_of_In. rewrite filter_attachments_filter.
              apply list_elem_of_filter. auto.
        -- right. exists e'. auto.
  - unfold eligible_items. rewrite map_app, concat_app. reflexivity.
  - unfold eligible_items. simpl.
    rewrite app_nil_r, filter_attachments_filter. reflexivity.
  - intros Hsubj. unfold eligible_items. simpl.
    rewrite app_nil_r. apply Forall_forall. intros i Hi.
    apply list_elem_of_In, in_map_iff in Hi as (a & <- & _). simpl.
    unfold subject_or_default. rewrite Hsubj. reflexivity.
Qed.

Lemma work_list_is_the_accepted_attachments_witness :
  invoice_item ∈ work_list default_config [plain_email; invoice_email].
Proof.
  destruct (work_list_is_the_accepted_attachments default_config
              [plain_email; invoice_email] [] plain_email invoice_item)
    as (Hin & _).
  apply Hin. exists invoice_email. split; [|split; [|split]].
  - apply list_elem_of_In. simpl. tauto.
  - apply list_elem_of_In. simpl. tauto.
  - split; [apply list_elem_of_In; vm_compute; tauto|vm_compute; discriminate].
  - reflexivity.
Defined.

(** ** The worker on a dict without a file name *)

(** X13: for an attachment dict without a [filename] key the worker names
    its outcome [unknown] and, when the upload goes through, writes the blob
    to the path [<date>/None]; the call does not fail for the missing key. *)
Theorem worker_without_filename (env : Env) (a : Attachment)
  (email_subject : string) (w : World) :
  filename a = None →
  ∃ o w',
    process_single_attachment env a email_subject w = (Ok o, w')
    ∧ out_filename o = "unknown"
    ∧ (out_success o = true ↔
         parse_fault env a = None
         ∧ gcs_fault env (String.append (date_path env (clock w)) "/None")
             (bucket w) = None)
    ∧ (out_success o = true →
         ∃ b, bucket w' = bucket w ++ [b]
              ∧ blob_path b = String.append (date_path env (clock w)) "/None").
Proof.
  intros Hfn.
  destruct (process_single_attachment_cases env a email_subject w)
    as (o & w' & Hrun & Hname & _ & _ & Hcases).
  assert (Hpath : upload_path env a (clock w)
                  = String.append (date_path env (clock w)) "/None").
  { unfold upload_path. rewrite Hfn. reflexivity. }
  rewrite Hpath in Hcases.
  exists o, w'. split; [exact Hrun|].
  split; [rewrite Hname, Hfn; reflexivity|].
  destruct (parse_fault env a) as [e|].
  - destruct Hcases as (Hs & _). rewrite Hs.
    split; [split; [discriminate|intros [? _]; discriminate]|discriminate].
  - destruct (gcs_fault env _ (bucket w)) as [e|].
    + destruct Hcases as (Hs & _). rewrite Hs.
      split; [split; [discriminate|intros [_ ?]; discriminate]|discriminate].
    + destruct Hcases as (Hs & _ & b & Hb & Hbp). rewrite Hs.
      split; [tauto|]. intros _. exists b. split; [exact Hb|exact Hbp].
Qed.

Lemma worker_without_filename_witness :
  ∃ o w',
    process_single_attachment quiet_env bare_attachment "Lunch?" empty_world
    = (Ok o, w')
    ∧ out_filename o = "unknown"
    ∧ map blob_path (bucket w') = ["2024/01/15/None"].
Proof.
  destruct (worker_without_filename quiet_env bare_attachment "Lunch?"
              empty_world eq_refl) as (o & w' & Hrun & Hname & Hiff & Hblob).
  destruct (Hblob (proj2 Hiff (conj eq_refl eq_refl))) as (b & Hb & Hpath).
  exists o, w'. split; [exact Hrun|]. split; [exact Hname|].
  rewrite Hb. simpl. rewrite Hpath. reflexivity.
Defined.

(** ** More on the retry loop *)

(** The attempts and the sleeps of the loop, whatever the attempts do: one
    sleep between two attempts and none after the last. *)
Lemma retry_loop_bounds env cfg :
  ∀ left attempt_no w,
    attempt_no + Z.of_nat left = retry_attempts cfg + 1 →
    ∃ attempts,
      fetch_calls (snd (retry_loop env cfg left attempt_no w))
      = (fetch_calls w + attempts)%nat
      ∧ (attempts <= left)%nat
      ∧ (1 <= left → 1 <= attempts)%nat
      ∧ naps (snd (retry_loop env cfg left attempt_no w))
        = naps w ++ replicate (attempts - 1) (retry_delay_seconds cfg).
Proof.
  induction left as [|left IH]; intros attempt_no w Hinv.
  - exists 0%nat. simpl. rewrite app_nil_r. repeat split; lia.
  - rewrite retry_loop_S.
    set (w0 := add_line (ProcessingAttempt attempt_no (retry_attempts cfg)) w).
    pose proof (process_emails_naps env cfg false w0) as Hn.
    pose proof (process_emails_fetch_calls env cfg false w0) as Hf.
    destruct (process_emails env cfg false w0) as [[u|e] w1]; simpl in Hn, Hf.
    { exists 1%nat. simpl. rewrite Hn, Hf, app_nil_r. repeat split; lia. }
    cbv zeta.
    destruct (attempt_no <? retry_attempts cfg) eqn:Hlt.
    2: { exists 1%nat. simpl. rewrite Hn, Hf, app_nil_r. repeat split; lia. }
    apply Z.ltb_lt in Hlt.
    destruct (time_sleep_cases env (retry_delay_seconds cfg)
                (add_line (RetryingIn (retry_delay_seconds cfg))
                   (add_line (AttemptFailed attempt_no e) w1)))
      as [->|[e' ->]].
    2: { exists 1%nat. simpl. rewrite Hn, Hf, app_nil_r. repeat split; lia. }
    match goal with
    | |- context [retry_loop env cfg left _ ?w3] => set (w3' := w3)
    end.
    destruct (IH (attempt_no + 1) w3' ltac:(lia))
      as (a & Hfetch & Hle & Hge & Hnaps).
    specialize (Hge ltac:(lia)).
    exists (S a). rewrite Hfetch, Hnaps. unfold w3'. simpl. rewrite Hn, Hf.
    split; [lia|]. split; [lia|]. split; [lia|].
    rewrite <- app_assoc. simpl. rewrite Nat.sub_0_r.
    destruct a as [|a]; [lia|]. simpl. rewrite Nat.sub_0_r. reflexivity.
Qed.

(** X14: whatever the attempts do and whatever the configuration is,
    [run_with_retry] makes at most [retry_attempts] attempts -- at least one
    when [retry_attempts] is positive, none at all and a normal return when
    it is not -- and it has slept exactly once between two attempts, for
    [retry_delay_seconds], and never after the last one. *)
Theorem retry_never_exceeds_budget (env : Env) (cfg : Config) (w : World) :
  let run := run_with_retry env cfg w in
  ∃ attempts,
    fetch_calls (snd run) = (fetch_calls w + attempts)%nat
    ∧ (attempts <= Z.to_nat (retry_attempts cfg))%nat
    ∧ (1 <= retry_attempts cfg → (1 <= attempts)%nat)
    ∧ naps (snd run) = naps w ++ replicate (attempts - 1) (retry_delay_seconds cfg)
    ∧ (retry_attempts cfg <= 0 → run = (Ok tt, w)).
Proof.
  intros run. subst run. unfold run_with_retry.
  destruct (Z.le_gt_cases (retry_attempts cfg) 0) as [Hnone|Hsome].
  - replace (Z.to_nat (retry_attempts cfg)) with 0%nat by lia.
    exists 0%nat. simpl. rewrite app_nil_r. repeat split; lia.
  - destruct (retry_loop_bounds env cfg (Z.to_nat (retry_attempts cfg)) 1 w
                ltac:(lia)) as (a & Hfetch & Hle & Hge & Hnaps).
    exists a. split; [exact Hfetch|]. split; [exact Hle|].
    split; [intros _; apply Hge; lia|]. split; [exact Hnaps|lia].
Qed.

(** What the whole loop uploads and sends is what its last attempt uploads
    and sends. *)
Lemma retry_loop_effects env cfg :
  ∀ left attempt_no w,
    ∃ bs ms rs,
      bucket (snd (retry_loop env cfg left attempt_no w)) = bucket w ++ bs
      ∧ outbox (snd (retry_loop env cfg left attempt_no w)) = outbox w ++ ms
      ∧ reports (snd (retry_loop env cfg left attempt_no w)) = reports w ++ rs
      ∧ Forall (λ b, blob_payload b = EmptyString) bs
      ∧ (length ms <= 1)%nat ∧ (length rs <= 1)%nat
      ∧ (notifications_on cfg = false → ms = [])
      ∧ (fst (retry_loop env cfg left attempt_no w) ≠ Ok tt →
           bs = [] ∧ ms = [] ∧ rs = []).
Proof.
  induction left as [|left IH]; intros attempt_no w.
  - exists [], [], []. simpl. rewrite !app_nil_r.
    repeat split; try constructor; try lia; congruence.
  - rewrite retry_loop_S.
    set (w0 := add_line (ProcessingAttempt attempt_no (retry_attempts cfg)) w).
    pose proof (process_emails_effects env cfg false w0) as Heff.
    cbv zeta in Heff.
    destruct (process_emails env cfg false w0) as [[u|e] w1] eqn:Hrun;
      simpl in Heff.
    + destruct Heff as [(_ & _ & Hb & Hr & Ho)|[(_ & _ & Hraise & _)
         |(_ & _ & _ & p & bs & Hp & Hb & Hlen & Hall & Hr & Ho)]];
        [|discriminate|].
      * exists [], [], []. simpl. rewrite !app_nil_r, Hb, Hr, Ho.
        repeat split; try constructor; try lia; congruence.
      * eexists bs, _, _. simpl. rewrite Hb, Hr, Ho.
        split; [reflexivity|]. split; [reflexivity|]. split; [reflexivity|].
        split; [exact Hall|].
        split; [destruct (notifications_on cfg); simpl; lia|].
        split; [simpl; lia|].
        split; [intros ->; reflexivity|congruence].
    + assert (Hsame : bucket w1 = bucket w ∧ outbox w1 = outbox w
                      ∧ reports w1 = reports w).
      { destruct Heff as [(_ & Hok & _)|[(_ & _ & _ & Hb & Hr & Ho)
           |(_ & _ & Hok & _)]]; try discriminate. auto. }
      destruct Hsame as (Hb & Ho & Hr). cbv zeta.
      assert (Hstop : ∀ e' w2, bucket w2 = bucket w → outbox w2 = outbox w →
                reports w2 = reports w →
                ∃ bs ms rs,
                  bucket (snd (@Raise unit e', w2)) = bucket w ++ bs
                  ∧ outbox (snd (@Raise unit e', w2)) = outbox w ++ ms
                  ∧ reports (snd (@Raise unit e', w2)) = reports w ++ rs
                  ∧ Forall (λ b, blob_payload b = EmptyString) bs
                  ∧ (length ms <= 1)%nat ∧ (length rs <= 1)%nat
                  ∧ (notifications_on cfg = false → ms = [])
                  ∧ (fst (@Raise unit e', w2) ≠ Ok tt →
                       bs = [] ∧ ms = [] ∧ rs = [])).
      { intros e' w2 H1 H2 H3. exists [], [], []. simpl.
        rewrite !app_nil_r, H1, H2, H3.
        repeat split; try constructor; try lia. }
      destruct (attempt_no <? retry_attempts cfg).
      * destruct (time_sleep_cases env (retry_delay_seconds cfg)
                    (add_line (RetryingIn (retry_delay_seconds cfg))
                       (add_line (AttemptFailed attempt_no e) w1)))
          as [->|[e' ->]].
        2: { apply Hstop; simpl; assumption. }
        -- match goal with
           | |- context [retry_loop env cfg left _ ?w3] => set (w3' := w3)
           end.
           destruct (IH (attempt_no + 1) w3')
             as (bs & ms & rs & Hb' & Ho' & Hr' & Hrest).
           exists bs, ms, rs. rewrite Hb', Ho', Hr'. unfold w3'. simpl.
           rewrite Hb, Ho, Hr. split; [reflexivity|].
           split; [reflexivity|]. split; [reflexivity|]. exact Hrest.
      * apply Hstop; simpl; assumption.
Qed.

(** X15: across all its attempts [run_with_retry] uploads and notifies at
    most once: an attempt that raises has uploaded nothing and sent nothing,
    and the first attempt that completes ends the loop.  So the whole job
    logs at most one summary and sends at most one notification -- none when
    notifications are not configured -- every blob it uploads has an empty
    payload, and a job that ends with an exception has uploaded and sent
    nothing at all. *)
Theorem job_uploads_and_notifies_once (env : Env) (cfg : Config) (w : World) :
  let run := run_with_retry env cfg w in
  ∃ bs ms rs,
    bucket (snd run) = bucket w ++ bs
    ∧ outbox (snd run) = outbox w ++ ms
    ∧ reports (snd run) = reports w ++ rs
    ∧ Forall (λ b, blob_payload b = EmptyString) bs
    ∧ (length ms <= 1)%nat ∧ (length rs <= 1)%nat
    ∧ (notifications_on cfg = false → ms = [])
    ∧ (fst run ≠ Ok tt → bs = [] ∧ ms = [] ∧ rs = []).
Proof.
  intros run. subst run. unfold run_with_retry.
  destruct (retry_loop_effects env cfg (Z.to_nat (retry_attempts cfg)) 1 w)
    as (bs & ms & rs & Hb & Ho & Hr & Hall & Hms & Hrs & Hoff & Hfail).
  exists bs, ms, rs. repeat split; try assumption; apply Hfail; assumption.
Qed.

(** A length [time.sleep] does not take makes it raise, with the world as it
    was. *)
Lemma time_sleep_rejects env d w :
  ¬ sleep_accepts env d →
  ∃ e, time_sleep env d w = (Raise e, w)
       ∧ (e = sleep_error ∨ e = sleep_overflow).
Proof.
  intros Hnot. unfold time_sleep.
  destruct ((d <? - sleep_limit env) || (sleep_limit env <? d)) eqn:Hout.
  - eexists. split; [reflexivity|right; reflexivity].
  - destruct (d <? 0) eqn:Hneg.
    + eexists. split; [reflexivity|left; reflexivity].
    + exfalso. apply Hnot. apply orb_false_iff in Hout as [Hlow Hhigh].
      apply Z.ltb_ge in Hlow, Hhigh, Hneg. split; lia.
Qed.

(** X22: the sleep between two attempts is not guarded.  With two attempts
    or more and a delay [time.sleep] does not take, a fault of the first
    attempt is never retried: [run_with_retry] raises the exception of
    [time.sleep] -- not the fault of the attempt -- after this single
    attempt and without having slept, and the process ends with status 1. *)
Theorem sleep_fault_is_not_retried (env : Env) (cfg : Config) (w : World) :
  2 <= retry_attempts cfg →
  ¬ sleep_accepts env (retry_delay_seconds cfg) →
  attempt_faults env cfg (fetch_calls w) →
  ∃ e w', run_with_retry env cfg w = (Raise e, w')
          ∧ (e = sleep_error ∨ e = sleep_overflow)
          ∧ fetch_calls w' = S (fetch_calls w)
          ∧ naps w' = naps w
          ∧ fst (main env (Constructed cfg) w) = 1.
Proof.
  intros Hattempts Hnot Hfault. unfold main, run_with_retry.
  destruct (Z.to_nat (retry_attempts cfg)) as [|left] eqn:Hleft; [lia|].
  rewrite retry_loop_S.
  set (w0 := add_line (ProcessingAttempt 1 (retry_attempts cfg)) w).
  destruct (Hfault w0 eq_refl) as (e1 & w1 & Hrun).
  pose proof (process_emails_naps env cfg false w0) as Hn.
  pose proof (process_emails_fetch_calls env cfg false w0) as Hf.
  rewrite Hrun in *. simpl in Hn, Hf. cbv zeta.
  assert (Hlt : (1 <? retry_attempts cfg) = true) by (apply Z.ltb_lt; lia).
  rewrite Hlt.
  destruct (time_sleep_rejects env (retry_delay_seconds cfg)
              (add_line (RetryingIn (retry_delay_seconds cfg))
                 (add_line (AttemptFailed 1 e1) w1)) Hnot)
    as (e & Hsleep & Hclass).
  rewrite Hsleep. exists e. eexists. split; [reflexivity|].
  split; [exact Hclass|]. simpl. rewrite Hn, Hf. repeat split.
Qed.

Lemma sleep_fault_is_not_retried_witness :
  ∃ e w', run_with_retry (invoice_until 2) overlong_delay_config empty_world
          = (Raise e, w')
          ∧ fetch_calls w' = 1%nat ∧ naps w' = [].
Proof.
  destruct (sleep_fault_is_not_retried (invoice_until 2) overlong_delay_config
              empty_world) as (e & w' & Hrun & _ & Hfetch & Hnaps & _).
  - simpl. lia.
  - unfold sleep_accepts. simpl. lia.
  - intros w Hw. apply process_emails_without_worker; [|simpl; lia].
    rewrite Hw. discriminate.
  - exists e, w'. split; [exact Hrun|]. split; [exact Hfetch|exact Hnaps].
Defined.

(** ** Start-up *)

Lemma init_constructed host environ cfg :
  EmailProcessor_init host environ = Constructed cfg →
  logging_fault host environ = None
  ∧ config_dict host environ = Ok cfg
  ∧ init_storage host environ = None
  ∧ missing_fields environ = [].
Proof.
  unfold EmailProcessor_init, load_config.
  destruct (logging_fault host environ); [discriminate|].
  destruct (config_dict host environ) as [c|e]; [|discriminate].
  destruct (init_storage host environ); [discriminate|].
  destruct (missing_fields environ); [|discriminate].
  intros [= ->]. repeat split.
Qed.

Lemma config_dict_fields host environ cfg :
  config_dict host environ = Ok cfg →
  attachment_types cfg
  = PyStr.split "," (getenv_or environ "ATTACHMENT_TYPES"
                       "pdf,doc,docx,txt,csv,xlsx")
  ∧ enable_notifications cfg
    = String.eqb (PyStr.lower (getenv_or environ "ENABLE_NOTIFICATIONS" "true"))
                 "true"
  ∧ email_api_key cfg = environ !! "EMAIL_API_KEY"
  ∧ notification_email cfg = environ !! "NOTIFICATION_EMAIL"
  ∧ py_int host (getenv_or environ "MAX_WORKERS" "4") = Some (max_workers cfg)
  ∧ py_int host (getenv_or environ "RETRY_ATTEMPTS" "3")
    = Some (retry_attempts cfg).
Proof.
  unfold config_dict, and_then, int_setting.
  repeat match goal with
         | |- context [py_int host ?s] =>
             destruct (py_int host s); [|discriminate]
         end.
  intros [= <-]. repeat split.
Qed.

(** X16: when one of the seven required settings is unset or empty, no
    processor is constructed, whatever else the environment holds: the
    process ends with status 1 without having fetched, uploaded, sent or
    slept. *)
Theorem startup_requires_settings (env : Env) (host : Host)
  (environ : gmap string string) (w : World) (k : string) :
  k ∈ required_settings →
  PyStr.truthy (environ !! k) = false →
  (∀ cfg, EmailProcessor_init host environ ≠ Constructed cfg)
  ∧ fst (main_process env host environ w) = 1
  ∧ fetch_calls (snd (main_process env host environ w)) = fetch_calls w
  ∧ bucket (snd (main_process env host environ w)) = bucket w
  ∧ outbox (snd (main_process env host environ w)) = outbox w
  ∧ naps (snd (main_process env host environ w)) = naps w.
Proof.
  intros Hk Hfalsy.
  assert (Hmissing : missing_fields environ ≠ []).
  { intros Hnil. assert (Hin : In k (missing_fields environ)).
    { unfold missing_fields. apply filter_In. split;
        [apply list_elem_of_In; exact Hk|rewrite Hfalsy; reflexivity]. }
    rewrite Hnil in Hin. exact Hin. }
  split.
  { intros cfg Hinit. apply init_constructed in Hinit as (_ & _ & _ & Hnil).
    contradiction. }
  unfold main_process, EmailProcessor_init, load_config.
  destruct (logging_fault host environ); [repeat split|].
  destruct (config_dict host environ); [|repeat split].
  destruct (init_storage host environ); [repeat split|].
  destruct (missing_fields environ); [congruence|repeat split].
Qed.

Lemma startup_requires_settings_witness :
  fst (main_process invoice_always plain_host no_imap_environ empty_world) = 1
  ∧ fetch_calls (snd (main_process invoice_always plain_host no_imap_environ
                        empty_world)) = fetch_calls empty_world.
Proof.
  destruct (startup_requires_settings invoice_always plain_host
              no_imap_environ empty_world "IMAP_SERVER")
    as (_ & Hexit & Hfetch & _).
  - apply list_elem_of_In. simpl. tauto.
  - vm_compute. reflexivity.
  - split; [exact Hexit|exact Hfetch].
Defined.

(** X17: a constructed processor holds the attachment types exactly as the
    setting spells them: the comma-separated fields of [ATTACHMENT_TYPES], in
    order, none of them stripped or lower-cased, so that joining them with
    commas gives the setting back.  The list is never empty; it is the six
    default types when the variable is unset, and the single empty string
    when the variable is set but empty.  Notifications are enabled exactly
    when [ENABLE_NOTIFICATIONS], lower-cased, reads [true]. *)
Theorem configured_types_round_trip (host : Host)
  (environ : gmap string string) (cfg : Config) :
  EmailProcessor_init host environ = Constructed cfg →
  let raw := getenv_or environ "ATTACHMENT_TYPES" "pdf,doc,docx,txt,csv,xlsx" in
  String.concat "," (attachment_types cfg) = raw
  ∧ attachment_types cfg ≠ []
  ∧ Forall (λ t, PyStr.contains "," t = false) (attachment_types cfg)
  ∧ (environ !! "ATTACHMENT_TYPES" = None →
       attachment_types cfg = ["pdf"; "doc"; "docx"; "txt"; "csv"; "xlsx"])
  ∧ (environ !! "ATTACHMENT_TYPES" = Some EmptyString →
       attachment_types cfg = [EmptyString])
  ∧ (enable_notifications cfg = true ↔
       PyStr.lower (getenv_or environ "ENABLE_NOTIFICATIONS" "true") = "true").
Proof.
  intros Hinit raw. apply init_constructed in Hinit as (_ & Hdict & _).
  apply config_dict_fields in Hdict as (Htypes & Hnotify & _).
  rewrite Htypes, Hnotify. fold raw.
  split; [apply concat_split|]. split; [apply split_nonempty|].
  split; [apply split_fields_no_sep|]. split; [|split].
  - intros Hunset. unfold raw, getenv_or. rewrite Hunset. reflexivity.
  - intros Hempty. unfold raw, getenv_or. rewrite Hempty. reflexivity.
  - apply String.eqb_eq.
Qed.

Lemma configured_types_round_trip_witness :
  EmailProcessor_init plain_host spaced_types_environ
  = Constructed spaced_types_config
  ∧ String.concat "," (attachment_types spaced_types_config)
    = getenv_or spaced_types_environ "ATTACHMENT_TYPES"
        "pdf,doc,docx,txt,csv,xlsx".
Proof.
  assert (Hinit : EmailProcessor_init plain_host spaced_types_environ
                  = Constructed spaced_types_config)
    by (vm_compute; reflexivity).
  split; [exact Hinit|].
  pose proof (configured_types_round_trip plain_host spaced_types_environ
                spaced_types_config Hinit) as Htypes.
  cbv zeta in Htypes. exact (proj1 Htypes).
Defined.

(** X18: an [ATTACHMENT_TYPES] setting that ends in a comma puts the empty
    string among the types of the constructed processor, and its filter then
    keeps every attachment whose file name has no dot and whose size is
    within the ceiling. *)
Theorem trailing_comma_admits_names_without_dot (host : Host)
  (environ : gmap string string) (cfg : Config) (pre : string)
  (a : Attachment) :
  EmailProcessor_init host environ = Constructed cfg →
  environ !! "ATTACHMENT_TYPES" = Some (String.append pre ",") →
  PyStr.contains "." (filename_or_empty a) = false →
  size_or_zero a <= max_size_bytes cfg →
  EmptyString ∈ attachment_types cfg
  ∧ filter_attachments cfg [a] = [a].
Proof.
  intros Hinit Hraw Hdot Hsize.
  apply init_constructed in Hinit as (_ & Hdict & _).
  apply config_dict_fields in Hdict as (Htypes & _).
  assert (Hempty : EmptyString ∈ attachment_types cfg).
  { rewrite Htypes. unfold getenv_or. rewrite Hraw. simpl default.
    pose proof (last_item_in "," (String.append pre ",")) as Hlast.
    change (String.append pre ",")
      with (String.append pre (String "," EmptyString)) in Hlast at 1.
    rewrite last_split_app in Hlast. exact Hlast. }
  split; [exact Hempty|].
  rewrite filter_attachments_filter. rewrite filter_cons_True; [reflexivity|].
  split; [|exact Hsize]. rewrite (file_extension_no_dot a Hdot). exact Hempty.
Qed.

Lemma trailing_comma_admits_names_without_dot_witness :
  EmailProcessor_init plain_host trailing_comma_environ
  = Constructed trailing_comma_config
  ∧ filter_attachments trailing_comma_config [readme_attachment]
    = [readme_attachment].
Proof.
  assert (Hinit : EmailProcessor_init plain_host trailing_comma_environ
                  = Constructed trailing_comma_config)
    by (vm_compute; reflexivity).
  split; [exact Hinit|].
  refine (proj2 (trailing_comma_admits_names_without_dot plain_host
                   trailing_comma_environ trailing_comma_config "pdf"
                   readme_attachment Hinit _ _ _)).
  - vm_compute. reflexivity.
  - reflexivity.
  - vm_compute. discriminate.
Defined.

(** ** send_notification *)

(** X19: [send_notification] never raises.  Without a notification address
    or without an API key it does nothing at all; otherwise it hands one
    message to SendGrid and logs the outcome: success for status 202, a
    failure with the status code for any other answer, an error when the
    client raises. *)
Theorem send_notification_best_effort (env : Env) (cfg : Config)
  (processed total emails_with_attachments total_emails : Z) (w : World) :
  let run := send_notification env cfg processed total emails_with_attachments
               total_emails w in
  let m := report_mail cfg processed total emails_with_attachments
             total_emails in
  fst run = Ok tt
  ∧ (PyStr.truthy (notification_email cfg) = false
     ∨ PyStr.truthy (email_api_key cfg) = false → snd run = w)
  ∧ (PyStr.truthy (notification_email cfg) = true →
     PyStr.truthy (email_api_key cfg) = true →
       outbox (snd run) = outbox w ++ [m]
       ∧ bucket (snd run) = bucket w
       ∧ (∃ line, journal (snd run) = journal w ++ [SendingNotification; line]
                  ∧ match sendgrid_send env m with
                    | inl e => line = NotificationError e
                    | inr code =>
                        (code = 202 ∧ line = NotificationSent)
                        ∨ (code ≠ 202 ∧ line = NotificationFailed code)
                    end)).
Proof.
  intros run m. subst run. split; [apply send_notification_ok|]. split.
  - intros Hoff. rewrite send_notification_unconfigured by exact Hoff.
    reflexivity.
  - intros Hto Hkey. rewrite send_notification_run by assumption. simpl.
    split; [reflexivity|]. split; [reflexivity|].
    exists (send_line env m). rewrite <- app_assoc. split; [reflexivity|].
    unfold send_line. fold m. destruct (sendgrid_send env m) as [e|code];
      [reflexivity|].
    destruct (code =? 202) eqn:Hcode.
    + left. apply Z.eqb_eq in Hcode. auto.
    + right. apply Z.eqb_neq in Hcode. auto.
Qed.


Lemma config_dict_ints host environ cfg :
  config_dict host environ = Ok cfg →
  Forall (λ kd, is_Some (py_int host (getenv_or environ kd.1 kd.2)))
    int_settings.
Proof.
  unfold config_dict, and_then, int_setting.
  repeat match goal with
         | |- context [py_int host ?s] =>
             destruct (py_int host s) eqn:?; [|discriminate]
         end.
  intros _. unfold int_settings. repeat constructor; simpl; eauto.
Qed.

(** How the constructor can end. *)
Lemma init_cases host environ :
  (∃ cfg, EmailProcessor_init host environ = Constructed cfg)
  ∨ EmailProcessor_init host environ = StartupExit 1
  ∨ (∃ e, EmailProcessor_init host environ = StartupRaised e).
Proof.
  unfold EmailProcessor_init, load_config.
  destruct (logging_fault host environ); [eauto|].
  destruct (config_dict host environ); [|eauto].
  destruct (init_storage host environ); [eauto|].
  destruct (missing_fields environ); eauto.
Qed.

(** X20: a setting that [int] rejects -- the IMAP port, the size ceiling, the
    batch size, the number of workers, of attempts or of seconds to wait --
    keeps the processor from being constructed: the process ends with status
    1 before any fetch, upload, notification or sleep. *)
Theorem startup_rejects_bad_integer (env : Env) (host : Host)
  (environ : gmap string string) (w : World) (k d : string) :
  (k, d) ∈ int_settings →
  py_int host (getenv_or environ k d) = None →
  (∀ cfg, EmailProcessor_init host environ ≠ Constructed cfg)
  ∧ fst (main_process env host environ w) = 1
  ∧ fetch_calls (snd (main_process env host environ w)) = fetch_calls w
  ∧ bucket (snd (main_process env host environ w)) = bucket w
  ∧ outbox (snd (main_process env host environ w)) = outbox w
  ∧ naps (snd (main_process env host environ w)) = naps w.
Proof.
  intros Hk Hbad.
  assert (Hnot : ∀ cfg, EmailProcessor_init host environ ≠ Constructed cfg).
  { intros cfg Hinit. apply init_constructed in Hinit as (_ & Hdict & _).
    apply config_dict_ints in Hdict. rewrite Forall_forall in Hdict.
    specialize (Hdict _ Hk). simpl in Hdict. rewrite Hbad in Hdict.
    destruct Hdict as [? Hsome]. discriminate. }
  split; [exact Hnot|]. unfold main_process.
  destruct (init_cases host environ) as [(cfg & Hc)|[Hexit|(e & Hraised)]].
  - exfalso. exact (Hnot cfg Hc).
  - rewrite Hexit. repeat split.
  - rewrite Hraised. repeat split.
Qed.

Lemma startup_rejects_bad_integer_witness :
  fst (main_process invoice_always plain_host spelled_workers_environ
         empty_world) = 1.
Proof.
  destruct (startup_rejects_bad_integer invoice_always plain_host
              spelled_workers_environ empty_world "MAX_WORKERS" "4")
    as (_ & Hexit & _).
  - apply list_elem_of_In. simpl. tauto.
  - vm_compute. reflexivity.
  - exact Hexit.
Defined.

(** X21: the process ends with status 0 or 1, never another.  The status is 0
    exactly when the processor is constructed and [run_with_retry] returns
    normally; when the processor is not constructed the process has fetched,
    uploaded, sent and slept nothing. *)
Theorem exit_status_zero_or_one (env : Env) (host : Host)
  (environ : gmap string string) (w : World) :
  let run := main_process env host environ w in
  (fst run = 0 ∨ fst run = 1)
  ∧ (fst run = 0 ↔
       ∃ cfg, EmailProcessor_init host environ = Constructed cfg
              ∧ fst (run_with_retry env cfg w) = Ok tt)
  ∧ ((∀ cfg, EmailProcessor_init host environ ≠ Constructed cfg) →
       fetch_calls (snd run) = fetch_calls w ∧ bucket (snd run) = bucket w
       ∧ outbox (snd run) = outbox w ∧ naps (snd run) = naps w).
Proof.
  intros run. subst run. unfold main_process.
  destruct (init_cases host environ) as [(cfg & Hc)|[Hexit|(e & Hraised)]].
  - rewrite Hc. unfold main.
    destruct (run_with_retry env cfg w) as [[[]|e] w'] eqn:Hrun; simpl.
    + split; [left; reflexivity|]. split.
      * split; [|reflexivity]. intros _. exists cfg. rewrite Hrun. auto.
      * intros Hnot. exfalso. exact (Hnot cfg eq_refl).
    + split; [right; reflexivity|]. split.
      * split; [discriminate|]. intros (cfg' & [= <-] & Hok).
        rewrite Hrun in Hok. discriminate.
      * intros Hnot. exfalso. exact (Hnot cfg eq_refl).
  - rewrite Hexit. simpl. split; [right; reflexivity|]. split.
    + split; [discriminate|]. intros (cfg' & Hc' & _). discriminate.
    + repeat split.
  - rewrite Hraised. simpl. split; [right; reflexivity|]. split.
    + split; [discriminate|]. intros (cfg' & Hc' & _). discriminate.
    + repeat split.
Qed.
